(** * RedocWithMermaid: the diagram substitution loop

    A shallow embedding of [RedocWithMermaid.tsx] (the component that scans
    the documentation rendered by Redoc for [code.language-mermaid] blocks and
    replaces them by rendered diagrams), and the properties of its
    scan-and-render operation [processMermaidBlocks].

    - The DOM is a tree of nodes; an element carries a reference (its object
      identity), so that a pass of [processMermaidBlocks] suspended at
      [await] keeps handles on nodes that other passes mutate meanwhile.
    - An invocation of the async function [processMermaidBlocks] is a
      coroutine: it runs synchronously up to its next [await mermaid.render],
      where it is suspended with its local variables (a [Frame]); it is
      resumed when the promise settles.  The event loop is single threaded,
      so a step of the model is one such uninterrupted run.
    - The outcome of a render (markup or a thrown value) is chosen by the
      environment: it is carried by the label of the step. *)

From Stdlib Require Import Ascii.
From stdpp Require Import base option list sorting gmap strings pretty.

#[local] Set Warnings "-clear-no-such-hyp".

(** ** The DOM *)

(** The fields of an element itself.  [ref] stands for the identity of the
    JavaScript object. *)
Record Head : Type := mkHead {
  ref : nat;
  tagName : string;
  classList : list string;
  attributes : gmap string string
}.

(** [Markup s] is the content the HTML parser builds when [s] is assigned to
    [innerHTML]; it is kept unparsed: selectors find no element inside it and
    it contributes no text. *)
#[local] Unset Elimination Schemes.
Inductive Node : Type :=
| Text (data : string)
| Markup (html : string)
| Elem (h : Head) (childNodes : list Node).
#[local] Set Elimination Schemes.

Section Node_induction.
Variable P : Node → Prop.
Hypothesis P_text : ∀ s, P (Text s).
Hypothesis P_markup : ∀ s, P (Markup s).
Hypothesis P_elem : ∀ h kids, Forall P kids → P (Elem h kids).

Fixpoint Node_forall_ind (n : Node) : P n :=
  match n with
  | Text s => P_text s
  | Markup s => P_markup s
  | Elem h kids =>
      P_elem h kids
        ((fix go (l : list Node) : Forall P l :=
            match l with
            | [] => @Stdlib.Lists.List.Forall_nil _ P
            | k :: l' =>
                @Stdlib.Lists.List.Forall_cons _ P k l' (Node_forall_ind k) (go l')
            end) kids)
  end.
End Node_induction.

(** Searching a list of siblings in document order: [here k after] is asked
    at each child [k] (followed by the siblings [after]) and the first answer
    wins. *)
Section scan.
Context {A B : Type}.
Variable here : A → list A → option B.

Fixpoint scan (l : list A) : option B :=
  match l with
  | [] => None
  | k :: after =>
      match here k after with
      | Some b => Some b
      | None => scan after
      end
  end.
End scan.

(** Rewriting the first child on which [f] answers, by the siblings it
    answers. *)
Section splice.
Context {A : Type}.
Variable f : A → option (list A).

Fixpoint splice (l : list A) : option (list A) :=
  match l with
  | [] => None
  | k :: after =>
      match f k with
      | Some ks => Some (ks ++ after)
      | None => cons k <$> splice after
      end
  end.
End splice.

Definition isElem (r : nat) (n : Node) : bool :=
  match n with
  | Elem h _ => bool_decide (ref h = r)
  | _ => false
  end.

Definition headOf (n : Node) : option Head :=
  match n with
  | Elem h _ => Some h
  | _ => None
  end.

(** The element a reference designates: the first one in document order. *)
Fixpoint find (r : nat) (n : Node) : option Node :=
  match n with
  | Elem h kids =>
      if bool_decide (ref h = r) then Some n
      else scan (λ k _, find r k) kids
  | _ => None
  end.

(** [node.parentElement]: [None] is JavaScript's [null]. *)
Fixpoint parentElement (r : nat) (n : Node) : option Head :=
  match n with
  | Elem h kids =>
      scan (λ k _, if isElem r k then Some h else parentElement r k) kids
  | _ => None
  end.

(** [node.nextSibling]: the outer option tells whether the node was found
    as a child, the inner one is the sibling. *)
Fixpoint siblingAfter (r : nat) (n : Node) : option (option Node) :=
  match n with
  | Elem h kids =>
      scan (λ k after, if isElem r k then Some (head after)
                       else siblingAfter r k) kids
  | _ => None
  end.

Definition nextSibling (r : nat) (n : Node) : option Node :=
  mjoin (siblingAfter r n).

(** [el.insertAdjacentElement('afterend', new)]: [new] becomes the next
    sibling of [el] in the children of the parent of [el].  [None] when [el]
    has no parent (the DOM returns [null] and inserts nothing). *)
Definition insertHere (r : nat) (new : Node) (below : Node → option Node)
  (k : Node) : option (list Node) :=
  if isElem r k then Some [k; new] else (λ k', [k']) <$> below k.

Fixpoint insertAfter (r : nat) (new : Node) (n : Node) : option Node :=
  match n with
  | Elem h kids =>
      Elem h <$> splice (insertHere r new (insertAfter r new)) kids
  | _ => None
  end.

(** The element a reference designates after an insertion is the same one,
    possibly with the new node inserted below it. *)
Definition grown (p : nat) (new : Node) (e e' : Node) : Prop :=
  e' = e ∨ insertAfter p new e = Some e'.

Definition insertAdjacentElement_afterend (r : nat) (new : Node) (n : Node)
  : Node :=
  default n (insertAfter r new n).

(** A change of the fields of the element [r]. *)
Definition onElement (r : nat) (f : Head → Head) (h : Head) : Head :=
  if bool_decide (ref h = r) then f h else h.

Fixpoint update (r : nat) (f : Head → Head) (n : Node) : Node :=
  match n with
  | Elem h kids => Elem (onElement r f h) (update r f <$> kids)
  | _ => n
  end.

Definition setAttributeH (name value : string) (h : Head) : Head :=
  mkHead (ref h) (tagName h) (classList h) (<[name := value]> (attributes h)).

Definition removeAttributeH (name : string) (h : Head) : Head :=
  mkHead (ref h) (tagName h) (classList h) (delete name (attributes h)).

Definition classList_addH (cls : string) (h : Head) : Head :=
  mkHead (ref h) (tagName h)
    (if bool_decide (cls ∈ classList h) then classList h
     else classList h ++ [cls])
    (attributes h).

Definition setAttribute (r : nat) (name value : string) : Node → Node :=
  update r (setAttributeH name value).

Definition removeAttribute (r : nat) (name : string) : Node → Node :=
  update r (removeAttributeH name).

Definition classList_add (r : nat) (cls : string) : Node → Node :=
  update r (classList_addH cls).

Definition getHead (r : nat) (n : Node) : option Head := find r n ≫= headOf.

Definition hasAttribute (r : nat) (name : string) (n : Node) : bool :=
  match getHead r n with
  | Some h => bool_decide (is_Some (attributes h !! name))
  | None => false
  end.

Definition hasClass (r : nat) (cls : string) (n : Node) : bool :=
  match getHead r n with
  | Some h => bool_decide (cls ∈ classList h)
  | None => false
  end.

(** [node.textContent] of a node. *)
Fixpoint text (n : Node) : string :=
  match n with
  | Text s => s
  | Markup _ => ""
  | Elem _ kids => foldr String.append "" (text <$> kids)
  end.

Definition textContent (r : nat) (n : Node) : option string :=
  text <$> find r n.

(** The selector [code.language-mermaid]. *)
Definition isMermaidCode (h : Head) : bool :=
  bool_decide (tagName h = "CODE")
  && bool_decide ("language-mermaid" ∈ classList h).

(** The elements of a subtree that match the selector, in document order. *)
Fixpoint select (n : Node) : list nat :=
  match n with
  | Elem h kids =>
      (if isMermaidCode h then [ref h] else []) ++ (kids ≫= select)
  | _ => []
  end.

(** [container.querySelectorAll('code.language-mermaid')]: the matching
    descendants of the container (the container itself is not a candidate). *)
Definition querySelectorAll (container : nat) (n : Node) : list nat :=
  match find container n with
  | Some (Elem _ kids) => kids ≫= select
  | _ => []
  end.

(** The references of all the elements of a tree. *)
Fixpoint refs (n : Node) : list nat :=
  match n with
  | Elem h kids => ref h :: (kids ≫= refs)
  | _ => []
  end.

(** The references of the elements below the root: those that have a
    parent. *)
Definition descendants (n : Node) : list nat :=
  match n with
  | Elem _ kids => kids ≫= refs
  | _ => []
  end.

(** The number of elements that have the class [cls]. *)
Fixpoint countClass (cls : string) (n : Node) : nat :=
  match n with
  | Elem h kids =>
      (if bool_decide (cls ∈ classList h) then 1 else 0)
      + sum_list (countClass cls <$> kids)
  | _ => 0
  end.

(** ** Strings *)

(** [String.prototype.trim]: the white space of ASCII (TAB, LF, VT, FF, CR
    and the space). *)
Definition isWhiteSpace (a : ascii) : bool :=
  let n := nat_of_ascii a in
  (n =? 32) || ((9 <=? n) && (n <=? 13)).

Fixpoint trimStart (s : string) : string :=
  match s with
  | String a s' => if isWhiteSpace a then trimStart s' else s
  | EmptyString => EmptyString
  end.

Definition trimEnd (s : string) : string :=
  String.rev (trimStart (String.rev s)).

Definition trim (s : string) : string := trimEnd (trimStart s).

(** ** The renderer, and the state of the page *)

(** What [mermaid.render] may throw: an instance of [Error] with its
    [message], or any other value. *)
Inductive Thrown : Type :=
| ErrorInstance (message : string)
| OtherValue.

(** How the promise returned by [mermaid.render] settles. *)
Inductive Outcome : Type :=
| Resolved (svg : string)
| Rejected (error : Thrown).

(** The local variables of an invocation of [processMermaidBlocks] suspended
    at [await mermaid.render(diagramId, mermaidSource)]; [remaining] are the
    elements of [codeBlocks] the [for] loop has not reached yet. *)
Record Frame : Type := mkFrame {
  remaining : list nat;
  codeBlock : nat;
  preElement : nat;
  mermaidSource : string;
  diagramId : string
}.

(** What the renderer sees: the calls of [mermaid.render] and how they
    settle, tagged by the invocation and the block they belong to. *)
Inductive Event : Type :=
| RenderCalled (pass block : nat) (id src : string)
| RenderSettled (pass block : nat) (id : string) (o : Outcome).

(** - [document], [nextRef]: the DOM and the next fresh object identity;
    - [containerRef], [renderingRef]: the refs of the component instance;
    - [mermaidIdCounter]: the module-level counter (a JavaScript number,
      here a natural number);
    - [passes]: the invocations of [processMermaidBlocks] so far, [Some] for
      the suspended ones and [None] for those that returned;
    - [history]: the events, oldest first. *)
Record World : Type := mkWorld {
  document : Node;
  nextRef : nat;
  containerRef : option nat;
  renderingRef : gset string;
  mermaidIdCounter : nat;
  passes : list (option Frame);
  history : list Event
}.

Definition setDocument (d : Node) (w : World) : World :=
  mkWorld d (nextRef w) (containerRef w) (renderingRef w)
    (mermaidIdCounter w) (passes w) (history w).

Definition setRendering (s : gset string) (w : World) : World :=
  mkWorld (document w) (nextRef w) (containerRef w) s
    (mermaidIdCounter w) (passes w) (history w).

Definition setPasses (ps : list (option Frame)) (w : World) : World :=
  mkWorld (document w) (nextRef w) (containerRef w) (renderingRef w)
    (mermaidIdCounter w) ps (history w).

Definition record (e : Event) (w : World) : World :=
  mkWorld (document w) (nextRef w) (containerRef w) (renderingRef w)
    (mermaidIdCounter w) (passes w) (history w ++ [e]).

(** [`mermaid-diagram-${n}`] *)
Definition mermaidId (n : nat) : string := "mermaid-diagram-" +:+ pretty n.

(** [generateMermaidId]: [`mermaid-diagram-${++mermaidIdCounter}`]. *)
Definition generateMermaidId (w : World) : string * World :=
  let n := S (mermaidIdCounter w) in
  (mermaidId n,
   mkWorld (document w) (nextRef w) (containerRef w) (renderingRef w)
     n (passes w) (history w)).

(** [document.createElement(tag)]: a new, detached element. *)
Definition createElement (tag : string) (w : World) : Head * World :=
  (mkHead (nextRef w) tag [] ∅,
   mkWorld (document w) (S (nextRef w)) (containerRef w) (renderingRef w)
     (mermaidIdCounter w) (passes w) (history w)).

Definition PROCESSED : string := "data-mermaid-processed".

(** ** [processMermaidBlocks] *)

(** The three checks at the head of the body of the [for] loop: the block
    is not marked processed, its parent is a [PRE], and its trimmed text,
    [mermaidSource], is not empty.  [None] is [continue]. *)
Definition checks (codeBlock : nat) (d : Node) : option (Head * string) :=
  if hasAttribute codeBlock PROCESSED d then None
  else
    match parentElement codeBlock d with
    | None => None
    | Some preElement =>
        if negb (bool_decide (tagName preElement = "PRE")) then None
        else
          match trim <$> textContent codeBlock d with
          | None => None
          | Some mermaidSource =>
              if bool_decide (mermaidSource = "") then None
              else Some (preElement, mermaidSource)
          end
    end.

(** From [renderingRef.current.add(mermaidSource)] to the call of
    [mermaid.render(diagramId, mermaidSource)]. *)
Definition start (pass codeBlock : nat) (mermaidSource diagramId : string)
  (w : World) : World :=
  let w := setRendering ({[mermaidSource]} ∪ renderingRef w) w in
  let w :=
    setDocument (setAttribute codeBlock PROCESSED "true" (document w)) w in
  record (RenderCalled pass codeBlock diagramId mermaidSource) w.

(** The body of the [for] loop for one [codeBlock], up to the [await]:
    [None] is [continue], [Some (preElement, mermaidSource, diagramId)] is
    the suspension at [await mermaid.render(diagramId, mermaidSource)]. *)
Definition examine (pass codeBlock : nat) (w : World)
  : World * option (nat * string * string) :=
  match checks codeBlock (document w) with
  | None => (w, None)
  | Some (preElement, mermaidSource) =>
      let (diagramId, w) := generateMermaidId w in
      if bool_decide (mermaidSource ∈ renderingRef w) then (w, None)
      else
        (start pass codeBlock mermaidSource diagramId w,
         Some (ref preElement, mermaidSource, diagramId))
  end.

(** The [for] loop from the block it has reached to the next [await], or to
    its end ([None]: the function returns). *)
Fixpoint loop (pass : nat) (codeBlocks : list nat) (w : World)
  : World * option Frame :=
  match codeBlocks with
  | [] => (w, None)
  | codeBlock :: rest =>
      match examine pass codeBlock w with
      | (w, None) => loop pass rest w
      | (w, Some (preElement, mermaidSource, diagramId)) =>
          (w, Some (mkFrame rest codeBlock preElement mermaidSource diagramId))
      end
  end.

Definition errorText (error : Thrown) : string :=
  "Mermaid Error: " +:+
  match error with
  | ErrorInstance message => message
  | OtherValue => "Failed to render diagram"
  end.

(** What follows the [await] for the block of the frame: the rest of the
    [try] block or the [catch] block, then the [finally] block. *)
Definition afterRender (pass : nat) (f : Frame) (o : Outcome) (w : World)
  : World :=
  let w := record (RenderSettled pass (codeBlock f) (diagramId f) o) w in
  let w :=
    match o with
    | Resolved svg =>
        let (div, w) := createElement "DIV" w in
        let mermaidContainer :=
          Elem (mkHead (ref div) (tagName div) ["mermaid-container"]
                  (attributes div)) [Markup svg] in
        let w :=
          setDocument
            (insertAdjacentElement_afterend (preElement f) mermaidContainer
               (document w)) w in
        setDocument
          (classList_add (preElement f) "mermaid-hidden" (document w)) w
    | Rejected error =>
        let (div, w) := createElement "DIV" w in
        let errorContainer :=
          Elem (mkHead (ref div) (tagName div) ["mermaid-error"]
                  (attributes div)) [Text (errorText error)] in
        let w :=
          setDocument
            (insertAdjacentElement_afterend (preElement f) errorContainer
               (document w)) w in
        setDocument (removeAttribute (codeBlock f) PROCESSED (document w)) w
    end in
  setRendering (renderingRef w ∖ {[mermaidSource f]}) w.

(** A call of [processMermaidBlocks()]: the run up to the first [await]. *)
Definition processMermaidBlocks (w : World) : World :=
  let pass := length (passes w) in
  match containerRef w with
  | None => setPasses (passes w ++ [None]) w
  | Some container =>
      let codeBlocks := querySelectorAll container (document w) in
      let (w, fr) := loop pass codeBlocks w in
      setPasses (passes w ++ [fr]) w
  end.

(** The promise awaited by the invocation [pass] settles: the invocation
    runs on to its next [await]. *)
Definition resume (pass : nat) (f : Frame) (o : Outcome) (w : World) : World :=
  let (w, fr) := loop pass (remaining f) (afterRender pass f o w) in
  setPasses (<[pass := fr]> (passes w)) w.

Inductive Label : Type :=
| Invoke
| Settle (pass : nat) (o : Outcome).

Definition step (l : Label) (w : World) : option World :=
  match l with
  | Invoke => Some (processMermaidBlocks w)
  | Settle pass o =>
      match passes w !! pass with
      | Some (Some f) => Some (resume pass f o w)
      | _ => None
      end
  end.

Fixpoint run (tr : list Label) (w : World) : option World :=
  match tr with
  | [] => Some w
  | l :: tr' => step l w ≫= run tr'
  end.

(** The page once Redoc has rendered [content] inside the container, the
    [div] of [styled.div] (reference 0); nothing is being rendered. *)
Definition containerHead : Head := mkHead 0 "DIV" [] ∅.

Definition initial (content : list Node) : World :=
  mkWorld (Elem containerHead content)
    (S (max_list (content ≫= refs))) (Some 0) ∅ 0 [] [].

(** A [pre] holding a [code.language-mermaid] with the given text. *)
Definition mermaidBlock (pre code : nat) (src : string) : Node :=
  Elem (mkHead pre "PRE" [] ∅)
    [Elem (mkHead code "CODE" ["language-mermaid"] ∅) [Text src]].

Definition renderCalls (h : list Event) : list (string * string) :=
  h ≫= λ e, match e with
             | RenderCalled _ _ id src => [(id, src)]
             | RenderSettled _ _ _ _ => []
             end.


(** ** Notions used by the statements *)

(** The invocation [pass] is suspended at its [await] with the frame [f]:
    its render call is in flight. *)
Definition pending (w : World) (pass : nat) (f : Frame) : Prop :=
  passes w !! pass = Some (Some f).

(** [n] more identifiers have been generated. *)
Definition advanceCounter (n : nat) (w : World) : World :=
  mkWorld (document w) (nextRef w) (containerRef w) (renderingRef w)
    (n + mermaidIdCounter w) (passes w) (history w).

(** The loop passes over a block: it fails one of the three checks, or its
    text is in the Rendering Set. *)
Definition skips (d : Node) (rendering : gset string) (c : nat) : Prop :=
  match checks c d with
  | None => True
  | Some (_, src) => src ∈ rendering
  end.

(** The identifiers generated for blocks that are passed over. *)
Definition consumed (d : Node) (l : list nat) : nat :=
  length (filter (λ c, is_Some (checks c d)) l).

(** A render of the text [s] is in flight. *)
Definition inFlight (w : World) (s : string) : Prop :=
  ∃ pass f, pending w pass f ∧ mermaidSource f = s.

(** The Rendering Set holds exactly the texts of the renders in flight, and
    no two renders in flight have the same text. *)
Record coherent (w : World) : Prop := mkCoherent {
  coherent_unique : ∀ i j f g,
    pending w i f → pending w j g → mermaidSource f = mermaidSource g → i = j;
  coherent_set : ∀ s, s ∈ renderingRef w ↔ inFlight w s
}.

(** ** Sample pages *)

(** Two diagrams with the same source, and one block with another source. *)
Definition twins : list Node :=
  [mermaidBlock 1 2 "graph TD; A-->B";
   mermaidBlock 3 4 "graph TD; A-->B"].

Definition twinsAndOne : list Node :=
  twins ++ [mermaidBlock 5 6 "graph LR; X-->Y"].

(** One block whose source the renderer rejects, and three attempts on it,
    one per invocation. *)
Definition oneBlock : list Node := [mermaidBlock 1 2 "graph TD; A--"].

Definition threeFailures : list Label :=
  [Invoke; Settle 0 (Rejected (ErrorInstance "bad syntax"));
   Invoke; Settle 1 (Rejected (ErrorInstance "bad syntax"));
   Invoke; Settle 2 (Rejected OtherValue)].

Definition afterThreeFailures : World :=
  default (initial oneBlock) (run threeFailures (initial oneBlock)).

Definition pair : list Node :=
  [mermaidBlock 1 2 "graph TD; A-->B";
   mermaidBlock 3 4 "graph LR; X-->Y"].



(** The identifiers passed to [mermaid.render], oldest first. *)
Definition callIds (h : list Event) : list string := fst <$> renderCalls h.

(** The identifiers of the calls are those of strictly increasing values of
    the counter, none beyond its present value. *)
Definition numbered (w : World) : Prop :=
  ∃ ns, callIds (history w) = mermaidId <$> ns
        ∧ StronglySorted lt ns
        ∧ Forall (λ n, 0 < n ≤ mermaidIdCounter w) ns.

(** The render calls for the text [src]. *)
Definition callsFor (src : string) (h : list Event) : list (string * string) :=
  filter (λ call, call.2 = src) (renderCalls h).

(** The reading of the specification for two blocks with the same text in
    one pass: [c1] and [c2] are two blocks of the container that pass the
    checks with the text [src]; the pass runs alone, to its end; then
    exactly one render call was issued for [src]. *)
Definition one_call_for_identical_text : Prop :=
  ∀ content c1 c2 pre1 pre2 src outcomes w,
    c1 ≠ c2 →
    c1 ∈ querySelectorAll 0 (Elem containerHead content) →
    c2 ∈ querySelectorAll 0 (Elem containerHead content) →
    checks c1 (Elem containerHead content) = Some (pre1, src) →
    checks c2 (Elem containerHead content) = Some (pre2, src) →
    run (Invoke :: (Settle 0 <$> outcomes)) (initial content) = Some w →
    passes w = [None] →
    length (callsFor src (history w)) = 1.

(** A pass that runs alone: it is the only invocation, every identifier it
    generated went to a render call, and the Rendering Set holds the text it
    is rendering and nothing else. *)
Record alone (w : World) : Prop := mkAlone {
  alone_passes : length (passes w) = 1;
  alone_calls : length (renderCalls (history w)) = mermaidIdCounter w;
  alone_rendering :
    renderingRef w = match passes w !! 0 with
                     | Some (Some f) => {[mermaidSource f]}
                     | _ => ∅
                     end
}.

(** ** The events of one invocation *)

Definition ofPass (p : nat) (e : Event) : Prop :=
  match e with
  | RenderCalled q _ _ _ | RenderSettled q _ _ _ => q = p
  end.

#[global] Instance ofPass_dec p e : Decision (ofPass p e).
Proof. destruct e; simpl; apply _. Defined.

(** The blocks for which the invocation [p] called the renderer, in the
    order of the calls. *)
Definition callBlocks (p : nat) (h : list Event) : list nat :=
  h ≫= λ e, match e with
             | RenderCalled q c _ _ => if bool_decide (q = p) then [c] else []
             | RenderSettled _ _ _ _ => []
             end.

(** One render at a time: each call is followed by its settlement before
    the next call. *)
Inductive sequential : list Event → Prop :=
| sequential_nil : sequential []
| sequential_call p c id src : sequential [RenderCalled p c id src]
| sequential_round p c id src o rest :
    sequential rest →
    sequential (RenderCalled p c id src :: RenderSettled p c id o :: rest).

(** The same, as an automaton that reads the events. *)
Inductive Phase : Type :=
| Idle
| Awaiting (pass block : nat) (id : string)
| Broken.

Definition advance (ph : Phase) (e : Event) : Phase :=
  match ph, e with
  | Idle, RenderCalled p c id _ => Awaiting p c id
  | Awaiting p c id, RenderSettled p' c' id' _ =>
      if bool_decide (p = p' ∧ c = c' ∧ id = id') then Idle else Broken
  | _, _ => Broken
  end.

Definition phase (p : nat) (h : list Event) : Phase :=
  foldl advance Idle (filter (ofPass p) h).

(** The events of an invocation lead the automaton to the state of the
    invocation, and an invocation to come has no event yet. *)
Record orderly (w : World) : Prop := mkOrderly {
  orderly_phase : ∀ p,
    phase p (history w)
    = match passes w !! p with
      | Some (Some f) => Awaiting p (codeBlock f) (diagramId f)
      | _ => Idle
      end;
  orderly_future : ∀ p,
    length (passes w) ≤ p → filter (ofPass p) (history w) = []
}.

(** The blocks rendered by the invocation [p], followed by those it has
    still to examine, are among the blocks [L] in their order. *)
Definition inOrder (p : nat) (L : list nat) (w : World) : Prop :=
  callBlocks p (history w)
  ++ match passes w !! p with
     | Some (Some f) => remaining f
     | _ => []
     end
  `sublist_of` L.

(** The reading of the specification for the renders of one pass: when an
    invocation calls the renderer for a block and later for a block with
    another text, the second call precedes the settlement of the first. *)
Definition later_render_starts_before_earlier_settles : Prop :=
  ∀ content tr w p i j k c1 c2 id1 id2 s1 s2 o,
    run tr (initial content) = Some w →
    history w !! i = Some (RenderCalled p c1 id1 s1) →
    history w !! j = Some (RenderCalled p c2 id2 s2) →
    i < j →
    s1 ≠ s2 →
    history w !! k = Some (RenderSettled p c1 id1 o) →
    j < k.

(** The element that [afterRender] inserts after the [pre], when [r] is its
    (fresh) reference: the Diagram Output or the Error Output. *)
Definition outputOf (o : Outcome) (r : nat) : Node :=
  match o with
  | Resolved svg => Elem (mkHead r "DIV" ["mermaid-container"] ∅) [Markup svg]
  | Rejected error =>
      Elem (mkHead r "DIV" ["mermaid-error"] ∅) [Text (errorText error)]
  end.

(** What [afterRender] does to the [pre] or to the block once the output is
    inserted, and what the loop does to the next block it renders, if any. *)
Definition finish (o : Outcome) (f : Frame) (d : Node) : Node :=
  match o with
  | Resolved _ => classList_add (preElement f) "mermaid-hidden" d
  | Rejected _ => removeAttribute (codeBlock f) PROCESSED d
  end.

Definition mark (next : option Frame) (d : Node) : Node :=
  match next with
  | Some g => setAttribute (codeBlock g) PROCESSED "true" d
  | None => d
  end.


Definition isFailureOf (c : nat) (e : Event) : bool :=
  match e with
  | RenderSettled _ c' _ (Rejected _) => bool_decide (c' = c)
  | _ => false
  end.


Definition failuresOf (c : nat) (h : list Event) : nat :=
  length (filter (isFailureOf c) h).

(** ** The shape of the page *)

(** The root is the container [div]; the references in use are below the
    next fresh one; the [pre] and the block of a suspended invocation are
    in the document, below the root, and the blocks it has still to examine
    are not new elements. *)
Record sound (w : World) : Prop := mkSound {
  sound_root : ∃ h, headOf (document w) = Some h ∧ tagName h = "DIV";
  sound_fresh : Forall (λ r, r < nextRef w) (refs (document w));
  sound_frames : ∀ pass f,
    pending w pass f →
    preElement f ∈ descendants (document w)
    ∧ codeBlock f ∈ descendants (document w)
    ∧ Forall (λ r, r < nextRef w) (codeBlock f :: remaining f)
}.

(** ** Scanning again *)



(** ** The configuration of the renderer *)

(** The values of the keys of a [MermaidConfig]; [VUndefined] is a key that
    is present with the value [undefined]. *)
Inductive Value : Type :=
| VBool (b : bool)
| VString (s : string)
| VNumber (z : Z)
| VUndefined.

(** [defaultMermaidConfig] *)
Definition defaultMermaidConfig : gmap string Value :=
  {[ "startOnLoad" := VBool false;
     "theme" := VString "default";
     "securityLevel" := VString "loose";
     "fontFamily" := VString "inherit" ]}.

(** [{ ...defaultMermaidConfig, ...config }]: the keys of [config] win;
    spreading [undefined] adds nothing. *)
Definition spreadOverDefaults (config : option (gmap string Value))
  : gmap string Value :=
  default ∅ config ∪ defaultMermaidConfig.

(** The module-level flag [mermaidInitialized], and the configuration the
    renderer holds: the argument of the last call of [mermaid.initialize],
    [None] before the first call.  There is one such state for the page,
    whatever the number of instances of the component. *)
Record Renderer : Type := mkRenderer {
  mermaidInitialized : bool;
  configuration : option (gmap string Value)
}.

Definition mermaid_initialize (config : gmap string Value) (m : Renderer)
  : Renderer :=
  mkRenderer (mermaidInitialized m) (Some config).

(** [initializeMermaid(config)] *)
Definition initializeMermaid (config : option (gmap string Value))
  (m : Renderer) : Renderer :=
  let m := mermaid_initialize (spreadOverDefaults config) m in
  mkRenderer true (configuration m).

(** The effect of the component that depends on [mermaidConfig], run by the
    instance [instance] whose prop is [mermaidConfig]: an activation. *)
Definition activate (instance : nat) (mermaidConfig : option (gmap string Value))
  (m : Renderer) : Renderer :=
  if negb (mermaidInitialized m) then initializeMermaid mermaidConfig m
  else
    match mermaidConfig with
    | Some config => mermaid_initialize (spreadOverDefaults (Some config)) m
    | None => m
    end.

(** The reading of the specification for the first activation: the renderer
    is configured with the defaults. *)
Definition first_activation_uses_the_defaults : Prop :=
  ∀ instance mermaidConfig m,
    mermaidInitialized m = false →
    configuration (activate instance mermaidConfig m)
    = Some defaultMermaidConfig.

(** ** Notions used by the further properties of the loop *)

(** The blocks for which the renderer was called, by any invocation, in the
    order of the calls. *)
Definition calledBlocks (h : list Event) : list nat :=
  h ≫= λ e, match e with
             | RenderCalled _ c _ _ => [c]
             | RenderSettled _ _ _ _ => []
             end.

(** The number of renders that have settled, and the number of invocations
    suspended at their [await]. *)
Definition isSettled (e : Event) : bool :=
  match e with
  | RenderSettled _ _ _ _ => true
  | RenderCalled _ _ _ _ => false
  end.

Definition settled (h : list Event) : nat := length (filter isSettled h).



Definition suspended (w : World) : nat :=
  length (filter (λ fr : option Frame, is_Some fr) (passes w)).

(** The label is not the rejection of a render. *)
Definition resolves (l : Label) : Prop :=
  match l with
  | Settle _ (Rejected _) => False
  | _ => True
  end.

#[global] Instance resolves_dec l : Decision (resolves l).
Proof. destruct l as [|? []]; simpl; apply _. Defined.

(** What a suspended invocation holds on to: its block and the blocks it
    has still to examine are elements [code.language-mermaid] of the
    container (whose reference is 0), as are the blocks the renderer was
    called for; its block carries the processed mark; the parent of the
    block is the [pre] of the frame; and no other suspended invocation
    renders the same block. *)
Record held (w : World) : Prop := mkHeld {
  held_positive : 0 < nextRef w;
  held_container : ∀ container, containerRef w = Some container → container = 0;
  held_block : ∀ p f,
    pending w p f →
    Forall (λ c, c ∈ querySelectorAll 0 (document w))
      (codeBlock f :: remaining f);
  held_called :
    Forall (λ c, c ∈ querySelectorAll 0 (document w))
      (calledBlocks (history w));
  held_mark : ∀ p f,
    pending w p f →
    hasAttribute (codeBlock f) PROCESSED (document w) = true;
  held_pre : ∀ p f,
    pending w p f →
    ∃ pre, parentElement (codeBlock f) (document w) = Some pre
           ∧ ref pre = preElement f ∧ tagName pre = "PRE";
  held_unique : ∀ i j f g,
    pending w i f → pending w j g → codeBlock f = codeBlock g → i = j
}.




(** The block passes the three checks in the document [d]. *)
Definition eligible (d : Node) (c : nat) : Prop := is_Some (checks c d).

#[global] Instance eligible_dec d c : Decision (eligible d c).
Proof. unfold eligible. apply _. Defined.



(** ** The effect that schedules the scans

    The second effect of the component calls [processMermaidBlocks] from
    timers: once, 500 ms after it ran, and 100 ms after each batch of
    mutation records with added nodes that its [MutationObserver] receives.
    The timers and the observer are the browser's: a timer that has been
    set fires at some later time unless it is cleared, and the records of
    the mutations an observer is interested in are queued and handed to its
    callback in a later microtask.  When these happen is the environment's
    choice, as is the moment a render settles: they are the actions of the
    model. *)

(** A [MutationRecord], as far as the callback reads it; the nodes are
    given by their references. *)
Record MutationRecord : Type := mkRecord {
  type : string;
  target : nat;
  addedNodes : list nat
}.

(** The options of [observe]; an option that is not given is [false].
    [attributeChanges] is the option [attributes]. *)
Record MutationObserverInit : Type := mkInit {
  childList : bool;
  subtree : bool;
  attributeChanges : bool
}.

(** A [MutationObserver] that observes the node [observed] with [options];
    [queue] holds the records that were not delivered yet. *)
Record MutationObserver : Type := mkObserver {
  observed : nat;
  options : MutationObserverInit;
  queue : list MutationRecord
}.

(** The two functions the component passes to [setTimeout]:
    [() => { processMermaidBlocks() }] and [processMermaidBlocks]. *)
Inductive Callback : Type :=
| InitialProcessing
| DebouncedProcessing.

Record Timer : Type := mkTimer {
  handle : nat;
  delay : nat;
  callback : Callback
}.

(** - [world]: the page and the invocations of [processMermaidBlocks];
    - [timers], [nextHandle]: the timers that are set and neither fired nor
      cleared, and the handle [setTimeout] returns next;
    - [observerRef]: [observerRef.current], [None] for [null];
    - [cleanup]: the cleanup function the effect returned, if it is to be
      run yet, given by the [initialTimeout] it captured. *)
Record Page : Type := mkPage {
  world : World;
  timers : list Timer;
  nextHandle : nat;
  observerRef : option MutationObserver;
  cleanup : option nat
}.

Definition setWorld (w : World) (s : Page) : Page :=
  mkPage w (timers s) (nextHandle s) (observerRef s) (cleanup s).

Definition setObserver (ob : option MutationObserver) (s : Page) : Page :=
  mkPage (world s) (timers s) (nextHandle s) ob (cleanup s).

Definition setCleanup (c : option nat) (s : Page) : Page :=
  mkPage (world s) (timers s) (nextHandle s) (observerRef s) c.

(** [setTimeout(callback, delay)] and [clearTimeout(handle)] *)
Definition setTimeout (cb : Callback) (ms : nat) (s : Page) : nat * Page :=
  (nextHandle s,
   mkPage (world s) (timers s ++ [mkTimer (nextHandle s) ms cb])
     (S (nextHandle s)) (observerRef s) (cleanup s)).

Definition clearTimeout (h : nat) (s : Page) : Page :=
  mkPage (world s) (filter (λ t, handle t ≠ h) (timers s))
    (nextHandle s) (observerRef s) (cleanup s).

(** The observer is interested in a mutation when the target is the node
    it observes, or one of its descendants if [subtree] is set, and the
    option for the type of the mutation is set. *)
Definition interested (ob : MutationObserver) (d : Node) (m : MutationRecord)
  : bool :=
  (bool_decide (target m = observed ob)
   || (subtree (options ob)
       && bool_decide (target m ∈ match find (observed ob) d with
                                   | Some e => descendants e
                                   | None => []
                                   end)))
  && (if bool_decide (type m = "childList") then childList (options ob)
      else if bool_decide (type m = "attributes")
           then attributeChanges (options ob)
           else false).

(** The browser queues the records of the mutations [ms] for the observer
    of the component, if it is connected. *)
Definition enqueue (ms : list MutationRecord) (s : Page) : Page :=
  match observerRef s with
  | Some ob =>
      setObserver
        (Some (mkObserver (observed ob) (options ob)
                 (queue ob
                  ++ filter (λ m, interested ob (document (world s)) m) ms)))
        s
  | None => s
  end.

(** The mutations of the DOM in a step of [processMermaidBlocks] that goes
    from [w] to [w']: when a render settles, the insertion of the output if
    the [pre] has a parent, then [classList.add] on the [pre] or
    [removeAttribute] on the block (a mutation if the attribute was there);
    and [setAttribute] on the block the invocation renders next. *)
Definition marking (pass : nat) (w' : World) : list MutationRecord :=
  match passes w' !! pass with
  | Some (Some g) => [mkRecord "attributes" (codeBlock g) []]
  | _ => []
  end.

Definition mutationsOf (l : Label) (w w' : World) : list MutationRecord :=
  match l with
  | Invoke => marking (length (passes w)) w'
  | Settle pass o =>
      match passes w !! pass with
      | Some (Some f) =>
          match parentElement (preElement f) (document w) with
          | Some parent => [mkRecord "childList" (ref parent) [nextRef w]]
          | None => []
          end
          ++ match o with
             | Resolved _ => [mkRecord "attributes" (preElement f) []]
             | Rejected _ =>
                 if hasAttribute (codeBlock f) PROCESSED (document w)
                 then [mkRecord "attributes" (codeBlock f) []]
                 else []
             end
          ++ marking pass w'
      | _ => []
      end
  end.

(** The callback of the observer:
    [mutations.some(m => m.type === 'childList' && m.addedNodes.length > 0)],
    then [setTimeout(processMermaidBlocks, 100)] if it holds. *)
Definition hasNewNodes (mutations : list MutationRecord) : bool :=
  existsb (λ mutation,
             bool_decide (type mutation = "childList")
             && bool_decide (0 < length (addedNodes mutation)))
    mutations.

Definition observerCallback (mutations : list MutationRecord) (s : Page)
  : Page :=
  if hasNewNodes mutations
  then (setTimeout DebouncedProcessing 100 s).2
  else s.

(** The body of the effect: nothing without a container; else the initial
    timer, a new observer on the container with [childList] and [subtree],
    and the cleanup function. *)
Definition observerEffect (s : Page) : Page :=
  match containerRef (world s) with
  | None => s
  | Some container =>
      let (initialTimeout, s) := setTimeout InitialProcessing 500 s in
      let s :=
        setObserver
          (Some (mkObserver container (mkInit true true false) [])) s in
      setCleanup (Some initialTimeout) s
  end.

(** The cleanup function: [disconnect] drops the queue of the observer. *)
Definition observerCleanup (initialTimeout : nat) (s : Page) : Page :=
  let s := clearTimeout initialTimeout s in
  let s :=
    match observerRef s with
    | Some _ => setObserver None s
    | None => s
    end in
  setCleanup None s.

(** React resets [containerRef.current] when it unmounts the component. *)
Definition detach (w : World) : World :=
  mkWorld (document w) (nextRef w) None (renderingRef w)
    (mermaidIdCounter w) (passes w) (history w).

(** - [Effect], [Cleanup]: React runs the effect (there is no cleanup to
      run first), or the cleanup function of its last run;
    - [Detach]: React resets [containerRef.current] to [null], as it does
      when it unmounts the component;
    - [Timeout h]: the timer [h] fires, its callback calls
      [processMermaidBlocks];
    - [Settled pass o]: the render awaited by the invocation [pass]
      settles;
    - [Notify]: the records in the queue of the observer are handed to its
      callback. *)
Inductive Action : Type :=
| Effect
| Cleanup
| Detach
| Timeout (h : nat)
| Settled (pass : nat) (o : Outcome)
| Notify.

Definition act (a : Action) (s : Page) : option Page :=
  match a with
  | Effect =>
      match cleanup s with
      | Some _ => None
      | None => Some (observerEffect s)
      end
  | Cleanup =>
      match cleanup s with
      | Some initialTimeout => Some (observerCleanup initialTimeout s)
      | None => None
      end
  | Detach => Some (setWorld (detach (world s)) s)
  | Timeout h =>
      if bool_decide (h ∈ handle <$> timers s)
      then
        let s := clearTimeout h s in
        let w' := processMermaidBlocks (world s) in
        Some (enqueue (mutationsOf Invoke (world s) w') (setWorld w' s))
      else None
  | Settled pass o =>
      match step (Settle pass o) (world s) with
      | Some w' =>
          Some (enqueue (mutationsOf (Settle pass o) (world s) w')
                  (setWorld w' s))
      | None => None
      end
  | Notify =>
      match observerRef s with
      | Some ob =>
          match queue ob with
          | [] => None
          | mutations =>
              Some (observerCallback mutations
                      (setObserver
                         (Some (mkObserver (observed ob) (options ob) [])) s))
          end
      | None => None
      end
  end.

Fixpoint acts (tr : list Action) (s : Page) : option Page :=
  match tr with
  | [] => Some s
  | a :: tr' => act a s ≫= acts tr'
  end.

(** The component once React has rendered it, with [content] in the
    container: no effect has run yet. *)
Definition page (content : list Node) : Page :=
  mkPage (initial content) [] 1 None None.

(** The step of [processMermaidBlocks] an action performs, if any. *)
Definition labelOf (a : Action) : option Label :=
  match a with
  | Timeout _ => Some Invoke
  | Settled pass o => Some (Settle pass o)
  | _ => None
  end.

(** No render is rejected. *)
Definition succeeds (a : Action) : Prop :=
  match a with
  | Settled _ (Rejected _) => False
  | _ => True
  end.

#[global] Instance succeeds_dec a : Decision (succeeds a).
Proof. destruct a as [| | | | ? []|]; simpl; apply _. Defined.

#[global] Instance Thrown_eq_dec : EqDecision Thrown.
Proof. solve_decision. Defined.

#[global] Instance Outcome_eq_dec : EqDecision Outcome.
Proof. solve_decision. Defined.

#[global] Instance Action_eq_dec : EqDecision Action.
Proof. solve_decision. Defined.

(** The number of runs of the effect among the actions. *)
Definition effects (tr : list Action) : nat :=
  length (filter (λ a, a = Effect) tr).

(** ** Notions used by the properties of the effect *)

(** The root of the document has the reference of the container. *)
Definition rooted (w : World) : Prop :=
  ∃ h, headOf (document w) = Some h ∧ ref h = 0.

(** The observer, when there is one, is as the effect made it. *)
Definition connected (s : Page) : Prop :=
  ∀ ob, observerRef s = Some ob →
        observed ob = 0 ∧ options ob = mkInit true true false.

(** What holds of the page all along the life of the component. *)
Definition healthy (s : Page) : Prop :=
  sound (world s) ∧ held (world s) ∧ rooted (world s) ∧ connected s.

(** A batch of records waits for the callback of the observer. *)
Definition batch (s : Page) : nat :=
  match observerRef s with
  | Some ob => match queue ob with [] => 0 | _ => 1 end
  | None => 0
  end.

(** The scans so far, and those to come for sure: the invocations of
    [processMermaidBlocks], the timers that are set, and the batch of
    records with the output of a render, if one waits. *)
Definition scans (s : Page) : nat :=
  length (passes (world s)) + length (timers s) + batch s.

(** The rounds of a block the renderer rejects, from the [i]-th scan on:
    the timer fires, the render is rejected with the error of the round,
    and the observer is notified of the error output. *)
Fixpoint retries (i : nat) (errors : list Thrown) : list Action :=
  match errors with
  | [] => []
  | error :: errors' =>
      [Timeout (S i); Settled i (Rejected error); Notify]
      ++ retries (S i) errors'
  end.

(** An error output with a reference beyond those of the block. *)
Definition isErrorOutput (n : Node) : Prop :=
  ∃ error r, 3 ≤ r ∧ n = outputOf (Rejected error) r.

(** The page with one block of text [src] after [i] rounds. *)
Record retrying (src : string) (i : nat) (s : Page) : Prop := mkRetrying {
  retrying_document : ∃ outs,
    document (world s) = Elem containerHead (mermaidBlock 1 2 src :: outs)
    ∧ Forall isErrorOutput outs ∧ length outs = i;
  retrying_nextRef : 3 ≤ nextRef (world s);
  retrying_container : containerRef (world s) = Some 0;
  retrying_rendering : renderingRef (world s) = ∅;
  retrying_passes : passes (world s) = replicate i None;
  retrying_calls : length (renderCalls (history (world s))) = i;
  retrying_timers : ∃ ms cb, timers s = [mkTimer (S i) ms cb];
  retrying_handle : nextHandle s = S (S i);
  retrying_observer :
    observerRef s = Some (mkObserver 0 (mkInit true true false) [])
}.

(** ** Sample states of the component *)

(** The page [pair] when the initial timer has fired: the first scan is
    suspended at the render of the first block. *)
Definition firstScan : Page :=
  default (page pair) (acts [Effect; Timeout 1] (page pair)).



(** The page [pair] when the first diagram is rendered, the scan its
    insertion caused is scheduled, and the render of the second block is in
    flight; and the same once the component is unmounted and what was
    pending has happened. *)
Definition midway : Page :=
  default (page pair)
    (acts [Effect; Timeout 1; Settled 0 (Resolved "<svg>1</svg>"); Notify]
       (page pair)).

Definition unmounted : Page :=
  default midway
    (acts [Detach; Cleanup; Timeout 2; Settled 0 (Resolved "<svg>2</svg>")]
       midway).

(** What holds once the component is unmounted, [s] being the state when
    it was: the reference to the container and the observer are gone, no
    timer is set, the invocations called since have returned at once, and
    they have called no render. *)
Record quiet (s s' : Page) : Prop := mkQuiet {
  quiet_container : containerRef (world s') = None;
  quiet_observer : observerRef s' = None;
  quiet_timers : timers s' `sublist_of` timers s;
  quiet_length : length (passes (world s)) ≤ length (passes (world s'));
  quiet_passes : ∀ p,
    length (passes (world s)) ≤ p → p < length (passes (world s')) →
    passes (world s') !! p = Some None;
  quiet_history : ∀ p,
    length (passes (world s)) ≤ p →
    filter (ofPass p) (history (world s'))
    = filter (ofPass p) (history (world s))
}.

#[global] Instance Callback_eq_dec : EqDecision Callback.
Proof. solve_decision. Defined.

(** The timers that are set for the initial scan. *)
Definition initialTimers (s : Page) : list Timer :=
  filter (λ x, callback x = InitialProcessing) (timers s).

(** The timers are told apart by their handles, the initial timer that is
    set is the one the cleanup function will clear, and there is an
    observer exactly when there is a cleanup function to run. *)
Record tidy (s : Page) : Prop := mkTidy {
  tidy_handles : Forall (λ x, handle x < nextHandle s) (timers s);
  tidy_NoDup : NoDup (handle <$> timers s);
  tidy_initial :
    Forall (λ x, cleanup s = Some (handle x)) (initialTimers s);
  tidy_observer : is_Some (observerRef s) ↔ is_Some (cleanup s)
}.

(** The effect is run, cleaned up and run again, as React does in strict
    mode, before the initial timer fires. *)
Definition remounted : Page :=
  default (page pair) (acts [Effect; Cleanup; Effect] (page pair)).

(** ** The uses of the renderer's configuration *)

(** What configures the renderer: a call of [initializeMermaid] by the
    page that embeds the component, or the activation of an instance. *)
Inductive Use : Type :=
| Initialize (config : option (gmap string Value))
| Activation (instance : nat) (mermaidConfig : option (gmap string Value)).

Definition use (m : Renderer) (u : Use) : Renderer :=
  match u with
  | Initialize config => initializeMermaid config m
  | Activation instance mermaidConfig => activate instance mermaidConfig m
  end.

(** The configuration of the caller that a use spreads over the defaults,
    when it calls [mermaid.initialize]: an activation without configuration
    does so only if the renderer is not initialized yet. *)
Definition supplies (initialized : bool) (u : Use)
  : option (gmap string Value) :=
  match u with
  | Initialize config => Some (default ∅ config)
  | Activation _ (Some config) => Some config
  | Activation _ None => if initialized then None else Some ∅
  end.

(** ** The component from mount to rest *)




(** * Properties of the DOM operations *)

Section dom_lemmas.
Implicit Types (n new : Node) (h : Head) (kids : list Node) (r p : nat).

Lemma refs_unfold n :
  refs n = match n with Elem h _ => [ref h] | _ => [] end ++ descendants n.
Proof. by destruct n. Qed.

Lemma isElem_true r n : isElem r n = true → r ∈ refs n.
Proof.
  destruct n as [| |h kids]; simpl; try done.
  intros ->%bool_decide_eq_true. apply list_elem_of_here.
Qed.

Lemma isElem_false r n :
  isElem r n = false → r ∈ refs n → r ∈ descendants n.
Proof.
  destruct n as [| |h kids]; simpl; try done.
  intros Hne%bool_decide_eq_false [?|?]%elem_of_cons; congruence.
Qed.

(** An element has a parent exactly when it lies below the root. *)
Lemma parentElement_is_Some r n :
  is_Some (parentElement r n) ↔ r ∈ descendants n.
Proof.
  induction n as [s|s|h kids IH] using Node_forall_ind; simpl.
  1,2: split; [by intros [? ?] | by intros ?%elem_of_nil].
  induction IH as [|k kids Hk _ IHkids]; simpl.
  { split; [by intros [? ?] | by intros ?%elem_of_nil]. }
  rewrite elem_of_app. destruct (isElem r k) eqn:Hr.
  { split; [left; by apply isElem_true | eauto]. }
  destruct (parentElement r k) as [q|] eqn:Hq.
  { split; [left|eauto]. rewrite refs_unfold, elem_of_app. right.
    apply Hk. eauto. }
  rewrite IHkids. split; [tauto|]. intros [Hin|?]; [|done].
  apply isElem_false, Hk in Hin; [|done]. by destruct Hin.
Qed.

Lemma siblingAfter_is_Some r n :
  is_Some (siblingAfter r n) ↔ r ∈ descendants n.
Proof.
  induction n as [s|s|h kids IH] using Node_forall_ind; simpl.
  1,2: split; [by intros [? ?] | by intros ?%elem_of_nil].
  induction IH as [|k kids Hk _ IHkids]; simpl.
  { split; [by intros [? ?] | by intros ?%elem_of_nil]. }
  rewrite elem_of_app. destruct (isElem r k) eqn:Hr.
  { split; [left; by apply isElem_true | eauto]. }
  destruct (siblingAfter r k) as [q|] eqn:Hq.
  { split; [left|eauto]. rewrite refs_unfold, elem_of_app. right.
    apply Hk. eauto. }
  rewrite IHkids. split; [tauto|]. intros [Hin|?]; [|done].
  apply isElem_false, Hk in Hin; [|done]. by destruct Hin.
Qed.

Lemma find_is_Some r n : is_Some (find r n) ↔ r ∈ refs n.
Proof.
  induction n as [s|s|h kids IH] using Node_forall_ind; simpl.
  1,2: split; [by intros [? ?] | by intros ?%elem_of_nil].
  rewrite elem_of_cons. case_bool_decide as Hr.
  { split; eauto. }
  trans (r ∈ kids ≫= refs); [|split; [eauto|by intros [?|?]]].
  clear Hr. induction IH as [|k kids Hk _ IHkids]; csimpl.
  { split; [by intros [? ?] | by intros ?%elem_of_nil]. }
  rewrite elem_of_app, <-Hk, <-IHkids.
  destruct (find r k); split; eauto.
  by intros [[? ?]|?].
Qed.

Lemma find_None r n : r ∉ refs n → find r n = None.
Proof. rewrite <-find_is_Some, eq_None_not_Some. tauto. Qed.

Lemma find_ref r n e : find r n = Some e → ∃ h kids, e = Elem h kids ∧ ref h = r.
Proof.
  induction n as [s|s|h kids IH] using Node_forall_ind; simpl; try done.
  case_bool_decide as Hr; [naive_solver|]. clear Hr.
  induction IH as [|k kids Hk _ IHkids]; simpl; [done|].
  destruct (find r k); naive_solver.
Qed.

Lemma getHead_ref r n h : getHead r n = Some h → ref h = r.
Proof.
  unfold getHead. destruct (find r n) as [e|] eqn:He; [|done].
  apply find_ref in He as (h' & kids & -> & <-). by intros [= ->].
Qed.

Lemma getHead_is_Some r n : is_Some (getHead r n) ↔ r ∈ refs n.
Proof.
  rewrite <-find_is_Some. unfold getHead.
  destruct (find r n) as [e|] eqn:He; simpl.
  - apply find_ref in He as (h' & kids & -> & <-). simpl. split; eauto.
  - split; by intros [? ?].
Qed.


Lemma find_refs r n e x : find r n = Some e → x ∈ refs e → x ∈ refs n.
Proof.
  induction n as [s|s|h kids IH] using Node_forall_ind; simpl; try done.
  case_bool_decide as Hr; [by intros [= <-]|]. clear Hr.
  intros Hfind Hx. apply list_elem_of_further. revert Hfind.
  induction IH as [|k kids Hk _ IHkids]; csimpl; [done|].
  rewrite elem_of_app. destruct (find r k); [intros [= ->]|]; auto.
Qed.

Lemma select_refs n x : x ∈ select n → x ∈ refs n.
Proof.
  induction n as [s|s|h kids IH] using Node_forall_ind; simpl; try done.
  rewrite elem_of_app, elem_of_cons. intros [Hx|Hx].
  { left. destruct (isMermaidCode h); [|by apply elem_of_nil in Hx].
    by apply list_elem_of_singleton in Hx. }
  right. revert Hx.
  induction IH as [|k kids Hk _ IHkids]; csimpl; [done|].
  rewrite !elem_of_app. intros [?|?]; auto.
Qed.

Lemma querySelectorAll_refs container n x :
  x ∈ querySelectorAll container n → x ∈ refs n.
Proof.
  unfold querySelectorAll.
  destruct (find container n) as [[| |h kids]|] eqn:Hfind;
    try by intros ?%elem_of_nil.
  intros Hx. eapply find_refs; [done|]. simpl. apply list_elem_of_further.
  clear Hfind. revert Hx. induction kids as [|k kids IH]; csimpl.
  { by intros ?%elem_of_nil. }
  rewrite !elem_of_app. intros [?%select_refs|?]; auto.
Qed.

(** The parent of an element is the root or lies below it. *)
Lemma parentElement_in r n h :
  parentElement r n = Some h → headOf n = Some h ∨ ref h ∈ descendants n.
Proof.
  induction n as [s|s|h0 kids IH] using Node_forall_ind; simpl; try done.
  intros Hscan.
  cut (h0 = h ∨ ref h ∈ kids ≫= refs); [intros [->|?]; auto|].
  revert Hscan.
  induction IH as [|k kids Hk _ IHkids]; csimpl; [done|].
  rewrite elem_of_app. destruct (isElem r k).
  { intros [= ->]. by left. }
  destruct (parentElement r k) as [q|] eqn:Hq.
  - intros [= ->]. right; left. rewrite refs_unfold, elem_of_app.
    destruct (Hk eq_refl) as [Hroot|?]; [left|by right].
    destruct k; simplify_eq/=. apply list_elem_of_here.
  - intros [?|?]%IHkids; auto.
Qed.

Lemma parentElement_None r n : r ∉ descendants n → parentElement r n = None.
Proof. rewrite <-parentElement_is_Some, eq_None_not_Some. tauto. Qed.

Lemma insertAfter_is_Some r new n :
  is_Some (insertAfter r new n) ↔ r ∈ descendants n.
Proof.
  induction n as [s|s|h kids IH] using Node_forall_ind; simpl.
  1,2: split; [by intros [? ?] | by intros ?%elem_of_nil].
  rewrite fmap_is_Some.
  induction IH as [|k kids Hk _ IHkids]; simpl.
  { split; [by intros [? ?] | by intros ?%elem_of_nil]. }
  rewrite elem_of_app. unfold insertHere at 1.
  destruct (isElem r k) eqn:Hr; simpl.
  { split; [left; by apply isElem_true | eauto]. }
  destruct (insertAfter r new k) as [q|] eqn:Hq; simpl.
  { split; [left|eauto]. rewrite refs_unfold, elem_of_app. right.
    apply Hk. eauto. }
  rewrite fmap_is_Some, IHkids. split; [tauto|]. intros [Hin|?]; [|done].
  apply isElem_false, Hk in Hin; [|done]. by destruct Hin.
Qed.

(** *** Changing the fields of an element *)

Section update.
Variables (r' : nat) (f : Head → Head).
Hypothesis f_ref : ∀ h, ref (f h) = ref h.

Lemma onElement_ref h : ref (onElement r' f h) = ref h.
Proof. unfold onElement. by case_bool_decide. Qed.

Lemma isElem_update r n : isElem r (update r' f n) = isElem r n.
Proof. destruct n; simpl; try done. by rewrite onElement_ref. Qed.

Lemma refs_update n : refs (update r' f n) = refs n.
Proof.
  induction n as [s|s|h kids IH] using Node_forall_ind; simpl; try done.
  rewrite onElement_ref. f_equal.
  induction IH as [|k kids Hk _ IHkids]; csimpl; [done|].
  by rewrite Hk, IHkids.
Qed.

Lemma descendants_update n : descendants (update r' f n) = descendants n.
Proof.
  destruct n as [| |h kids]; simpl; try done.
  induction kids as [|k kids IH]; csimpl; [done|].
  by rewrite refs_update, IH.
Qed.

Lemma headOf_update n : headOf (update r' f n) = onElement r' f <$> headOf n.
Proof. by destruct n. Qed.

Lemma find_update r n : find r (update r' f n) = update r' f <$> find r n.
Proof.
  induction n as [s|s|h kids IH] using Node_forall_ind; simpl; try done.
  rewrite onElement_ref. case_bool_decide; [done|].
  induction IH as [|k kids Hk _ IHkids]; csimpl; [done|].
  rewrite Hk. by destruct (find r k).
Qed.

Lemma getHead_update r n :
  getHead r (update r' f n) = onElement r' f <$> getHead r n.
Proof.
  unfold getHead. rewrite find_update.
  destruct (find r n) as [e|]; simpl; [|done]. apply headOf_update.
Qed.

Lemma parentElement_update r n :
  parentElement r (update r' f n) = onElement r' f <$> parentElement r n.
Proof.
  induction n as [s|s|h kids IH] using Node_forall_ind; simpl; try done.
  induction IH as [|k kids Hk _ IHkids]; csimpl; [done|].
  rewrite isElem_update. destruct (isElem r k); [done|].
  rewrite Hk. by destruct (parentElement r k).
Qed.

Lemma siblingAfter_update p n :
  siblingAfter p (update r' f n)
  = fmap (M:=option) (update r' f) <$> siblingAfter p n.
Proof.
  induction n as [s|s|h kids IH] using Node_forall_ind; simpl; try done.
  induction IH as [|k kids Hk _ IHkids]; csimpl; [done|].
  rewrite isElem_update. destruct (isElem p k).
  { by destruct kids. }
  rewrite Hk. by destruct (siblingAfter p k).
Qed.


Lemma select_update n :
  (∀ h, isMermaidCode (f h) = isMermaidCode h) →
  select (update r' f n) = select n.
Proof.
  intros Hsel.
  induction n as [s|s|h kids IH] using Node_forall_ind; simpl; try done.
  f_equal.
  { rewrite onElement_ref. unfold onElement.
    destruct (bool_decide (ref h = r')); by rewrite ?Hsel. }
  induction IH as [|k kids Hk _ IHkids]; csimpl; [done|].
  by rewrite Hk, IHkids.
Qed.


Lemma querySelectorAll_update r n :
  (∀ h, isMermaidCode (f h) = isMermaidCode h) →
  querySelectorAll r (update r' f n) = querySelectorAll r n.
Proof.
  intros Hsel. unfold querySelectorAll. rewrite find_update.
  destruct (find r n) as [[| |h kids]|]; simpl; try done.
  induction kids as [|k kids IH]; csimpl; [done|].
  by rewrite select_update, IH.
Qed.

Lemma countClass_update cls n :
  (∀ h, cls ∈ classList (f h) ↔ cls ∈ classList h) →
  countClass cls (update r' f n) = countClass cls n.
Proof.
  intros Hcls.
  induction n as [s|s|h kids IH] using Node_forall_ind; simpl; try done.
  f_equal.
  { unfold onElement. destruct (bool_decide (ref h = r')); [|done].
    by rewrite (bool_decide_ext _ _ (Hcls h)). }
  f_equal. induction IH as [|k kids Hk _ IHkids]; csimpl; [done|].
  by rewrite Hk, IHkids.
Qed.
End update.

(** *** Inserting a sibling *)

Section insertAfter.
Variables (p : nat) (new : Node).

Lemma insertAfter_Elem h kids n' :
  insertAfter p new (Elem h kids) = Some n' ↔
  ∃ kids', splice (insertHere p new (insertAfter p new)) kids = Some kids' ∧ n' = Elem h kids'.
Proof. simpl. rewrite fmap_Some. naive_solver. Qed.

Lemma insertAfter_head n n' :
  insertAfter p new n = Some n' → headOf n' = headOf n.
Proof.
  destruct n; try done. intros (?&?&->)%insertAfter_Elem. done.
Qed.

Lemma isElem_insertAfter r n n' :
  insertAfter p new n = Some n' → isElem r n' = isElem r n.
Proof.
  destruct n; try done. intros (?&?&->)%insertAfter_Elem. done.
Qed.

(** No element is removed, the new ones are those of [new]. *)
Lemma splice_refs kids kids' r :
  Forall (λ n, ∀ n', insertAfter p new n = Some n' →
            r ∈ refs n' ↔ r ∈ refs n ∨ r ∈ refs new) kids →
  splice (insertHere p new (insertAfter p new)) kids = Some kids' →
  r ∈ kids' ≫= refs ↔ r ∈ kids ≫= refs ∨ r ∈ refs new.
Proof.
  intros IH. revert kids'.
  induction IH as [|k kids Hk _ IHkids]; intros kids'; csimpl; [done|].
  unfold insertHere at 1. destruct (isElem p k).
  { intros [= <-]. csimpl. rewrite !elem_of_app. tauto. }
  destruct (insertAfter p new k) as [k'|]; csimpl.
  { intros [= <-]. csimpl. rewrite !elem_of_app, (Hk k') by done. tauto. }
  intros (kids''&Hs&->)%fmap_Some. csimpl.
  rewrite !elem_of_app, (IHkids kids'') by done. tauto.
Qed.

Lemma refs_insertAfter n n' r :
  insertAfter p new n = Some n' →
  r ∈ refs n' ↔ r ∈ refs n ∨ r ∈ refs new.
Proof.
  revert n'.
  induction n as [s|s|h kids IH] using Node_forall_ind; try done.
  intros n' (kids'&Hs&->)%insertAfter_Elem. simpl.
  rewrite !elem_of_cons, (splice_refs kids kids') by done. tauto.
Qed.

Lemma descendants_insertAfter n n' r :
  insertAfter p new n = Some n' →
  r ∈ descendants n' ↔ r ∈ descendants n ∨ r ∈ refs new.
Proof.
  destruct n as [| |h kids]; try done.
  intros (kids'&Hs&->)%insertAfter_Elem. simpl.
  apply splice_refs; [|done].
  apply Forall_forall. intros. by apply refs_insertAfter.
Qed.

Lemma insertAfter_None n : p ∉ descendants n → insertAfter p new n = None.
Proof. intros Hp. apply eq_None_not_Some. by rewrite insertAfter_is_Some. Qed.

Lemma insertAfter_None_inv n : insertAfter p new n = None → p ∉ descendants n.
Proof.
  rewrite <-(insertAfter_is_Some p new). intros -> [? ?]. done.
Qed.

(** The new node is the next sibling of [p]. *)
Lemma siblingAfter_insertAfter n n' :
  insertAfter p new n = Some n' → siblingAfter p n' = Some (Some new).
Proof.
  revert n'.
  induction n as [s|s|h kids IH] using Node_forall_ind; try done.
  intros n' (kids'&Hs&->)%insertAfter_Elem. simpl. revert kids' Hs.
  induction IH as [|k kids Hk _ IHkids]; intros kids'; csimpl; [done|].
  unfold insertHere at 1. destruct (isElem p k) eqn:Hp.
  { intros [= <-]. simpl. by rewrite Hp. }
  destruct (insertAfter p new k) as [k'|] eqn:Hk'; csimpl.
  { intros [= <-]. simpl.
    by rewrite (isElem_insertAfter _ _ _ Hk'), Hp, (Hk k'). }
  intros (kids''&Hs&->)%fmap_Some. simpl. rewrite Hp.
  apply insertAfter_None_inv in Hk'.
  destruct (siblingAfter p k) eqn:Hsib; [|eauto].
  destruct Hk'. apply siblingAfter_is_Some. eauto.
Qed.

Lemma countClass_insertAfter cls n n' :
  insertAfter p new n = Some n' →
  countClass cls n' = countClass cls n + countClass cls new.
Proof.
  revert n'.
  induction n as [s|s|h kids IH] using Node_forall_ind; try done.
  intros n' (kids'&Hs&->)%insertAfter_Elem. simpl.
  cut (sum_list (countClass cls <$> kids')
       = sum_list (countClass cls <$> kids) + countClass cls new); [lia|].
  revert kids' Hs.
  induction IH as [|k kids Hk _ IHkids]; intros kids'; csimpl; [done|].
  unfold insertHere at 1. destruct (isElem p k).
  { intros [= <-]. csimpl. lia. }
  destruct (insertAfter p new k) as [k'|]; csimpl.
  { intros [= <-]. csimpl. rewrite (Hk k') by done. lia. }
  intros (kids''&Hs&->)%fmap_Some. csimpl.
  rewrite (IHkids kids'') by done. lia.
Qed.

Lemma find_insertAfter r n n' :
  r ∉ refs new →
  insertAfter p new n = Some n' →
  option_Forall2 (grown p new) (find r n) (find r n').
Proof.
  intros Hr. revert n'.
  induction n as [s|s|h kids IH] using Node_forall_ind; try done.
  intros n' Hn'. pose proof Hn' as (kids'&Hs&->)%insertAfter_Elem.
  simpl. case_bool_decide; [constructor; by right|].
  clear Hn'. revert kids' Hs.
  induction IH as [|k kids Hk _ IHkids]; intros kids'; csimpl; [done|].
  unfold insertHere at 1. destruct (isElem p k).
  { intros [= <-]. simpl. destruct (find r k).
    { constructor. by left. }
    rewrite (find_None r new) by done.
    destruct (scan _ kids); constructor. by left. }
  destruct (insertAfter p new k) as [k'|]; csimpl.
  { intros [= <-]. simpl. destruct (Hk k' eq_refl); [by constructor|].
    destruct (scan _ kids); constructor. by left. }
  intros (kids''&Hs&->)%fmap_Some. simpl. destruct (find r k).
  { constructor. by left. }
  by apply IHkids.
Qed.

Lemma getHead_insertAfter r n n' :
  r ∉ refs new →
  insertAfter p new n = Some n' →
  getHead r n' = getHead r n.
Proof.
  intros Hr Hins. unfold getHead.
  destruct (find_insertAfter r n n' Hr Hins) as [e e' [->|He]|]; simpl;
    [done| |done].
  by apply insertAfter_head.
Qed.

Lemma parentElement_insertAfter r n n' :
  r ∉ refs new →
  insertAfter p new n = Some n' →
  parentElement r n' = parentElement r n.
Proof.
  intros Hr. revert n'.
  induction n as [s|s|h kids IH] using Node_forall_ind; try done.
  intros n' (kids'&Hs&->)%insertAfter_Elem. simpl. revert kids' Hs.
  induction IH as [|k kids Hk _ IHkids]; intros kids'; csimpl; [done|].
  unfold insertHere at 1. destruct (isElem p k).
  { intros [= <-]. simpl. destruct (isElem r k); [done|].
    destruct (parentElement r k); [done|].
    destruct (isElem r new) eqn:Hnew.
    { by apply isElem_true in Hnew. }
    rewrite (parentElement_None r new); [done|].
    intros Hin. apply Hr. rewrite refs_unfold, elem_of_app. by right. }
  destruct (insertAfter p new k) as [k'|] eqn:Hk'; csimpl.
  { intros [= <-]. simpl.
    by rewrite (isElem_insertAfter _ _ _ Hk'), (Hk k'). }
  intros (kids''&Hs&->)%fmap_Some. simpl.
  by rewrite (IHkids kids'').
Qed.




Lemma select_insertAfter n n' :
  select new = [] → insertAfter p new n = Some n' → select n' = select n.
Proof.
  intros Ht. revert n'.
  induction n as [s|s|h kids IH] using Node_forall_ind; try done.
  intros n' (kids'&Hs&->)%insertAfter_Elem. simpl. f_equal.
  revert kids' Hs.
  induction IH as [|k kids Hk _ IHkids]; intros kids'; csimpl; [done|].
  unfold insertHere at 1. destruct (isElem p k).
  { intros [= <-]. csimpl. by rewrite Ht. }
  destruct (insertAfter p new k) as [k'|]; csimpl.
  { intros [= <-]. csimpl. by rewrite (Hk k'). }
  intros (kids''&Hs&->)%fmap_Some. csimpl. by rewrite (IHkids kids'').
Qed.

Lemma querySelectorAll_insertAfter r n n' :
  r ∉ refs new →
  select new = [] →
  insertAfter p new n = Some n' →
  querySelectorAll r n' = querySelectorAll r n.
Proof.
  intros Hr Hsel Hins. unfold querySelectorAll.
  destruct (find_insertAfter r n n' Hr Hins) as [e e' [->|He]|]; [done| |done].
  pose proof (select_insertAfter _ _ Hsel He) as Hselect.
  destruct e as [| |h kids]; try done.
  apply insertAfter_Elem in He as (kids' & _ & ->). simpl in Hselect.
  by apply (inj (app _)) in Hselect.
Qed.
End insertAfter.
End dom_lemmas.

(** * The loop *)

Lemma advanceCounter_0 w : advanceCounter 0 w = w.
Proof. by destruct w. Qed.

Lemma advanceCounter_add n m w :
  advanceCounter n (advanceCounter m w) = advanceCounter (n + m) w.
Proof. unfold advanceCounter. simpl. f_equal. lia. Qed.

Lemma examine_spec pass c w :
  match checks c (document w) with
  | None => examine pass c w = (w, None)
  | Some (pre, src) =>
      if bool_decide (src ∈ renderingRef w)
      then examine pass c w = (advanceCounter 1 w, None)
      else examine pass c w
           = (start pass c src (mermaidId (S (mermaidIdCounter w)))
                (advanceCounter 1 w),
              Some (ref pre, src, mermaidId (S (mermaidIdCounter w))))
  end.
Proof.
  unfold examine. destruct (checks c (document w)) as [[pre src]|]; [|done].
  simpl. by destruct (bool_decide (src ∈ renderingRef w)).
Qed.

Lemma advanceCounter_shift n w :
  advanceCounter n (advanceCounter 1 w) = advanceCounter (S n) w.
Proof. rewrite advanceCounter_add. f_equal. lia. Qed.

Lemma consumed_cons d c l :
  consumed d (c :: l)
  = match checks c d with Some _ => 1 | None => 0 end + consumed d l.
Proof.
  unfold consumed. destruct (checks c d) eqn:Hc.
  - rewrite filter_cons_True by (rewrite Hc; eauto). done.
  - rewrite filter_cons_False; [done|]. rewrite Hc. by intros [? ?].
Qed.

Lemma skips_cons d R c l :
  skips d R c → Forall (skips d R) l → Forall (skips d R) (c :: l).
Proof. by constructor. Qed.

(** What a run of the loop does: it passes over a prefix of the blocks,
    which costs one identifier for each block that passed the checks, and
    either reaches the end or starts the render of the next block. *)
Lemma loop_spec pass bl w w' fr :
  loop pass bl w = (w', fr) →
  (fr = None
   ∧ Forall (skips (document w) (renderingRef w)) bl
   ∧ w' = advanceCounter (consumed (document w) bl) w)
  ∨ (∃ skipped c rest pre src,
       bl = skipped ++ c :: rest
       ∧ Forall (skips (document w) (renderingRef w)) skipped
       ∧ checks c (document w) = Some (pre, src)
       ∧ (src ∉ renderingRef w)
       ∧ w' = start pass c src
                (mermaidId (S (consumed (document w) skipped
                               + mermaidIdCounter w)))
                (advanceCounter (S (consumed (document w) skipped)) w)
       ∧ fr = Some (mkFrame rest c (ref pre) src
                      (mermaidId (S (consumed (document w) skipped
                                     + mermaidIdCounter w))))).
Proof.
  revert w. induction bl as [|c bl IH]; intros w; simpl.
  { intros [= <- <-]. left. by rewrite advanceCounter_0. }
  pose proof (examine_spec pass c w) as Hex.
  destruct (checks c (document w)) as [[pre src]|] eqn:Hc.
  - case_bool_decide as Hin; rewrite Hex.
    + assert (skips (document w) (renderingRef w) c) as Hskip.
      { unfold skips. by rewrite Hc. }
      intros [(-> & Hall & ->)|(skipped&c'&rest&pre'&src'&->&Hall&?&?&->&->)]%IH;
        simpl in *.
      * left. rewrite consumed_cons, Hc, advanceCounter_shift. auto.
      * right. exists (c :: skipped), c', rest, pre', src'.
        rewrite consumed_cons, Hc, advanceCounter_shift, Nat.add_succ_r.
        simpl. auto 10.
    + intros [= <- <-]. right. exists [], c, bl, pre, src. auto 10.
  - rewrite Hex.
    assert (skips (document w) (renderingRef w) c) as Hskip.
    { unfold skips. by rewrite Hc. }
    intros [(-> & Hall & ->)|(skipped&c'&rest&pre'&src'&->&Hall&?&?&->&->)]%IH.
    + left. rewrite consumed_cons, Hc. auto.
    + right. exists (c :: skipped), c', rest, pre', src'.
      rewrite consumed_cons, Hc. simpl. auto 10.
Qed.

(** * Runs *)

Lemma run_app tr1 tr2 w :
  run (tr1 ++ tr2) w = run tr1 w ≫= run tr2.
Proof.
  revert w. induction tr1 as [|l tr1 IH]; intros w; simpl; [done|].
  destruct (step l w); simpl; [apply IH|done].
Qed.

(** Induction over the reachable worlds. *)
Lemma run_invariant (P : World → Prop) :
  (∀ l w w', P w → step l w = Some w' → P w') →
  ∀ tr w w', P w → run tr w = Some w' → P w'.
Proof.
  intros Hstep tr. induction tr as [|l tr IH]; intros w w' Hw; simpl.
  { by intros [= <-]. }
  destruct (step l w) as [w1|] eqn:Hl; simpl; [|done].
  apply IH. by eapply Hstep.
Qed.

Lemma lookup_snoc_Some {A} (l : list A) (x y : A) i :
  (l ++ [x]) !! i = Some y ↔ l !! i = Some y ∨ (i = length l ∧ x = y).
Proof.
  rewrite lookup_app_Some, list_lookup_singleton_Some.
  split; [|naive_solver lia]. intros [?|(?&?&?)]; [by left|right].
  split; [lia|done].
Qed.

Lemma lookup_insert_Some' {A} (l : list A) (x y : A) i k :
  k < length l →
  <[k:=x]> l !! i = Some y ↔ (i ≠ k ∧ l !! i = Some y) ∨ (i = k ∧ x = y).
Proof.
  intros Hk. destruct (decide (i = k)) as [->|Hne].
  - rewrite list_lookup_insert_eq by done. naive_solver.
  - rewrite list_lookup_insert_ne by done. naive_solver.
Qed.

Lemma lookup_snoc_Some' {A} (l : list A) (x y : A) i :
  (l ++ [x]) !! i = Some y
  ↔ (i ≠ length l ∧ l !! i = Some y) ∨ (i = length l ∧ x = y).
Proof.
  rewrite lookup_snoc_Some. split; [|naive_solver].
  intros [Hi|?]; [left|by right]. split; [|done].
  apply lookup_lt_Some in Hi. lia.
Qed.

Lemma afterRender_passes pass f o w : passes (afterRender pass f o w) = passes w.
Proof. by destruct o. Qed.

Lemma afterRender_rendering pass f o w :
  renderingRef (afterRender pass f o w) = renderingRef w ∖ {[mermaidSource f]}.
Proof. by destruct o. Qed.

Lemma afterRender_counter pass f o w :
  mermaidIdCounter (afterRender pass f o w) = mermaidIdCounter w.
Proof. by destruct o. Qed.

Lemma afterRender_history pass f o w :
  history (afterRender pass f o w)
  = history w ++ [RenderSettled pass (codeBlock f) (diagramId f) o].
Proof. by destruct o. Qed.

Lemma afterRender_nextRef pass f o w :
  nextRef (afterRender pass f o w) = S (nextRef w).
Proof. by destruct o. Qed.

Lemma afterRender_containerRef pass f o w :
  containerRef (afterRender pass f o w) = containerRef w.
Proof. by destruct o. Qed.

#[global] Arguments afterRender : simpl never.

(** The effect of a step on the invocations and on the Rendering Set: the
    invocation [k] runs from the Rendering Set [R0]. *)
Lemma step_spec l w w' :
  step l w = Some w' →
  ∃ k fr R0,
    (∀ i g, pending w' i g ↔ (i ≠ k ∧ pending w i g) ∨ (i = k ∧ fr = Some g))
    ∧ match l with
      | Invoke => k = length (passes w) ∧ R0 = renderingRef w
      | Settle pass _ =>
          k = pass
          ∧ ∃ f, pending w k f ∧ R0 = renderingRef w ∖ {[mermaidSource f]}
      end
    ∧ match fr with
      | None => renderingRef w' = R0
      | Some g =>
          (mermaidSource g ∉ R0) ∧ renderingRef w' = {[mermaidSource g]} ∪ R0
      end.
Proof.
  destruct l as [|pass o]; simpl.
  - intros [= <-]. unfold processMermaidBlocks.
    destruct (containerRef w) as [container|].
    + destruct (loop _ _ w) as [w1 fr] eqn:Hloop.
      exists (length (passes w)), fr, (renderingRef w).
      apply loop_spec in Hloop
          as [(->&_&->)|(?&?&?&?&?&_&_&_&?&->&->)]; simpl.
      all: split; [|by eauto].
      all: intros i g; unfold pending; simpl; apply lookup_snoc_Some'.
    + exists (length (passes w)), None, (renderingRef w).
      split; [|done].
      intros i g. unfold pending. simpl. apply lookup_snoc_Some'.
  - destruct (passes w !! pass) as [[f|]|] eqn:Hf; try done.
    intros [= <-]. unfold resume.
    pose proof (afterRender_passes pass f o w) as Hp.
    pose proof (afterRender_rendering pass f o w) as Hr.
    destruct (loop _ _ _) as [w1 fr] eqn:Hloop.
    revert Hp Hr Hloop. generalize (afterRender pass f o w). intros w0 Hp Hr.
    exists pass, fr, (renderingRef w ∖ {[mermaidSource f]}).
    apply loop_spec in Hloop
        as [(->&_&->)|(?&?&?&?&?&_&_&_&Hnin&->&->)]; simpl.
    all: rewrite Hp, Hr in *.
    all: split; [|repeat split; try done; by exists f].
    all: intros i g; unfold pending; simpl.
    all: apply lookup_insert_Some'; by eapply lookup_lt_Some.
Qed.

(** The Rendering Set invariant holds in every reachable world. *)
Lemma coherent_step l w w' : coherent w → step l w = Some w' → coherent w'.
Proof.
  intros [Huniq Hset] (k & fr & R0 & Hpend & Hl & Hfr)%step_spec.
  assert (∀ s, s ∈ R0 ↔ ∃ i g, i ≠ k ∧ pending w i g ∧ mermaidSource g = s)
    as HR0.
  { intros s. destruct l as [|pass o].
    - destruct Hl as [-> ->]. rewrite Hset. unfold inFlight.
      split; [|naive_solver]. intros (i & g & Hi & <-).
      exists i, g. split; [|done].
      apply lookup_lt_Some in Hi. lia.
    - destruct Hl as (-> & f & Hf & ->).
      rewrite elem_of_difference, elem_of_singleton, Hset. unfold inFlight.
      split.
      + intros [(i & g & Hi & <-) Hne]. exists i, g.
        split; [|done]. intros ->. unfold pending in *. congruence.
      + intros (i & g & Hne & Hi & <-). split; [eauto|].
        intros Heq. apply Hne. by eapply Huniq. }
  split.
  - intros i j f g [[Hi Hf]|[-> Hf]]%Hpend [[Hj Hg]|[-> Hg]]%Hpend Heq.
    + by eapply Huniq.
    + subst fr. destruct Hfr as [Hnin _]. destruct Hnin.
      apply HR0. rewrite <-Heq. eauto.
    + subst fr. destruct Hfr as [Hnin _]. destruct Hnin.
      apply HR0. rewrite Heq. eauto.
    + done.
  - intros s. unfold inFlight. destruct fr as [g|].
    + destruct Hfr as [_ ->]. rewrite elem_of_union, elem_of_singleton, HR0.
      split.
      * intros [->|(i & g' & ? & ? & <-)].
        -- exists k, g. split; [|done]. apply Hpend. by right.
        -- exists i, g'. split; [|done]. apply Hpend. by left.
      * intros (i & g' & [[? ?]|[-> [= ->]]]%Hpend & <-); [right|by left].
        by exists i, g'.
    + rewrite Hfr, HR0. split.
      * intros (i & g' & ? & ? & <-).
        exists i, g'. split; [|done]. apply Hpend. by left.
      * intros (i & g' & [[? ?]|[-> [=]]]%Hpend & <-). by exists i, g'.
Qed.

Lemma coherent_initial content : coherent (initial content).
Proof.
  split.
  - intros i j f g Hi. unfold pending in Hi. simpl in Hi.
    by rewrite lookup_nil in Hi.
  - intros s. split; [by intros ?%elem_of_empty|].
    intros (i & f & Hi & _). unfold pending in Hi. simpl in Hi.
    by rewrite lookup_nil in Hi.
Qed.

Lemma coherent_reachable content tr w :
  run tr (initial content) = Some w → coherent w.
Proof.
  apply (run_invariant coherent); [apply coherent_step|apply coherent_initial].
Qed.

(** * The three shapes of a step *)

Lemma step_inv l w w' :
  step l w = Some w' →
  (l = Invoke ∧ containerRef w = None
   ∧ w' = setPasses (passes w ++ [None]) w)
  ∨ (∃ container w1 fr,
        l = Invoke ∧ containerRef w = Some container
        ∧ loop (length (passes w))
            (querySelectorAll container (document w)) w = (w1, fr)
        ∧ w' = setPasses (passes w1 ++ [fr]) w1)
  ∨ (∃ pass o f w1 fr,
        l = Settle pass o ∧ pending w pass f
        ∧ loop pass (remaining f) (afterRender pass f o w) = (w1, fr)
        ∧ w' = setPasses (<[pass := fr]> (passes w1)) w1).
Proof.
  destruct l as [|pass o]; simpl.
  - intros [= <-]. unfold processMermaidBlocks.
    destruct (containerRef w) as [container|]; [|by left].
    right; left. destruct (loop _ _ w) as [w1 fr] eqn:Hloop.
    by exists container, w1, fr.
  - destruct (passes w !! pass) as [[f|]|] eqn:Hf; try done.
    intros [= <-]. right; right. unfold resume.
    destruct (loop _ _ _) as [w1 fr] eqn:Hloop.
    by exists pass, o, f, w1, fr.
Qed.

(** * Identifiers *)

Lemma mermaidId_inj : Inj (=) (=) mermaidId.
Proof.
  intros n m Heq. unfold mermaidId in Heq.
  by apply (inj _), (inj pretty) in Heq.
Qed.

Lemma renderCalls_snoc h e :
  renderCalls (h ++ [e])
  = renderCalls h ++ match e with
                     | RenderCalled _ _ id src => [(id, src)]
                     | RenderSettled _ _ _ _ => []
                     end.
Proof. unfold renderCalls. rewrite bind_app. simpl. by rewrite app_nil_r. Qed.

Lemma StronglySorted_lt_snoc ns n :
  StronglySorted lt ns → Forall (λ m, m < n) ns → StronglySorted lt (ns ++ [n]).
Proof.
  intros Hs Hall. apply StronglySorted_app. split_and!; [|done|].
  - intros x y Hx ->%list_elem_of_singleton.
    by eapply Forall_forall in Hall.
  - repeat constructor.
Qed.

Lemma numbered_advance n w : numbered w → numbered (advanceCounter n w).
Proof.
  intros (ns & Hids & Hsort & Hall). exists ns. split_and!; [done..|].
  simpl. eapply Forall_impl; [done|]. simpl. lia.
Qed.

Lemma numbered_start pass c src n w :
  numbered w →
  numbered (start pass c src (mermaidId (S (n + mermaidIdCounter w)))
              (advanceCounter (S n) w)).
Proof.
  intros (ns & Hids & Hsort & Hall).
  exists (ns ++ [S (n + mermaidIdCounter w)]). simpl.
  unfold callIds in *. rewrite renderCalls_snoc, !fmap_app, Hids.
  split_and!; [done| |].
  - apply StronglySorted_lt_snoc; [done|].
    eapply Forall_impl; [done|]. simpl. lia.
  - apply Forall_app. split.
    + eapply Forall_impl; [done|]. simpl. lia.
    + apply Forall_singleton. lia.
Qed.

Lemma numbered_afterRender pass f o w :
  numbered w → numbered (afterRender pass f o w).
Proof.
  intros (ns & Hids & Hsort & Hall). exists ns.
  rewrite afterRender_counter, afterRender_history.
  unfold callIds in *. rewrite renderCalls_snoc, app_nil_r. done.
Qed.

Lemma numbered_loop pass bl w w' fr :
  loop pass bl w = (w', fr) → numbered w → numbered w'.
Proof.
  intros [(_&_&->)|(?&?&?&?&?&_&_&_&_&->&_)]%loop_spec Hw.
  - by apply numbered_advance.
  - by apply numbered_start.
Qed.

Lemma numbered_step l w w' : numbered w → step l w = Some w' → numbered w'.
Proof.
  intros Hw [(_&_&->)|[(?&w1&fr&_&_&Hloop&->)|(?&?&?&w1&fr&_&_&Hloop&->)]]%step_inv.
  - done.
  - by apply numbered_loop in Hloop.
  - apply numbered_loop in Hloop; [done|]. by apply numbered_afterRender.
Qed.

Lemma numbered_reachable content tr w :
  run tr (initial content) = Some w → numbered w.
Proof.
  apply (run_invariant numbered); [apply numbered_step|].
  exists []. split_and!; [done|constructor|constructor].
Qed.

Lemma numbered_NoDup w : numbered w → NoDup (callIds (history w)).
Proof.
  intros (ns & -> & Hsort & _). apply (NoDup_fmap_2 _).
  clear -Hsort. induction Hsort as [|n ns _ IH Hall]; constructor; [|done].
  intros Hin. eapply Forall_forall in Hall; [|done]. lia.
Qed.

(** * A pass that runs alone *)

Lemma skips_empty_consumed d l : Forall (skips d ∅) l → consumed d l = 0.
Proof.
  induction 1 as [|c l Hc _ IH]; [done|].
  rewrite consumed_cons, IH. unfold skips in Hc.
  destruct (checks c d) as [[??]|]; [|done]. by apply elem_of_empty in Hc.
Qed.

(** From an empty Rendering Set the loop skips no block that passes the
    checks. *)
Lemma loop_from_empty pass bl w w' fr :
  renderingRef w = ∅ →
  loop pass bl w = (w', fr) →
  mermaidIdCounter w'
  = match fr with Some _ => 1 | None => 0 end + mermaidIdCounter w
  ∧ length (renderCalls (history w'))
    = match fr with Some _ => 1 | None => 0 end + length (renderCalls (history w))
  ∧ renderingRef w' = match fr with
                      | Some f => {[mermaidSource f]}
                      | None => ∅
                      end
  ∧ passes w' = passes w.
Proof.
  intros Hempty [(->&Hall&->)|(sk&c&rest&pre&src&_&Hall&_&_&->&->)]%loop_spec.
  - rewrite Hempty in Hall. rewrite (skips_empty_consumed _ _ Hall). simpl.
    by rewrite Hempty.
  - rewrite Hempty in Hall. rewrite (skips_empty_consumed _ _ Hall). simpl.
    rewrite renderCalls_snoc, length_app, Hempty. simpl.
    split_and!; [done|lia|set_solver|done].
Qed.

Lemma alone_invoke content : alone (processMermaidBlocks (initial content)).
Proof.
  unfold processMermaidBlocks. simpl.
  destruct (loop _ _ _) as [w1 fr] eqn:Hloop.
  apply loop_from_empty in Hloop as (Hc & Hh & Hr & Hp); [|done].
  simpl in *. split; simpl.
  - by rewrite Hp.
  - rewrite Hh, Hc. lia.
  - rewrite Hp. simpl. by destruct fr.
Qed.

Lemma alone_settle o w w' : alone w → step (Settle 0 o) w = Some w' → alone w'.
Proof.
  intros [Hlen Hcalls Hrend].
  intros [(?&_)|[(?&?&?&?&_)|(?&?&f&w1&fr&[= <- <-]&Hf&Hloop&->)]]%step_inv;
    try done.
  unfold pending in Hf. rewrite Hf in Hrend.
  apply loop_from_empty in Hloop as (Hc & Hh & Hr & Hp).
  2:{ rewrite afterRender_rendering, Hrend. set_solver. }
  rewrite afterRender_counter in Hc.
  rewrite afterRender_history, renderCalls_snoc, app_nil_r in Hh.
  rewrite afterRender_passes in Hp.
  destruct (passes w) as [|? [|??]] eqn:Hpasses; try done.
  split; simpl; rewrite ?Hp; simpl.
  - done.
  - rewrite Hh, Hc, Hcalls. done.
  - by destruct fr.
Qed.

Lemma alone_run content outcomes w :
  run (Invoke :: (Settle 0 <$> outcomes)) (initial content) = Some w → alone w.
Proof.
  simpl. generalize (alone_invoke content).
  generalize (processMermaidBlocks (initial content)). intros w0 Hw0.
  revert w0 Hw0. induction outcomes as [|o os IH]; intros w0 Hw0; simpl.
  { by intros [= <-]. }
  destruct (passes w0 !! 0) as [[f|]|] eqn:Hf; try done. simpl.
  apply IH. eapply (alone_settle o); [done|]. simpl. by rewrite Hf.
Qed.

(** * The events of a step *)

Lemma step_summary l w w' :
  step l w = Some w' →
  ∃ k bl settled fr,
    match l with
    | Invoke =>
        k = length (passes w) ∧ settled = []
        ∧ passes w' = passes w ++ [fr]
        ∧ bl = match containerRef w with
               | Some container => querySelectorAll container (document w)
               | None => []
               end
    | Settle pass o =>
        k = pass
        ∧ ∃ f, pending w pass f
               ∧ settled = [RenderSettled pass (codeBlock f) (diagramId f) o]
               ∧ passes w' = <[pass := fr]> (passes w)
               ∧ bl = remaining f
    end
    ∧ history w'
      = history w ++ settled
        ++ match fr with
           | Some g =>
               [RenderCalled k (codeBlock g) (diagramId g) (mermaidSource g)]
           | None => []
           end
    ∧ match fr with
      | Some g => ∃ skipped, bl = skipped ++ codeBlock g :: remaining g
      | None => True
      end
    ∧ containerRef w' = containerRef w.
Proof.
  intros [(->&Hc&->)|[(c&w1&fr&->&Hc&Hloop&->)|(p&o&f&w1&fr&->&Hf&Hloop&->)]]
    %step_inv.
  - exists (length (passes w)), [], [], None. rewrite Hc. simpl.
    by rewrite app_nil_r.
  - exists (length (passes w)), (querySelectorAll c (document w)), [], fr.
    rewrite Hc.
    apply loop_spec in Hloop
        as [(->&_&->)|(sk&?&?&?&?&Hbl&_&_&_&->&->)]; simpl.
    + by rewrite app_nil_r.
    + split_and!; eauto.
  - exists p, (remaining f),
      [RenderSettled p (codeBlock f) (diagramId f) o], fr.
    pose proof (afterRender_passes p f o w) as Hp.
    pose proof (afterRender_history p f o w) as Hh.
    pose proof (afterRender_containerRef p f o w) as Hc.
    revert Hp Hh Hc Hloop. generalize (afterRender p f o w). intros w0 Hp Hh Hc.
    intros [(->&_&->)|(sk&?&?&?&?&Hbl&_&_&_&->&->)]%loop_spec; simpl.
    + rewrite Hp, Hh, Hc. split_and!; try done; by exists f.
    + rewrite Hp, Hh, Hc, <-app_assoc. split_and!; eauto; by exists f.
Qed.

Lemma ofPass_unique p q e : ofPass p e → ofPass q e → p = q.
Proof. destruct e; simpl; congruence. Qed.

Lemma filter_ofPass_other p q evs :
  Forall (ofPass q) evs → p ≠ q → filter (ofPass p) evs = [].
Proof.
  induction 1 as [|e evs He _ IH]; intros Hne; [done|].
  rewrite filter_cons_False; [by apply IH|].
  intros Hp. apply Hne. by eapply ofPass_unique.
Qed.

Lemma filter_ofPass_same p evs :
  Forall (ofPass p) evs → filter (ofPass p) evs = evs.
Proof.
  induction 1 as [|e evs He _ IH]; [done|].
  by rewrite filter_cons_True, IH.
Qed.

Lemma phase_app_other p q h evs :
  Forall (ofPass q) evs → p ≠ q → phase p (h ++ evs) = phase p h.
Proof.
  intros Hevs Hne. unfold phase.
  rewrite filter_app, (filter_ofPass_other p q evs) by done.
  by rewrite app_nil_r.
Qed.

Lemma phase_app_same p h evs :
  Forall (ofPass p) evs → phase p (h ++ evs) = foldl advance (phase p h) evs.
Proof.
  intros Hevs. unfold phase.
  by rewrite filter_app, foldl_app, (filter_ofPass_same p evs) by done.
Qed.

(** The events a step appends are those of the invocation that runs. *)
Lemma step_events l w w' :
  step l w = Some w' →
  ∃ k evs fr,
    history w' = history w ++ evs
    ∧ Forall (ofPass k) evs
    ∧ (∀ p, p ≠ k → passes w' !! p = passes w !! p)
    ∧ passes w' !! k = Some fr
    ∧ k < length (passes w')
    ∧ length (passes w) ≤ length (passes w')
    ∧ foldl advance
        match passes w !! k with
        | Some (Some f) => Awaiting k (codeBlock f) (diagramId f)
        | _ => Idle
        end evs
      = match fr with
        | Some g => Awaiting k (codeBlock g) (diagramId g)
        | None => Idle
        end.
Proof.
  intros (k & bl & settled & fr & Hl & Hh & _ & _)%step_summary.
  exists k, (settled ++ match fr with
                        | Some g =>
                            [RenderCalled k (codeBlock g) (diagramId g)
                               (mermaidSource g)]
                        | None => []
                        end), fr.
  split; [done|]. destruct l as [|pass o].
  - destruct Hl as (-> & -> & Hp & _). rewrite Hp, length_app. simpl.
    split_and!.
    + by destruct fr; repeat constructor.
    + intros p Hne. destruct (decide (p < length (passes w))).
      * by rewrite lookup_app_l.
      * rewrite !lookup_ge_None_2; [done|lia|rewrite length_app; simpl; lia].
    + by rewrite lookup_app_r, Nat.sub_diag.
    + lia.
    + lia.
    + rewrite (lookup_ge_None_2 (passes w)) by done. by destruct fr.
  - destruct Hl as (-> & f & Hf & -> & Hp & _). rewrite Hp, length_insert.
    pose proof (lookup_lt_Some _ _ _ Hf) as Hlt. unfold pending in Hf.
    split_and!.
    + by destruct fr; repeat constructor.
    + intros p Hne. by rewrite list_lookup_insert_ne.
    + by rewrite list_lookup_insert_eq.
    + done.
    + done.
    + rewrite Hf. simpl.
      rewrite bool_decide_eq_true_2 by done. by destruct fr.
Qed.

Lemma orderly_step l w w' : orderly w → step l w = Some w' → orderly w'.
Proof.
  intros [Hphase Hfuture] (k&evs&fr&Hh&Hevs&Hother&Hk&Hlt&Hle&Hadv)%step_events.
  split.
  - intros p. rewrite Hh. destruct (decide (p = k)) as [->|Hne].
    + rewrite phase_app_same by done. by rewrite Hphase, Hk.
    + rewrite (phase_app_other p k) by done. by rewrite Hother, Hphase.
  - intros p Hp. rewrite Hh, filter_app, Hfuture by lia.
    rewrite (filter_ofPass_other p k evs); [done|done|lia].
Qed.

Lemma orderly_reachable content tr w :
  run tr (initial content) = Some w → orderly w.
Proof.
  apply (run_invariant orderly); [apply orderly_step|].
  split; [|done]. intros p. done.
Qed.

Lemma foldl_advance_Broken evs : foldl advance Broken evs = Broken.
Proof. induction evs as [|e evs IH]; [done|]. by destruct e. Qed.

Lemma advance_sequential evs :
  (foldl advance Idle evs ≠ Broken → sequential evs)
  ∧ (∀ p c id src,
        foldl advance (Awaiting p c id) evs ≠ Broken →
        sequential (RenderCalled p c id src :: evs)).
Proof.
  induction evs as [|e evs [IHidle IHawait]]; simpl.
  { split; intros; constructor. }
  split.
  - destruct e as [p c id src|]; simpl.
    + apply IHawait.
    + by rewrite foldl_advance_Broken.
  - intros p c id src. destruct e as [|p' c' id' o]; simpl.
    + by rewrite foldl_advance_Broken.
    + case_bool_decide as Heq; [|by rewrite foldl_advance_Broken].
      destruct Heq as (<- & <- & <-). intros Hevs. constructor. auto.
Qed.

Lemma orderly_sequential w p :
  orderly w → sequential (filter (ofPass p) (history w)).
Proof.
  intros [Hphase _]. apply advance_sequential.
  fold (phase p (history w)). rewrite Hphase. by repeat case_match.
Qed.

Lemma containerRef_reachable content tr w :
  run tr (initial content) = Some w → containerRef w = Some 0.
Proof.
  apply (run_invariant (λ w, containerRef w = Some 0)); [|done].
  intros l w0 w' Hw0 (?&?&?&?&_&_&_&->)%step_summary. done.
Qed.

Lemma callBlocks_app p h1 h2 :
  callBlocks p (h1 ++ h2) = callBlocks p h1 ++ callBlocks p h2.
Proof. unfold callBlocks. apply bind_app. Qed.

Lemma callBlocks_other p q evs :
  Forall (ofPass q) evs → p ≠ q → callBlocks p evs = [].
Proof.
  induction 1 as [|e evs He _ IH]; intros Hne; [done|].
  change (e :: evs) with ([e] ++ evs). rewrite callBlocks_app, IH by done.
  destruct e; simpl in *; [|done]. subst. by rewrite bool_decide_eq_false_2.
Qed.

Lemma callBlocks_filter_nil p h :
  filter (ofPass p) h = [] → callBlocks p h = [].
Proof.
  induction h as [|e h IH]; [done|].
  destruct (decide (ofPass p e)) as [He|He].
  - by rewrite filter_cons_True.
  - rewrite filter_cons_False by done. intros Hnil%IH.
    change (callBlocks p ([e] ++ h) = []). rewrite callBlocks_app, Hnil.
    destruct e; simpl in *; [|done]. by rewrite bool_decide_eq_false_2.
Qed.

(** The calls of an invocation follow the order of the blocks it
    enumerated. *)
Lemma inOrder_step p L l w w' :
  p < length (passes w) →
  inOrder p L w →
  step l w = Some w' →
  p < length (passes w') ∧ inOrder p L w'.
Proof.
  intros Hp Hord Hstep.
  pose proof (step_events _ _ _ Hstep)
    as (k'&evs&fr'&_&Hevs&Hother&_&_&Hle&_).
  split; [lia|]. clear k' evs fr' Hevs Hother Hle.
  apply step_summary in Hstep as (k & bl & settled & fr & Hl & Hh & Hfr & _).
  assert (Forall (ofPass k)
            match fr with
            | Some g =>
                [RenderCalled k (codeBlock g) (diagramId g) (mermaidSource g)]
            | None => []
            end) as Hcall by (destruct fr; repeat constructor).
  unfold inOrder in *. rewrite Hh, !callBlocks_app.
  destruct l as [|pass o].
  - destruct Hl as (-> & -> & Hpasses & _).
    rewrite Hpasses, lookup_app_l by done.
    rewrite (callBlocks_other p _ _ Hcall) by lia.
    by rewrite !app_nil_r.
  - destruct Hl as (-> & f & Hf & -> & Hpasses & ->).
    rewrite Hpasses. destruct (decide (p = pass)) as [->|Hne].
    + unfold pending in Hf. rewrite Hf in Hord.
      rewrite list_lookup_insert_eq by done.
      destruct fr as [g|]; simpl.
      * destruct Hfr as [sk Hrem]. rewrite Hrem in Hord.
        rewrite bool_decide_eq_true_2 by done. simpl.
        etrans; [|exact Hord]. rewrite <-app_assoc.
        apply sublist_app; [done|]. simpl. by apply sublist_inserts_l.
      * rewrite !app_nil_r. etrans; [|exact Hord]. by apply sublist_inserts_r.
    + rewrite list_lookup_insert_ne by done.
      rewrite (callBlocks_other p _ _ Hcall) by done.
      rewrite (callBlocks_other p pass [_]) by (by repeat constructor).
      by rewrite !app_nil_r.
Qed.

Lemma inOrder_invoke w container :
  orderly w →
  containerRef w = Some container →
  length (passes w) < length (passes (processMermaidBlocks w))
  ∧ inOrder (length (passes w)) (querySelectorAll container (document w))
      (processMermaidBlocks w).
Proof.
  intros [_ Hfuture] Hc.
  assert (step Invoke w = Some (processMermaidBlocks w)) as Hstep by done.
  apply step_summary in Hstep as (k & bl & settled & fr & Hl & Hh & Hfr & _).
  destruct Hl as (-> & -> & Hpasses & ->). rewrite Hc in Hfr.
  rewrite Hpasses, length_app. simpl. split; [lia|].
  unfold inOrder. rewrite Hh, Hpasses, callBlocks_app.
  rewrite (callBlocks_filter_nil _ (history w)) by (by apply Hfuture).
  rewrite lookup_app_r, Nat.sub_diag by done. simpl.
  destruct fr as [g|]; simpl.
  - destruct Hfr as [sk ->]. rewrite bool_decide_eq_true_2 by done. simpl.
    by apply sublist_inserts_l.
  - apply sublist_nil_l.
Qed.

(** * The shape of the page is kept *)

Lemma checks_Some c d pre src :
  checks c d = Some (pre, src) →
  hasAttribute c PROCESSED d = false
  ∧ parentElement c d = Some pre
  ∧ tagName pre = "PRE"
  ∧ trim <$> textContent c d = Some src
  ∧ src ≠ "".
Proof.
  unfold checks. destruct (hasAttribute c PROCESSED d); [done|].
  destruct (parentElement c d) as [p|]; [|done].
  case_bool_decide as Htag; [|done]. simpl.
  destruct (trim <$> textContent c d) as [s|]; [|done].
  case_bool_decide; [done|]. by intros [= -> ->].
Qed.

Lemma sound_change w w' :
  sound w →
  passes w' = passes w →
  nextRef w ≤ nextRef w' →
  (∃ h, headOf (document w') = Some h ∧ tagName h = "DIV") →
  Forall (λ r, r < nextRef w') (refs (document w')) →
  (∀ r, r ∈ descendants (document w) → r ∈ descendants (document w')) →
  sound w'.
Proof.
  intros [Hroot Hfresh Hframes] Hp Hn Hroot' Hfresh' Hdesc.
  split; [done|done|]. intros pass f Hf. unfold pending in Hf.
  rewrite Hp in Hf. destruct (Hframes pass f Hf) as (Hpre & Hblock & Hall).
  split_and!; [auto|auto|]. eapply Forall_impl; [done|]. simpl. lia.
Qed.

Lemma sound_update r g w w' :
  (∀ h, ref (g h) = ref h) →
  (∀ h, tagName (g h) = tagName h) →
  sound w →
  passes w' = passes w →
  nextRef w ≤ nextRef w' →
  document w' = update r g (document w) →
  sound w'.
Proof.
  intros Hg Htag Hw Hp Hn Hd. eapply sound_change; try done.
  - destruct (sound_root _ Hw) as (h & Hh & Hdiv).
    exists (onElement r g h). rewrite Hd, headOf_update, Hh by done.
    split; [done|]. unfold onElement. case_bool_decide; by rewrite ?Htag.
  - rewrite Hd, refs_update by done.
    eapply Forall_impl; [apply (sound_fresh _ Hw)|]. simpl. lia.
  - intros x. by rewrite Hd, descendants_update.
Qed.

Lemma sound_advance n w : sound w → sound (advanceCounter n w).
Proof. by intros [???]. Qed.

Lemma sound_start pass c src id w : sound w → sound (start pass c src id w).
Proof. intros Hw. by eapply (sound_update c (setAttributeH PROCESSED "true")). Qed.

Lemma afterRender_document pass f o w d :
  insertAfter (preElement f) (outputOf o (nextRef w)) (document w) = Some d →
  document (afterRender pass f o w)
  = match o with
    | Resolved _ => classList_add (preElement f) "mermaid-hidden" d
    | Rejected _ => removeAttribute (codeBlock f) PROCESSED d
    end.
Proof.
  intros Hins. unfold afterRender. destruct o; simpl in *.
  all: unfold insertAdjacentElement_afterend; by rewrite Hins.
Qed.

Lemma sound_insertion w pass f :
  sound w → pending w pass f →
  ∀ new, is_Some (insertAfter (preElement f) new (document w)).
Proof.
  intros Hw Hf new. apply insertAfter_is_Some.
  by destruct (sound_frames _ Hw pass f Hf) as (? & _).
Qed.

Lemma sound_afterRender pass f o w :
  sound w → pending w pass f → sound (afterRender pass f o w).
Proof.
  intros Hw Hf.
  destruct (sound_insertion w pass f Hw Hf (outputOf o (nextRef w)))
    as [d Hd].
  pose proof (afterRender_document pass f o w d Hd) as Hdoc.
  assert (sound (mkWorld d (S (nextRef w)) (containerRef w) (renderingRef w)
                   (mermaidIdCounter w) (passes w) (history w))) as Hmid.
  { eapply sound_change; [exact Hw|done|simpl; lia|..]; simpl.
    - destruct (sound_root _ Hw) as (h & Hh & Hdiv).
      exists h. by rewrite (insertAfter_head _ _ _ _ Hd).
    - apply Forall_forall. intros x [Hx|Hx]%(refs_insertAfter _ _ _ _ _ Hd).
      + pose proof (sound_fresh _ Hw) as Hfresh.
        eapply Forall_forall in Hfresh; [|done]. lia.
      + destruct o; simpl in Hx; apply list_elem_of_singleton in Hx; lia.
    - intros x Hx. apply (descendants_insertAfter _ _ _ _ _ Hd). by left. }
  destruct o.
  - eapply (sound_update (preElement f) (classList_addH "mermaid-hidden"));
      [done|done|exact Hmid|..].
    + by rewrite afterRender_passes.
    + by rewrite afterRender_nextRef.
    + exact Hdoc.
  - eapply (sound_update (codeBlock f) (removeAttributeH PROCESSED));
      [done|done|exact Hmid|..].
    + by rewrite afterRender_passes.
    + by rewrite afterRender_nextRef.
    + exact Hdoc.
Qed.

Lemma sound_loop pass bl w w' fr :
  sound w →
  Forall (λ r, r < nextRef w) bl →
  loop pass bl w = (w', fr) →
  sound w'
  ∧ match fr with
    | Some g =>
        preElement g ∈ descendants (document w')
        ∧ codeBlock g ∈ descendants (document w')
        ∧ Forall (λ r, r < nextRef w') (codeBlock g :: remaining g)
    | None => True
    end.
Proof.
  intros Hw Hbl [(->&_&->)|(sk&c&rest&pre&src&->&_&Hc&_&->&->)]%loop_spec.
  { split; [|done]. by apply sound_advance. }
  split; [by apply sound_start, sound_advance|]. simpl.
  apply Forall_app in Hbl as [_ Hbl].
  unfold setAttribute. rewrite descendants_update by done.
  apply checks_Some in Hc as (_ & Hparent & Htag & _).
  split_and!; [|by apply parentElement_is_Some|done].
  apply parentElement_in in Hparent as [Hroot|?]; [|done].
  destruct (sound_root _ Hw) as (h & Hh & Hdiv). congruence.
Qed.

Lemma sound_setPasses ps w :
  sound w →
  (∀ pass f,
      ps !! pass = Some (Some f) →
      pending w pass f
      ∨ (preElement f ∈ descendants (document w)
         ∧ codeBlock f ∈ descendants (document w)
         ∧ Forall (λ r, r < nextRef w) (codeBlock f :: remaining f))) →
  sound (setPasses ps w).
Proof.
  intros [Hroot Hfresh Hframes] Hps. split; [done|done|].
  intros pass f [?|?]%Hps; [|done]. by apply (Hframes pass).
Qed.

Lemma loop_passes pass bl w w' fr :
  loop pass bl w = (w', fr) → passes w' = passes w.
Proof.
  by intros [(_&_&->)|(?&?&?&?&?&_&_&_&_&->&_)]%loop_spec.
Qed.

Lemma sound_step l w w' : sound w → step l w = Some w' → sound w'.
Proof.
  intros Hw
    [(_&_&->)|[(c&w1&fr&_&_&Hloop&->)|(p&o&f&w1&fr&_&Hf&Hloop&->)]]%step_inv.
  - apply sound_setPasses; [done|].
    intros pass f [?|[_ [=]]]%lookup_snoc_Some. by left.
  - pose proof (loop_passes _ _ _ _ _ Hloop) as Hpasses.
    apply sound_loop in Hloop as [Hw1 Hfr]; [|done|].
    2:{ apply Forall_forall. intros x Hx%querySelectorAll_refs.
        pose proof (sound_fresh _ Hw) as Hfresh.
        by eapply Forall_forall in Hfresh. }
    apply sound_setPasses; [done|]. rewrite Hpasses.
    intros pass g [Hg|[_ ->]]%lookup_snoc_Some; [left|by right].
    unfold pending. by rewrite Hpasses.
  - pose proof (sound_afterRender p f o w Hw Hf) as Hw0.
    pose proof (afterRender_passes p f o w) as Hp0.
    pose proof (afterRender_nextRef p f o w) as Hn0.
    assert (Forall (λ r, r < nextRef (afterRender p f o w)) (remaining f))
      as Hrem.
    { destruct (sound_frames _ Hw p f Hf) as (_ & _ & Hall).
      apply Forall_cons in Hall as [_ Hall]. rewrite Hn0.
      eapply Forall_impl; [done|]. simpl. lia. }
    revert Hw0 Hp0 Hn0 Hrem Hloop. generalize (afterRender p f o w).
    intros w0 Hw0 Hp0 Hn0 Hrem Hloop.
    pose proof (loop_passes _ _ _ _ _ Hloop) as Hpasses.
    apply sound_loop in Hloop as [Hw1 Hfr]; [|done|done].
    apply sound_setPasses; [done|]. rewrite Hpasses, Hp0.
    intros pass g [[_ Hg]|[_ ->]]%lookup_insert_Some';
      [| |by eapply lookup_lt_Some]; [left|by right].
    unfold pending. by rewrite Hpasses, Hp0.
Qed.

Lemma sound_initial content : sound (initial content).
Proof.
  split; simpl.
  - by exists containerHead.
  - constructor; [lia|]. apply Forall_forall. intros x Hx.
    apply max_list_elem_of_le in Hx. lia.
  - intros pass f Hf. unfold pending in Hf. simpl in Hf.
    by rewrite lookup_nil in Hf.
Qed.

Lemma sound_reachable content tr w :
  run tr (initial content) = Some w → sound w.
Proof.
  apply (run_invariant sound); [apply sound_step|apply sound_initial].
Qed.

(** * The output of a render *)

Lemma update_outputOf r g o n : r ≠ n → update r g (outputOf o n) = outputOf o n.
Proof.
  intros Hne. destruct o; simpl; unfold onElement; simpl.
  all: by rewrite bool_decide_eq_false_2.
Qed.

Lemma refs_outputOf o n : refs (outputOf o n) = [n].
Proof. by destruct o. Qed.

Lemma select_outputOf o n : select (outputOf o n) = [].
Proof. by destruct o. Qed.


#[global] Arguments outputOf : simpl never.

Lemma loop_document pass bl w w' fr :
  loop pass bl w = (w', fr) →
  nextRef w' = nextRef w
  ∧ document w' = mark fr (document w)
  ∧ match fr with Some g => codeBlock g ∈ bl | None => True end.
Proof.
  intros [(->&_&->)|(sk&c&rest&pre&src&->&_&_&_&->&->)]%loop_spec;
    [done|]. split_and!; [done|done|]. simpl.
  apply elem_of_app. right. apply list_elem_of_here.
Qed.

(** The document after the settlement of a render: the output is inserted
    after the [pre], the [pre] or the block is updated, and the next block
    the invocation renders, if any, is marked. *)
Lemma settle_document o w pass f w' :
  sound w →
  pending w pass f →
  step (Settle pass o) w = Some w' →
  ∃ d next,
    insertAfter (preElement f) (outputOf o (nextRef w)) (document w) = Some d
    ∧ document (afterRender pass f o w) = finish o f d
    ∧ document w' = mark next (finish o f d)
    ∧ match next with Some g => codeBlock g < nextRef w | None => True end
    ∧ preElement f < nextRef w
    ∧ codeBlock f < nextRef w
    ∧ codeBlock f ∈ refs (document w)
    ∧ passes w' !! pass = Some next.
Proof.
  intros Hw Hf Hstep. simpl in Hstep. pose proof Hf as Hf'.
  unfold pending in Hf'. rewrite Hf' in Hstep. injection Hstep as <-.
  destruct (sound_insertion w pass f Hw Hf (outputOf o (nextRef w)))
    as [d Hd].
  pose proof (afterRender_document pass f o w d Hd) as Hdoc.
  unfold resume. destruct (loop _ _ _) as [w1 fr] eqn:Hloop.
  pose proof (loop_passes _ _ _ _ _ Hloop) as Hp1.
  rewrite afterRender_passes in Hp1.
  apply loop_document in Hloop as (_ & Hdoc1 & Hin).
  exists d, fr. simpl. rewrite Hdoc1, Hdoc, Hp1.
  destruct (sound_frames _ Hw pass f Hf) as (Hpre & Hin' & Hall).
  apply Forall_cons in Hall as [Hblock Hall].
  split_and!; [done|by destruct o|done| | |done| |].
  - destruct fr as [g|]; [|done]. by eapply Forall_forall in Hall.
  - pose proof (sound_fresh _ Hw) as Hfresh.
    eapply Forall_forall in Hfresh; [done|].
    rewrite refs_unfold, elem_of_app. by right.
  - rewrite refs_unfold, elem_of_app. by right.
  - apply list_lookup_insert_eq. by eapply lookup_lt_Some.
Qed.

Lemma classList_addH_other cls cls' h :
  cls ≠ cls' → cls ∈ classList (classList_addH cls' h) ↔ cls ∈ classList h.
Proof.
  intros Hne. unfold classList_addH. simpl. case_bool_decide; [done|].
  rewrite elem_of_app, list_elem_of_singleton. naive_solver.
Qed.

Lemma classList_addH_same cls h : cls ∈ classList (classList_addH cls h).
Proof.
  unfold classList_addH. simpl. case_bool_decide; [done|].
  rewrite elem_of_app, list_elem_of_singleton. by right.
Qed.

Lemma hasClass_update r r' g cls n :
  (∀ h, ref (g h) = ref h) →
  (∀ h, cls ∈ classList (g h) ↔ cls ∈ classList h) →
  hasClass r cls (update r' g n) = hasClass r cls n.
Proof.
  intros Hg Hcls. unfold hasClass. rewrite getHead_update by done.
  destruct (getHead r n) as [h|]; simpl; [|done].
  unfold onElement. destruct (bool_decide (ref h = r')); [|done].
  by apply bool_decide_ext.
Qed.

Lemma hasClass_classList_add r cls n :
  r ∈ refs n → hasClass r cls (classList_add r cls n) = true.
Proof.
  intros [h Hh]%getHead_is_Some. unfold hasClass, classList_add.
  rewrite getHead_update, Hh by done. simpl.
  unfold onElement.
  rewrite (bool_decide_eq_true_2 (ref h = r)) by (by eapply getHead_ref).
  apply bool_decide_eq_true_2, classList_addH_same.
Qed.

Lemma hasAttribute_update_ne r r' g name n :
  (∀ h, ref (g h) = ref h) →
  r ≠ r' →
  hasAttribute r name (update r' g n) = hasAttribute r name n.
Proof.
  intros Hg Hne. unfold hasAttribute. rewrite getHead_update by done.
  destruct (getHead r n) as [h|] eqn:Hh; simpl; [|done].
  unfold onElement. apply getHead_ref in Hh. subst r.
  by rewrite (bool_decide_eq_false_2 (ref h = r')) by done.
Qed.

Lemma hasAttribute_removeAttribute r name n :
  hasAttribute r name (removeAttribute r name n) = false.
Proof.
  unfold hasAttribute, removeAttribute. rewrite getHead_update by done.
  destruct (getHead r n) as [h|] eqn:Hh; simpl; [|done].
  unfold onElement.
  rewrite (bool_decide_eq_true_2 (ref h = r)) by (by eapply getHead_ref).
  simpl. rewrite lookup_delete_eq. apply bool_decide_eq_false_2.
  by intros [? ?].
Qed.

Lemma countClass_outputOf cls o n :
  countClass cls (outputOf o n)
  = match o with
    | Resolved _ => if bool_decide (cls = "mermaid-container") then 1 else 0
    | Rejected _ => if bool_decide (cls = "mermaid-error") then 1 else 0
    end.
Proof.
  destruct o; unfold outputOf; simpl.
  all: rewrite Nat.add_0_r; repeat case_bool_decide; try done.
  all: set_solver.
Qed.

Section observations.
Context (o : Outcome) (f : Frame) (next : option Frame) (n : nat).
Context (d0 d : Node).
Hypothesis inserted :
  insertAfter (preElement f) (outputOf o n) d0 = Some d.
Hypothesis next_old :
  match next with Some g => codeBlock g < n | None => True end.
Hypothesis pre_old : preElement f < n.
Hypothesis block_old : codeBlock f < n.

Lemma observed_nextSibling :
  nextSibling (preElement f) (mark next (finish o f d)) = Some (outputOf o n).
Proof.
  unfold nextSibling.
  assert (siblingAfter (preElement f) (finish o f d)
          = Some (Some (outputOf o n))) as Hfin.
  { unfold finish, classList_add, removeAttribute.
    destruct o as [svg|error].
    all: rewrite siblingAfter_update,
           (siblingAfter_insertAfter _ _ _ _ inserted) by done.
    all: cbv [fmap option_fmap option_map].
    all: rewrite update_outputOf by lia; done. }
  destruct next as [g|]; simpl; [|by rewrite Hfin].
  unfold setAttribute. rewrite siblingAfter_update, Hfin by done.
  cbv [fmap option_fmap option_map].
  rewrite update_outputOf by lia. done.
Qed.

Lemma observed_countClass cls :
  cls ≠ "mermaid-hidden" →
  countClass cls (mark next (finish o f d))
  = countClass cls d0 + countClass cls (outputOf o n).
Proof.
  clear next_old pre_old block_old.
  intros Hcls. rewrite <-(countClass_insertAfter _ _ _ _ _ inserted).
  trans (countClass cls (finish o f d)).
  - destruct next as [g|]; [|done]. by apply countClass_update.
  - unfold finish. destruct o.
    + apply countClass_update; try done. intros h.
      by apply classList_addH_other.
    + by apply countClass_update.
Qed.

Lemma observed_refs r : r ∈ refs d0 → r ∈ refs (mark next (finish o f d)).
Proof.
  clear next_old pre_old block_old. intros Hr.
  assert (r ∈ refs d) as Hd.
  { apply (refs_insertAfter _ _ _ _ _ inserted). by left. }
  assert (r ∈ refs (finish o f d)) as Hfin.
  { unfold finish, classList_add, removeAttribute.
    destruct o; by rewrite refs_update. }
  destruct next as [g|]; [|done]. simpl. unfold setAttribute.
  by rewrite refs_update.
Qed.

Lemma observed_pre : preElement f ∈ refs d0.
Proof.
  clear next_old pre_old block_old.
  assert (preElement f ∈ descendants d0) as Hp.
  { apply (insertAfter_is_Some _ (outputOf o n)). by rewrite inserted. }
  rewrite refs_unfold, elem_of_app. by right.
Qed.

Lemma observed_hasClass :
  hasClass (preElement f) "mermaid-hidden" (mark next (finish o f d))
  = match o with
    | Resolved _ => true
    | Rejected _ => hasClass (preElement f) "mermaid-hidden" d0
    end.
Proof.
  clear next_old block_old.
  trans (hasClass (preElement f) "mermaid-hidden" (finish o f d)).
  { destruct next as [g|]; [|done]. by apply hasClass_update. }
  pose proof observed_pre as Hpre. unfold finish. destruct o.
  - apply hasClass_classList_add.
    apply (refs_insertAfter _ _ _ _ _ inserted). by left.
  - unfold removeAttribute. rewrite hasClass_update by done.
    unfold hasClass.
    assert (getHead (preElement f) d = getHead (preElement f) d0) as ->;
      [|done].
    eapply getHead_insertAfter; [|exact inserted].
    rewrite refs_outputOf, list_elem_of_singleton. lia.
Qed.
End observations.

(** * Counting the outputs *)





(** * Scanning again *)






Lemma isMermaidCode_classList_addH h :
  isMermaidCode (classList_addH "mermaid-hidden" h) = isMermaidCode h.
Proof.
  unfold isMermaidCode. f_equal. apply bool_decide_ext.
  by apply classList_addH_other.
Qed.


Lemma step_nextRef l w w' : step l w = Some w' → nextRef w ≤ nextRef w'.
Proof.
  intros [(_&_&->)|[(c&w1&fr&_&_&Hloop&->)|(p&o&f&w1&fr&_&_&Hloop&->)]]%step_inv;
    simpl; [done|..].
  all: apply loop_document in Hloop as (-> & _).
  - done.
  - rewrite afterRender_nextRef. lia.
Qed.




(** * Every invocation returns *)

(** A suspended invocation returns after at most one settlement per block
    it has still to examine, and one for the render it awaits, whatever the
    outcomes of its renders. *)
Lemma invocation_ends p n :
  ∀ w f (outcomes : list Outcome),
    pending w p f →
    length (remaining f) < n →
    n ≤ length outcomes →
    ∃ k w', k ≤ n
            ∧ run (Settle p <$> take k outcomes) w = Some w'
            ∧ passes w' !! p = Some None.
Proof.
  induction n as [|n IH]; intros w f outcomes Hf Hlen Hout; [lia|].
  destruct outcomes as [|o outcomes]; simpl in Hout; [lia|].
  assert (step (Settle p o) w = Some (resume p f o w)) as Hstep.
  { simpl. unfold pending in Hf. by rewrite Hf. }
  pose proof (step_summary _ _ _ Hstep)
    as (k0 & bl & settled & fr & (-> & f' & Hf' & _ & Hpasses & ->) & _ & Hfr & _).
  unfold pending in Hf, Hf'. rewrite Hf in Hf'. injection Hf' as <-.
  assert (passes (resume p f o w) !! p = Some fr) as Hp.
  { rewrite Hpasses. apply list_lookup_insert_eq. by eapply lookup_lt_Some. }
  destruct fr as [g|].
  - destruct Hfr as [sk Hrem].
    destruct (IH (resume p f o w) g outcomes) as (k & w' & Hk & Hrun & Hend).
    + done.
    + rewrite Hrem, length_app in Hlen. simpl in Hlen. lia.
    + lia.
    + exists (S k), w'. split; [lia|]. split; [|done].
      simpl. unfold pending in Hf. rewrite Hf. simpl. exact Hrun.
  - exists 1, (resume p f o w). split; [lia|]. split; [|done].
    simpl. by rewrite Hf.
Qed.

(** * Further properties of the loop *)

(** ** White space *)

Lemma append_cons (a : ascii) (s t : string) :
  String a s +:+ t = String a (s +:+ t).
Proof. done. Qed.

Lemma append_empty_r (s : string) : s +:+ "" = s.
Proof.
  induction s as [|a s IH]; [done|]. by rewrite append_cons, IH.
Qed.









(** ** Attributes *)


Lemma hasAttribute_update r r' g name n :
  (∀ h, ref (g h) = ref h) →
  (∀ h, is_Some (attributes h !! name) → is_Some (attributes (g h) !! name)) →
  hasAttribute r name n = true →
  hasAttribute r name (update r' g n) = true.
Proof.
  intros Hg Hkeep. unfold hasAttribute. rewrite getHead_update by done.
  destruct (getHead r n) as [h|]; simpl; [|done].
  intros Hh%bool_decide_eq_true. apply bool_decide_eq_true.
  unfold onElement. destruct (bool_decide (ref h = r')); [|done].
  by apply Hkeep.
Qed.

Lemma hasAttribute_setAttribute_other r c name v n :
  hasAttribute r name n = true →
  hasAttribute r name (setAttribute c name v n) = true.
Proof.
  apply hasAttribute_update; [done|]. intros h [x Hx]. simpl.
  destruct (decide (name = name)); [|done].
  rewrite lookup_insert_eq. eauto.
Qed.

Lemma hasAttribute_setAttribute r name v n :
  r ∈ refs n → hasAttribute r name (setAttribute r name v n) = true.
Proof.
  intros [h Hh]%getHead_is_Some. unfold hasAttribute, setAttribute.
  rewrite getHead_update, Hh by done. simpl. unfold onElement.
  rewrite (bool_decide_eq_true_2 (ref h = r)) by (by eapply getHead_ref).
  simpl. rewrite lookup_insert_eq. apply bool_decide_eq_true_2. eauto.
Qed.

Lemma hasAttribute_insertAfter r name p new n n' :
  r ∉ refs new →
  insertAfter p new n = Some n' →
  hasAttribute r name n' = hasAttribute r name n.
Proof.
  intros Hr Hins. unfold hasAttribute.
  by rewrite (getHead_insertAfter _ _ _ _ _ Hr Hins).
Qed.

Lemma hasAttribute_mark r next d :
  hasAttribute r PROCESSED d = true →
  hasAttribute r PROCESSED (mark next d) = true.
Proof.
  destruct next as [g|]; [|done]. apply hasAttribute_setAttribute_other.
Qed.

Lemma hasAttribute_finish_Resolved r svg f d :
  hasAttribute r PROCESSED (finish (Resolved svg) f d)
  = hasAttribute r PROCESSED d.
Proof.
  unfold finish, classList_add, hasAttribute.
  rewrite getHead_update by done.
  destruct (getHead r d) as [h|]; simpl; [|done].
  unfold onElement. by destruct (bool_decide (ref h = preElement f)).
Qed.

Lemma hasAttribute_finish r o f d :
  r ≠ codeBlock f →
  hasAttribute r PROCESSED (finish o f d) = hasAttribute r PROCESSED d.
Proof.
  intros Hne. destruct o; [apply hasAttribute_finish_Resolved|].
  by apply hasAttribute_update_ne.
Qed.

(** ** One step, seen from the document *)

Lemma calledBlocks_app h1 h2 :
  calledBlocks (h1 ++ h2) = calledBlocks h1 ++ calledBlocks h2.
Proof. apply bind_app. Qed.

Lemma renderCalls_app h1 h2 :
  renderCalls (h1 ++ h2) = renderCalls h1 ++ renderCalls h2.
Proof. apply bind_app. Qed.

(** The invocation [k] that runs in the step goes from the document [d0]
    (the document before the step or, when a render settles, the document
    at the end of the [finally] block) to its next [await], where it has
    marked the block [codeBlock g] that passed the checks in [d0], or to its
    end. *)
Lemma step_shape l w w' :
  sound w →
  step l w = Some w' →
  ∃ k d0 fr evs,
    passes w' !! k = Some fr
    ∧ (∀ q, q ≠ k → passes w' !! q = passes w !! q)
    ∧ document w' = mark fr d0
    ∧ history w'
      = history w ++ evs
        ++ match fr with
           | Some g =>
               [RenderCalled k (codeBlock g) (diagramId g) (mermaidSource g)]
           | None => []
           end
    ∧ match fr with
      | Some g =>
          ∃ pre, checks (codeBlock g) d0 = Some (pre, mermaidSource g)
                 ∧ ref pre = preElement g
      | None => True
      end
    ∧ match l with
      | Invoke =>
          k = length (passes w) ∧ d0 = document w ∧ evs = []
          ∧ match fr with
            | Some g =>
                Forall (λ c, c ∈ match containerRef w with
                                  | Some container =>
                                      querySelectorAll container (document w)
                                  | None => []
                                  end) (codeBlock g :: remaining g)
            | None => True
            end
      | Settle p o =>
          k = p
          ∧ ∃ f d,
              pending w p f
              ∧ insertAfter (preElement f) (outputOf o (nextRef w))
                  (document w) = Some d
              ∧ d0 = finish o f d
              ∧ evs = [RenderSettled p (codeBlock f) (diagramId f) o]
              ∧ match fr with
                | Some g =>
                    Forall (λ c, c ∈ remaining f) (codeBlock g :: remaining g)
                | None => True
                end
      end.
Proof.
  intros Hw Hstep.
  pose proof Hstep
    as [(->&Hc&->)|[(c&w1&fr&->&Hc&Hloop&->)|(p&o&f&w1&fr&->&Hf&Hloop&->)]]%step_inv.
  - exists (length (passes w)), (document w), None, []. simpl.
    split_and!; try done.
    + by rewrite lookup_app_r, Nat.sub_diag by done.
    + intros q Hq. destruct (decide (q < length (passes w))).
      * by rewrite lookup_app_l.
      * rewrite !lookup_ge_None_2; [done|lia|rewrite length_app; simpl; lia].
    + by rewrite app_nil_r.
  - pose proof (loop_passes _ _ _ _ _ Hloop) as Hp.
    exists (length (passes w)), (document w), fr, []. simpl. rewrite Hp.
    apply loop_spec in Hloop
      as [(->&_&->)|(sk&b&rest&pre&src&Hbl&_&Hchk&_&->&->)].
    + split_and!; try done.
      * by rewrite lookup_app_r, Nat.sub_diag by done.
      * intros q Hq. destruct (decide (q < length (passes w))).
        -- by rewrite lookup_app_l.
        -- rewrite !lookup_ge_None_2; [done|lia|rewrite length_app; simpl; lia].
      * by rewrite app_nil_r.
    + split_and!; try done.
      * by rewrite lookup_app_r, Nat.sub_diag by done.
      * intros q Hq. destruct (decide (q < length (passes w))).
        -- by rewrite lookup_app_l.
        -- rewrite !lookup_ge_None_2; [done|lia|rewrite length_app; simpl; lia].
      * by exists pre.
      * rewrite Hc, Hbl. apply Forall_forall. intros x Hx.
        apply elem_of_app. by right.
  - destruct (settle_document _ _ _ _ _ Hw Hf Hstep)
      as (d & next & Hd & Hdoc0 & Hdoc & _ & _ & _ & _ & Hnext).
    pose proof (loop_passes _ _ _ _ _ Hloop) as Hp.
    rewrite afterRender_passes in Hp.
    assert (p < length (passes w)) as Hlt by (by eapply lookup_lt_Some).
    simpl in Hnext. rewrite Hp, list_lookup_insert_eq in Hnext by done.
    injection Hnext as <-.
    pose proof (afterRender_history p f o w) as Hh0.
    revert Hdoc0 Hh0 Hloop. generalize (afterRender p f o w).
    intros w0 Hdoc0 Hh0 Hloop.
    exists p, (finish o f d), fr,
      [RenderSettled p (codeBlock f) (diagramId f) o].
    simpl in *. rewrite Hp.
    apply loop_spec in Hloop
      as [(->&_&->)|(sk&b&rest&pre&src&Hbl&_&Hchk&_&->&->)]; simpl.
    + rewrite Hh0. split_and!; try done.
      * by apply list_lookup_insert_eq.
      * intros q Hq. by apply list_lookup_insert_ne.
      * by exists f, d.
    + rewrite Hh0, <-(assoc_L (++)). split_and!; try done.
      * by apply list_lookup_insert_eq.
      * intros q Hq. by apply list_lookup_insert_ne.
      * exists pre. by rewrite <-Hdoc0.
      * exists f, d. split_and!; try done. rewrite Hbl.
        apply Forall_forall. intros x Hx. apply elem_of_app. by right.
Qed.

(** The component adds no element [code.language-mermaid] to the container
    and removes none. *)
Lemma querySelectorAll_mark next d :
  querySelectorAll 0 (mark next d) = querySelectorAll 0 d.
Proof.
  destruct next as [g|]; [|done]. simpl. unfold setAttribute.
  by apply querySelectorAll_update.
Qed.

Lemma querySelectorAll_finish o f d :
  querySelectorAll 0 (finish o f d) = querySelectorAll 0 d.
Proof.
  destruct o; simpl.
  - unfold classList_add. apply querySelectorAll_update; [done|].
    apply isMermaidCode_classList_addH.
  - unfold removeAttribute. by apply querySelectorAll_update.
Qed.

Lemma step_querySelectorAll l w w' :
  sound w → 0 < nextRef w →
  step l w = Some w' →
  querySelectorAll 0 (document w') = querySelectorAll 0 (document w).
Proof.
  intros Hw Hpos Hstep.
  destruct (step_shape _ _ _ Hw Hstep)
    as (k & d0 & fr & evs & _ & _ & -> & _ & _ & Hl).
  rewrite querySelectorAll_mark. destruct l as [|p o].
  - by destruct Hl as (_ & -> & _).
  - destruct Hl as (_ & f & d & _ & Hd & -> & _).
    rewrite querySelectorAll_finish.
    eapply querySelectorAll_insertAfter; [|apply select_outputOf|exact Hd].
    rewrite refs_outputOf, list_elem_of_singleton. lia.
Qed.

(** ** What a suspended invocation holds on to *)

Lemma parent_update c r g d pre0 tag :
  (∀ h, ref (g h) = ref h) →
  (∀ h, tagName (g h) = tagName h) →
  (∃ pre, parentElement c d = Some pre ∧ ref pre = pre0 ∧ tagName pre = tag) →
  ∃ pre, parentElement c (update r g d) = Some pre
         ∧ ref pre = pre0 ∧ tagName pre = tag.
Proof.
  intros Hr Ht (pre & Hp & <- & <-). rewrite parentElement_update, Hp by done.
  simpl. exists (onElement r g pre). unfold onElement.
  destruct (bool_decide (ref pre = r)); by rewrite ?Hr, ?Ht.
Qed.

Lemma parent_mark c next d pre0 tag :
  (∃ pre, parentElement c d = Some pre ∧ ref pre = pre0 ∧ tagName pre = tag) →
  ∃ pre, parentElement c (mark next d) = Some pre
         ∧ ref pre = pre0 ∧ tagName pre = tag.
Proof.
  destruct next as [g|]; [|done]. simpl. by apply parent_update.
Qed.

Lemma parent_finish c o f d pre0 tag :
  (∃ pre, parentElement c d = Some pre ∧ ref pre = pre0 ∧ tagName pre = tag) →
  ∃ pre, parentElement c (finish o f d) = Some pre
         ∧ ref pre = pre0 ∧ tagName pre = tag.
Proof. destruct o; simpl; by apply parent_update. Qed.

Lemma checks_refs c d x : checks c d = Some x → c ∈ refs d.
Proof.
  destruct x as [pre src]. intros (_ & Hp & _)%checks_Some.
  rewrite refs_unfold, elem_of_app. right.
  apply parentElement_is_Some. eauto.
Qed.

Lemma calledBlocks_step (h h' : list Event) k fr evs :
  h' = h ++ evs
       ++ match fr with
          | Some g =>
              [RenderCalled k (codeBlock g) (diagramId g) (mermaidSource g)]
          | None => []
          end →
  Forall (λ e, isSettled e = true) evs →
  calledBlocks h'
  = calledBlocks h ++ match fr with Some g => [codeBlock g] | None => [] end
  ∧ renderCalls h'
    = renderCalls h
      ++ match fr with
         | Some g => [(diagramId g, mermaidSource g)]
         | None => []
         end.
Proof.
  intros -> Hevs. rewrite !calledBlocks_app, !renderCalls_app.
  assert (calledBlocks evs = [] ∧ renderCalls evs = []) as [-> ->].
  { clear -Hevs. induction Hevs as [|e evs He _ [IH1 IH2]]; [done|].
    destruct e; [done|]. split; [apply IH1|apply IH2]. }
  by destruct fr.
Qed.

Lemma step_settled l w w' k d0 fr evs :
  match l with
  | Invoke =>
      k = length (passes w) ∧ d0 = document w ∧ evs = []
      ∧ match fr with
        | Some g =>
            Forall (λ c, c ∈ match containerRef w with
                              | Some container =>
                                  querySelectorAll container (document w)
                              | None => []
                              end) (codeBlock g :: remaining g)
        | None => True
        end
  | Settle p o =>
      k = p
      ∧ ∃ f d,
          pending w p f
          ∧ insertAfter (preElement f) (outputOf o (nextRef w))
              (document w) = Some d
          ∧ d0 = finish o f d
          ∧ evs = [RenderSettled p (codeBlock f) (diagramId f) o]
          ∧ match fr with
            | Some g =>
                Forall (λ c, c ∈ remaining f) (codeBlock g :: remaining g)
            | None => True
            end
  end →
  step l w = Some w' →
  Forall (λ e, isSettled e = true) evs.
Proof.
  intros Hl _. destruct l as [|p o].
  - by destruct Hl as (_ & _ & -> & _).
  - destruct Hl as (_ & f & d & _ & _ & _ & -> & _). by apply Forall_singleton.
Qed.


Lemma held_step l w w' : sound w → held w → step l w = Some w' → held w'.
Proof.
  intros Hw [Hpos Hcont Hblock Hcalled Hmark Hpre Huniq] Hstep.
  destruct (step_shape _ _ _ Hw Hstep)
    as (k & d0 & fr & evs & Hk & Hother & Hdoc & Hhist & Hfr & Hl).
  assert (Forall (λ e, isSettled e = true) evs) as Hevs
    by (by eapply step_settled).
  destruct (calledBlocks_step _ _ k fr evs Hhist Hevs) as [Hcalls _].
  pose proof (step_querySelectorAll _ _ _ Hw Hpos Hstep) as Hq.
  pose proof (step_nextRef _ _ _ Hstep) as Hnext.
  pose proof (step_summary _ _ _ Hstep) as (_&_&_&_&_&_&_&Hc').
  assert (∀ q f', q ≠ k → pending w q f' →
            hasAttribute (codeBlock f') PROCESSED d0 = true
            ∧ ∃ pre, parentElement (codeBlock f') d0 = Some pre
                     ∧ ref pre = preElement f' ∧ tagName pre = "PRE") as Hold.
  { intros q f' Hq' Hf'. destruct l as [|p o].
    - destruct Hl as (_ & -> & _). split; [by eapply Hmark|by eapply Hpre].
    - destruct Hl as (-> & f & d & Hf & Hd & -> & _).
      assert (codeBlock f' ≠ codeBlock f) as Hne.
      { intros Heq. by apply Hq', (Huniq q p f' f). }
      assert (codeBlock f' ∉ refs (outputOf o (nextRef w))) as Hfresh.
      { rewrite refs_outputOf, list_elem_of_singleton.
        destruct (sound_frames _ Hw q f' Hf') as (_ & _ & Hall).
        apply Forall_cons in Hall as [? _]. lia. }
      split.
      + rewrite hasAttribute_finish by done.
        rewrite (hasAttribute_insertAfter _ _ _ _ _ _ Hfresh Hd).
        by eapply Hmark.
      + apply parent_finish.
        rewrite (parentElement_insertAfter _ _ _ _ _ Hfresh Hd).
        by eapply Hpre. }
  assert (∀ q f', q ≠ k → pending w' q f' → pending w q f') as Hback.
  { intros q f' Hq' Hf'. unfold pending in *. by rewrite <-(Hother _ Hq'). }
  split.
  - lia.
  - intros c. rewrite Hc'. apply Hcont.
  - intros q f' Hf'. rewrite Hq. destruct (decide (q = k)) as [->|Hne].
    + unfold pending in Hf'. rewrite Hk in Hf'. injection Hf' as ->.
      destruct l as [|p o].
      * destruct Hl as (_ & _ & _ & Hall).
        destruct (containerRef w) as [c|] eqn:Hc.
        -- by rewrite (Hcont c eq_refl) in Hall.
        -- apply Forall_cons in Hall as [Hin _]. by apply elem_of_nil in Hin.
      * destruct Hl as (_ & f & d & Hf & _ & _ & _ & Hall).
        eapply Forall_impl; [exact Hall|]. simpl. intros c Hc.
        pose proof (Hblock _ _ Hf) as Hbl. apply Forall_cons in Hbl as [_ Hbl].
        by eapply Forall_forall in Hbl.
    + eapply Hblock, Hback; done.
  - rewrite Hq, Hcalls. apply Forall_app. split; [done|].
    destruct fr as [g|]; [|done]. apply Forall_singleton.
    destruct l as [|p o].
    + destruct Hl as (_ & _ & _ & Hall).
      destruct (containerRef w) as [c|] eqn:Hc.
      * rewrite (Hcont c eq_refl) in Hall. by apply Forall_cons in Hall as [? _].
      * apply Forall_cons in Hall as [Hin _]. by apply elem_of_nil in Hin.
    + destruct Hl as (_ & f & d & Hf & _ & _ & _ & Hall).
      apply Forall_cons in Hall as [Hin _].
      pose proof (Hblock _ _ Hf) as Hbl. apply Forall_cons in Hbl as [_ Hbl].
      by eapply Forall_forall in Hbl.
  - intros q f' Hf'. rewrite Hdoc. destruct (decide (q = k)) as [->|Hne].
    + unfold pending in Hf'. rewrite Hk in Hf'. injection Hf' as ->.
      destruct Hfr as (pre & Hchk & _). simpl.
      apply hasAttribute_setAttribute. by eapply checks_refs.
    + apply hasAttribute_mark. by eapply Hold, Hback.
  - intros q f' Hf'. rewrite Hdoc. apply parent_mark.
    destruct (decide (q = k)) as [->|Hne].
    + unfold pending in Hf'. rewrite Hk in Hf'. injection Hf' as ->.
      destruct Hfr as (pre & (_ & Hp & Ht & _)%checks_Some & Href). eauto.
    + by eapply Hold, Hback.
  - intros i j f1 f2 Hf1 Hf2 Heq.
    destruct (decide (i = k)) as [->|Hi], (decide (j = k)) as [->|Hj];
      [done|..].
    + unfold pending in Hf1. rewrite Hk in Hf1. injection Hf1 as ->.
      destruct Hfr as (pre & (Hno & _)%checks_Some & _).
      destruct (Hold j f2 Hj (Hback _ _ Hj Hf2)) as [Hyes _].
      congruence.
    + unfold pending in Hf2. rewrite Hk in Hf2. injection Hf2 as ->.
      destruct Hfr as (pre & (Hno & _)%checks_Some & _).
      destruct (Hold i f1 Hi (Hback _ _ Hi Hf1)) as [Hyes _].
      congruence.
    + eapply Huniq; [by apply Hback|by apply Hback|done].
Qed.

Lemma held_initial content : held (initial content).
Proof.
  split; simpl; try done.
  - lia.
  - by intros c [= <-].
Qed.

Lemma held_reachable content tr w :
  run tr (initial content) = Some w → sound w ∧ held w.
Proof.
  apply (run_invariant (λ w', sound w' ∧ held w')).
  - intros l w1 w2 [Hs Hh] Hstep. split.
    + by eapply sound_step.
    + by eapply held_step.
  - split; [apply sound_initial|apply held_initial].
Qed.

(** ** When no render fails *)





(** ** The texts passed to the renderer *)



(** ** Counting the renders *)

Lemma settled_app h1 h2 : settled (h1 ++ h2) = settled h1 + settled h2.
Proof. unfold settled. by rewrite filter_app, length_app. Qed.







(** ** The outputs, counted *)




(** * The properties of the scan-and-render operation *)



(** C9.  When [containerRef.current] is [null], [processMermaidBlocks]
    returns at once: the renderer is not called, the DOM, the Rendering Set
    and the identifier counter are unchanged, and no render is awaited. *)
Theorem absent_container_noop w :
  containerRef w = None →
  step Invoke w = Some (processMermaidBlocks w)
  ∧ history (processMermaidBlocks w) = history w
  ∧ document (processMermaidBlocks w) = document w
  ∧ nextRef (processMermaidBlocks w) = nextRef w
  ∧ renderingRef (processMermaidBlocks w) = renderingRef w
  ∧ mermaidIdCounter (processMermaidBlocks w) = mermaidIdCounter w
  ∧ passes (processMermaidBlocks w) = passes w ++ [None].
Proof.
  intros Hnull. simpl. unfold processMermaidBlocks. rewrite Hnull. done.
Qed.

Lemma absent_container_noop_witness :
  containerRef (mkWorld (Elem containerHead pair) 5 None ∅ 0 [] []) = None
  ∧ document
      (processMermaidBlocks (mkWorld (Elem containerHead pair) 5 None ∅ 0 [] []))
    = Elem containerHead pair.
Proof.
  split; [reflexivity|].
  apply (absent_container_noop
           (mkWorld (Elem containerHead pair) 5 None ∅ 0 [] [])).
  reflexivity.
Defined.

(** C10.  A block that passes the three checks costs one identifier,
    whether it is then rendered or skipped because its text is in the
    Rendering Set (in which case nothing else happens).  Hence, in every
    reachable world, the identifiers passed to the renderer are those of
    strictly increasing values of the counter: they are pairwise distinct,
    the identifier of any further call (a retried block, for one) is not
    among them, and they need not be consecutive: on the page
    [twinsAndOne] two overlapping invocations render with the identifiers
    1 and 3, the identifier 2 being spent on a skipped block. *)
Theorem identifiers_spent_and_fresh content tr w :
  run tr (initial content) = Some w →
  (∀ pass c pre src,
      checks c (document w) = Some (pre, src) →
      mermaidIdCounter (examine pass c w).1 = S (mermaidIdCounter w)
      ∧ (src ∈ renderingRef w →
         examine pass c w = (advanceCounter 1 w, None)))
  ∧ (∃ ns, callIds (history w) = mermaidId <$> ns
           ∧ StronglySorted lt ns
           ∧ Forall (λ n, 0 < n ≤ mermaidIdCounter w) ns)
  ∧ NoDup (callIds (history w))
  ∧ (∀ pass c w' pre src id,
        examine pass c w = (w', Some (pre, src, id)) →
        id = mermaidId (S (mermaidIdCounter w))
        ∧ id ∉ callIds (history w))
  ∧ callIds <$> (history <$> run [Invoke; Invoke] (initial twinsAndOne))
    = Some [mermaidId 1; mermaidId 3].
Proof.
  intros Hnum%numbered_reachable. split_and!.
  - intros pass c pre src Hc.
    pose proof (examine_spec pass c w) as Hspec. rewrite Hc in Hspec.
    case_bool_decide; rewrite Hspec; done.
  - done.
  - by apply numbered_NoDup.
  - intros pass c w' pre src id Hex.
    pose proof (examine_spec pass c w) as Hspec. rewrite Hex in Hspec.
    destruct (checks c (document w)) as [[pre' src']|]; [|done].
    case_bool_decide; [done|]. simplify_eq. split; [done|].
    destruct Hnum as (ns & -> & _ & Hall).
    intros (n & Heq%mermaidId_inj & Hn)%list_elem_of_fmap.
    eapply Forall_forall in Hall; [|done]. lia.
  - vm_compute. reflexivity.
Qed.

Lemma identifiers_spent_and_fresh_witness :
  run [Invoke; Invoke] (initial twinsAndOne)
  = Some (processMermaidBlocks (processMermaidBlocks (initial twinsAndOne)))
  ∧ NoDup (callIds (history (processMermaidBlocks
                               (processMermaidBlocks (initial twinsAndOne))))).
Proof.
  split; [vm_compute; reflexivity|].
  apply (identifiers_spent_and_fresh twinsAndOne [Invoke; Invoke]).
  vm_compute; reflexivity.
Defined.

(** C1, as the specification states it, fails: on the page [twins] (two
    blocks with the text [graph TD; A-->B]) one pass, running alone, calls
    the renderer twice for that text, the second time once the first render
    has settled and its text has left the Rendering Set. *)
Lemma twins_rendered_twice :
  renderCalls <$>
    (history <$>
       run [Invoke; Settle 0 (Resolved "<svg>1</svg>");
            Settle 0 (Resolved "<svg>2</svg>")] (initial twins))
  = Some [("mermaid-diagram-1", "graph TD; A-->B");
          ("mermaid-diagram-2", "graph TD; A-->B")]
  ∧ ¬ one_call_for_identical_text.
Proof.
  split; [vm_compute; reflexivity|].
  intros Hspec.
  destruct (run (Invoke :: (Settle 0 <$> [Resolved "<svg>1</svg>";
                                          Resolved "<svg>2</svg>"]))
              (initial twins)) as [w|] eqn:Hrun; [|by vm_compute in Hrun].
  specialize (Hspec twins 2 4 (mkHead 1 "PRE" [] ∅) (mkHead 3 "PRE" [] ∅)
                "graph TD; A-->B"
                [Resolved "<svg>1</svg>"; Resolved "<svg>2</svg>"] w).
  vm_compute in Hrun. injection Hrun as <-.
  discriminate Hspec; try (vm_compute; reflexivity).
  - done.
  - apply list_elem_of_here.
  - apply list_elem_of_further, list_elem_of_here.
Qed.

(** C1, amended.  In a pass that runs alone, every identifier generated went
    to a render call: no block that passed the three checks was skipped by
    the Rendering Set check, which sees an empty set whenever the pass is
    resumed, so that blocks with the text of an earlier block of the pass
    are rendered too, one call after the other.  The Rendering Set check
    skips a block (no mark, no call, the identifier is lost) exactly when
    its text is in the set, and a text is in the set, in any reachable
    world, exactly when a render of it, started by a suspended invocation,
    is in flight. *)
Theorem rendering_set_check_defers_to_other_invocations content outcomes w :
  run (Invoke :: (Settle 0 <$> outcomes)) (initial content) = Some w →
  length (renderCalls (history w)) = mermaidIdCounter w
  ∧ (∀ f o, pending w 0 f → renderingRef (afterRender 0 f o w) = ∅)
  ∧ (∀ pass c pre src (w0 : World),
        renderingRef w0 = ∅ →
        checks c (document w0) = Some (pre, src) →
        ∃ w1 id, examine pass c w0 = (w1, Some (ref pre, src, id))
                 ∧ document w1 = setAttribute c PROCESSED "true" (document w0)
                 ∧ history w1 = history w0 ++ [RenderCalled pass c id src])
  ∧ (∀ pass c pre src,
        checks c (document w) = Some (pre, src) →
        (src ∈ renderingRef w ↔ examine pass c w = (advanceCounter 1 w, None))
        ∧ (src ∈ renderingRef w ↔ inFlight w src)).
Proof.
  intros Hrun. pose proof (alone_run _ _ _ Hrun) as [Hlen Hcalls Hrend].
  apply coherent_reachable in Hrun as [_ Hset]. split_and!.
  - done.
  - intros f o Hf. unfold pending in Hf. rewrite Hf in Hrend.
    rewrite afterRender_rendering, Hrend. set_solver.
  - intros pass c pre src w0 Hempty Hc.
    pose proof (examine_spec pass c w0) as Hspec. rewrite Hc in Hspec.
    rewrite Hempty in Hspec. rewrite bool_decide_eq_false_2 in Hspec
      by apply not_elem_of_empty.
    eexists _, _. split; [exact Hspec|]. done.
  - intros pass c pre src Hc. split; [|apply Hset].
    pose proof (examine_spec pass c w) as Hspec. rewrite Hc in Hspec.
    case_bool_decide as Hin; rewrite Hspec; [done|].
    split; [done|]. intros [= _ ?].
Qed.

Lemma rendering_set_check_defers_to_other_invocations_witness :
  run (Invoke :: (Settle 0 <$> [Resolved "<svg>1</svg>"])) (initial twins)
  = Some (resume 0 (mkFrame [4] 2 1 "graph TD; A-->B" "mermaid-diagram-1")
            (Resolved "<svg>1</svg>") (processMermaidBlocks (initial twins)))
  ∧ length (renderCalls
              (history
                 (resume 0
                    (mkFrame [4] 2 1 "graph TD; A-->B" "mermaid-diagram-1")
                    (Resolved "<svg>1</svg>")
                    (processMermaidBlocks (initial twins)))))
    = mermaidIdCounter
        (resume 0 (mkFrame [4] 2 1 "graph TD; A-->B" "mermaid-diagram-1")
           (Resolved "<svg>1</svg>") (processMermaidBlocks (initial twins))).
Proof.
  split; [vm_compute; reflexivity|].
  apply (rendering_set_check_defers_to_other_invocations twins
           [Resolved "<svg>1</svg>"]).
  vm_compute; reflexivity.
Defined.

(** C2, as the specification states it, fails: on the page [pair] (two
    blocks with different texts) the pass calls the renderer for the second
    block only once the render of the first has settled. *)
Lemma second_render_waits_for_the_first :
  history <$>
    run [Invoke; Settle 0 (Resolved "<svg>1</svg>");
         Settle 0 (Resolved "<svg>2</svg>")] (initial pair)
  = Some [RenderCalled 0 2 "mermaid-diagram-1" "graph TD; A-->B";
          RenderSettled 0 2 "mermaid-diagram-1" (Resolved "<svg>1</svg>");
          RenderCalled 0 4 "mermaid-diagram-2" "graph LR; X-->Y";
          RenderSettled 0 4 "mermaid-diagram-2" (Resolved "<svg>2</svg>")]
  ∧ ¬ later_render_starts_before_earlier_settles.
Proof.
  split; [vm_compute; reflexivity|].
  intros Hspec.
  destruct (run [Invoke; Settle 0 (Resolved "<svg>1</svg>");
                 Settle 0 (Resolved "<svg>2</svg>")] (initial pair))
    as [w|] eqn:Hrun; [|by vm_compute in Hrun].
  specialize (Hspec pair _ w 0 0 2 1 2 4
                "mermaid-diagram-1" "mermaid-diagram-2"
                "graph TD; A-->B" "graph LR; X-->Y" (Resolved "<svg>1</svg>")
                Hrun).
  vm_compute in Hrun. injection Hrun as <-.
  assert (2 < 1) as Habsurd; [|lia].
  apply Hspec; try reflexivity; [lia|discriminate].
Qed.

(** C2, amended.  The renders of one invocation are strictly sequential:
    among the events of an invocation each call of the renderer is followed
    by its settlement before the next call (the loop awaits each render
    before it examines the next block), and the blocks an invocation
    renders follow the document order of the blocks it enumerated when it
    was called. *)
Theorem renders_of_a_pass_are_sequential content tr1 tr2 w1 w :
  run tr1 (initial content) = Some w1 →
  run (Invoke :: tr2) w1 = Some w →
  (∀ p, sequential (filter (ofPass p) (history w)))
  ∧ callBlocks (length (passes w1)) (history w)
    `sublist_of` querySelectorAll 0 (document w1).
Proof.
  intros Hrun1 Hrun2. split.
  - intros p. apply orderly_sequential.
    apply (orderly_reachable content (tr1 ++ Invoke :: tr2)).
    by rewrite run_app, Hrun1.
  - pose proof (orderly_reachable _ _ _ Hrun1) as Hord.
    pose proof (containerRef_reachable _ _ _ Hrun1) as Hc.
    simpl in Hrun2.
    pose proof (inOrder_invoke w1 0 Hord Hc) as Hstart.
    revert Hstart Hrun2.
    generalize (processMermaidBlocks w1). intros w2 Hstart Hrun2.
    assert (length (passes w1) < length (passes w)
            ∧ inOrder (length (passes w1))
                (querySelectorAll 0 (document w1)) w) as [_ Hfinal].
    { eapply (run_invariant
                (λ w', length (passes w1) < length (passes w')
                       ∧ inOrder (length (passes w1))
                           (querySelectorAll 0 (document w1)) w'));
        [|exact Hstart|exact Hrun2].
      intros l wa wb [??] ?. by eapply inOrder_step. }
    unfold inOrder in Hfinal. etrans; [|exact Hfinal].
    by apply sublist_inserts_r.
Qed.

Lemma renders_of_a_pass_are_sequential_witness :
  run [] (initial pair) = Some (initial pair)
  ∧ run [Invoke; Settle 0 (Rejected OtherValue)] (initial pair)
    = Some (resume 0 (mkFrame [4] 2 1 "graph TD; A-->B" "mermaid-diagram-1")
              (Rejected OtherValue) (processMermaidBlocks (initial pair)))
  ∧ callBlocks 0
      (history
         (resume 0 (mkFrame [4] 2 1 "graph TD; A-->B" "mermaid-diagram-1")
            (Rejected OtherValue) (processMermaidBlocks (initial pair))))
    `sublist_of` [2; 4].
Proof.
  split; [reflexivity|]. split; [vm_compute; reflexivity|].
  apply (renders_of_a_pass_are_sequential pair []
           [Settle 0 (Rejected OtherValue)] (initial pair)).
  - reflexivity.
  - vm_compute; reflexivity.
Defined.



(** C4.  When the render awaited by a suspended invocation is rejected,
    the invocation is resumed all the same (the rejection is handled in the
    [catch] block and goes no further) and, once it has run on to its next
    [await]: the next sibling of the [pre] is a new [div] of class
    [mermaid-error] whose text is [Mermaid Error: ] followed by the message
    of the error, or by [Failed to render diagram] when the thrown value is
    not an [Error]; there is exactly one more element of that class, and no
    more diagram output; the [pre] has the class [mermaid-hidden] only if it
    had it before.  At the end of the [finally] block the block has no
    processed attribute (the checks of a later scan do not stop at the
    mark), and it still has none when the invocation is suspended again,
    unless it is this very block the invocation is rendering then; the
    text of the block has left the Rendering Set; and the loop goes on
    with the remaining blocks: a next block that passes the checks there,
    with a text not in the Rendering Set, is the one the invocation renders
    next. *)
Theorem failed_render_output content tr w pass f error w' :
  run tr (initial content) = Some w →
  pending w pass f →
  step (Settle pass (Rejected error)) w = Some w' →
  nextSibling (preElement f) (document w')
  = Some (Elem (mkHead (nextRef w) "DIV" ["mermaid-error"] ∅)
            [Text ("Mermaid Error: " +:+
                   match error with
                   | ErrorInstance message => message
                   | OtherValue => "Failed to render diagram"
                   end)])
  ∧ (nextRef w ∉ refs (document w))
  ∧ countClass "mermaid-error" (document w')
    = S (countClass "mermaid-error" (document w))
  ∧ countClass "mermaid-container" (document w')
    = countClass "mermaid-container" (document w)
  ∧ hasClass (preElement f) "mermaid-hidden" (document w')
    = hasClass (preElement f) "mermaid-hidden" (document w)
  ∧ hasAttribute (codeBlock f) PROCESSED
      (document (afterRender pass f (Rejected error) w)) = false
  ∧ ((∀ g, pending w' pass g → codeBlock g ≠ codeBlock f) →
     hasAttribute (codeBlock f) PROCESSED (document w') = false)
  ∧ (mermaidSource f ∉ renderingRef (afterRender pass f (Rejected error) w))
  ∧ (∀ r, r ∈ refs (document w) → r ∈ refs (document w'))
  ∧ (∀ c rest pre src,
        remaining f = c :: rest →
        checks c (document (afterRender pass f (Rejected error) w))
        = Some (pre, src) →
        src ∉ renderingRef (afterRender pass f (Rejected error) w) →
        ∃ id, pending w' pass (mkFrame rest c (ref pre) src id)).
Proof.
  intros Hw%sound_reachable Hf Hstep.
  destruct (settle_document _ _ _ _ _ Hw Hf Hstep)
    as (d & next & Hd & Hdoc0 & Hdoc & Hnext & Hpre & Hblock & Hin & Hpass).
  rewrite Hdoc, Hdoc0. split_and!.
  - by apply (observed_nextSibling _ _ _ _ _ _ Hd).
  - intros Hnew. pose proof (sound_fresh _ Hw) as Hfresh.
    eapply Forall_forall in Hfresh; [|done]. lia.
  - rewrite (observed_countClass _ _ _ _ _ _ Hd) by done.
    rewrite countClass_outputOf. simpl. lia.
  - rewrite (observed_countClass _ _ _ _ _ _ Hd) by done.
    rewrite countClass_outputOf. simpl. lia.
  - by rewrite (observed_hasClass _ _ _ _ _ _ Hd) by done.
  - apply hasAttribute_removeAttribute.
  - intros Hother. destruct next as [g|]; simpl.
    + unfold setAttribute. rewrite hasAttribute_update_ne; [|done|].
      * apply hasAttribute_removeAttribute.
      * intros Heq. by apply (Hother g).
    + apply hasAttribute_removeAttribute.
  - rewrite afterRender_rendering. set_solver.
  - intros r. by apply (observed_refs _ _ _ _ _ _ Hd).
  - intros c rest pre src Hrem Hc Hsrc. rewrite <-Hdoc0 in *.
    simpl in Hstep. unfold pending in Hf. rewrite Hf in Hstep.
    injection Hstep as <-. unfold resume. rewrite Hrem. simpl.
    pose proof (afterRender_passes pass f (Rejected error) w) as Hp.
    revert Hc Hsrc Hp. generalize (afterRender pass f (Rejected error) w).
    intros w0 Hc Hsrc Hp.
    pose proof (examine_spec pass c w0) as Hspec. rewrite Hc in Hspec.
    rewrite bool_decide_eq_false_2 in Hspec by done. rewrite Hspec.
    eexists. unfold pending. simpl. rewrite Hp.
    apply list_lookup_insert_eq. by eapply lookup_lt_Some.
Qed.

Lemma failed_render_output_witness :
  run [Invoke] (initial pair) = Some (processMermaidBlocks (initial pair))
  ∧ pending (processMermaidBlocks (initial pair)) 0
      (mkFrame [4] 2 1 "graph TD; A-->B" "mermaid-diagram-1")
  ∧ step (Settle 0 (Rejected (ErrorInstance "bad syntax")))
      (processMermaidBlocks (initial pair))
    = Some (resume 0 (mkFrame [4] 2 1 "graph TD; A-->B" "mermaid-diagram-1")
              (Rejected (ErrorInstance "bad syntax"))
              (processMermaidBlocks (initial pair)))
  ∧ nextSibling 1
      (document
         (resume 0 (mkFrame [4] 2 1 "graph TD; A-->B" "mermaid-diagram-1")
            (Rejected (ErrorInstance "bad syntax"))
            (processMermaidBlocks (initial pair))))
    = Some (Elem (mkHead 5 "DIV" ["mermaid-error"] ∅)
              [Text "Mermaid Error: bad syntax"]).
Proof.
  split; [vm_compute; reflexivity|].
  split; [vm_compute; reflexivity|].
  split; [vm_compute; reflexivity|].
  apply (failed_render_output pair [Invoke]
           (processMermaidBlocks (initial pair)) 0
           (mkFrame [4] 2 1 "graph TD; A-->B" "mermaid-diagram-1")
           (ErrorInstance "bad syntax")).
  - vm_compute; reflexivity.
  - vm_compute; reflexivity.
  - vm_compute; reflexivity.
Defined.



(** On that page the three failed attempts on the block have left three
    error outputs. *)
Example three_failures_three_outputs :
  failuresOf 2 (history afterThreeFailures) = 3
  ∧ countClass "mermaid-error" (document afterThreeFailures) = 3.
Proof. split; vm_compute; reflexivity. Qed.




(** * The configuration of the renderer *)

(** C7, as the specification states it, fails: when the first activation
    comes with a configuration (here the theme [dark]), the renderer is
    configured with the theme of the caller, not with the default one. *)
Lemma first_activation_takes_the_caller_configuration :
  (configuration
     (activate 0 (Some {[ "theme" := VString "dark" ]}) (mkRenderer false None))
   ≫= λ config, config !! "theme") = Some (VString "dark")
  ∧ ¬ first_activation_uses_the_defaults.
Proof.
  split; [vm_compute; reflexivity|].
  intros Hspec.
  specialize (Hspec 0 (Some {[ "theme" := VString "dark" ]})
                (mkRenderer false None) eq_refl).
  apply (f_equal (λ c, c ≫= λ config : gmap string Value, config !! "theme"))
    in Hspec.
  vm_compute in Hspec. discriminate Hspec.
Qed.

(** C7, amended.  On the first activation the renderer is configured with
    the defaults overridden, key by key, by the configuration of the caller
    when there is one, hence with the defaults alone (no rendering on load,
    the theme [default], the security level [loose], the inherited font
    family) when there is none; on a later activation a configuration of the
    caller is merged over the defaults in the same way, and an activation
    without configuration changes nothing.  The state is that of the page:
    the activation does not depend on the instance that runs it, and the
    configuration an instance gave is the one the renderer holds when
    another instance is activated without one. *)
Theorem renderer_configuration instance mermaidConfig m :
  configuration (activate instance mermaidConfig m)
  = (if mermaidInitialized m
     then match mermaidConfig with
          | Some config => Some (config ∪ defaultMermaidConfig)
          | None => configuration m
          end
     else Some (default ∅ mermaidConfig ∪ defaultMermaidConfig))
  ∧ mermaidInitialized (activate instance mermaidConfig m) = true
  ∧ (∀ (config : gmap string Value) key,
        (config ∪ defaultMermaidConfig) !! key
        = match config !! key with
          | Some v => Some v
          | None => defaultMermaidConfig !! key
          end)
  ∧ (∅ ∪ defaultMermaidConfig) !! "startOnLoad" = Some (VBool false)
  ∧ (∅ ∪ defaultMermaidConfig) !! "theme" = Some (VString "default")
  ∧ (∅ ∪ defaultMermaidConfig) !! "securityLevel" = Some (VString "loose")
  ∧ (∅ ∪ defaultMermaidConfig) !! "fontFamily" = Some (VString "inherit")
  ∧ (∀ other, activate other mermaidConfig m = activate instance mermaidConfig m)
  ∧ (∀ other config,
        configuration (activate other None (activate instance (Some config) m))
        = Some (config ∪ defaultMermaidConfig)).
Proof.
  split_and!.
  - unfold activate. by destruct (mermaidInitialized m), mermaidConfig.
  - unfold activate. destruct (mermaidInitialized m) eqn:Hm; simpl; [|done].
    by destruct mermaidConfig.
  - intros config key. rewrite lookup_union.
    destruct (config !! key) as [v|]; simpl.
    + by destruct (defaultMermaidConfig !! key).
    + by destruct (defaultMermaidConfig !! key).
  - vm_compute; reflexivity.
  - vm_compute; reflexivity.
  - vm_compute; reflexivity.
  - vm_compute; reflexivity.
  - done.
  - intros other config. unfold activate.
    destruct (mermaidInitialized m) eqn:Hm; simpl; by rewrite ?Hm.
Qed.

(** * Further properties of [processMermaidBlocks] *)



(** X1.  Every invocation of [processMermaidBlocks] returns: whatever the
    state of the page and whatever the outcomes of the renders, when the
    container holds [n] elements [code.language-mermaid] the invocation has
    run to the end of its loop after at most [n] of its renders have
    settled (none when no block passes the checks). *)
Theorem invocation_returns w container outcomes :
  containerRef w = Some container →
  length (querySelectorAll container (document w)) ≤ length outcomes →
  ∃ k w',
    k ≤ length (querySelectorAll container (document w))
    ∧ run (Invoke :: (Settle (length (passes w)) <$> take k outcomes)) w
      = Some w'
    ∧ passes w' !! length (passes w) = Some None.
Proof.
  intros Hc Hlen.
  pose proof (step_summary Invoke w _ eq_refl)
    as (k0 & bl & evs & fr & (-> & _ & Hps & ->) & _ & Hfr & _).
  rewrite Hc in Hfr.
  assert (passes (processMermaidBlocks w) !! length (passes w) = Some fr)
    as Hp.
  { by rewrite Hps, lookup_app_r, Nat.sub_diag by done. }
  destruct fr as [f|].
  - destruct Hfr as [sk Hbl].
    destruct (invocation_ends (length (passes w))
                (length (querySelectorAll container (document w)))
                (processMermaidBlocks w) f outcomes)
      as (k & w' & Hk & Hrun & Hend); [done| |done|].
    { rewrite Hbl, length_app. simpl. lia. }
    by exists k, w'.
  - exists 0, (processMermaidBlocks w). split; [lia|]. by rewrite take_0.
Qed.

Lemma invocation_returns_witness :
  containerRef (initial pair) = Some 0
  ∧ length (querySelectorAll 0 (document (initial pair)))
    ≤ length [Resolved "<svg>1</svg>"; Rejected OtherValue]
  ∧ ∃ k w',
      k ≤ length (querySelectorAll 0 (document (initial pair)))
      ∧ run (Invoke :: (Settle (length (passes (initial pair)))
                          <$> take k [Resolved "<svg>1</svg>";
                                      Rejected OtherValue]))
          (initial pair) = Some w'
      ∧ passes w' !! length (passes (initial pair)) = Some None.
Proof.
  split; [reflexivity|]. split; [vm_compute; lia|].
  apply (invocation_returns (initial pair) 0
           [Resolved "<svg>1</svg>"; Rejected OtherValue]).
  - reflexivity.
  - vm_compute; lia.
Defined.



(** X3.  While a render is in flight its block carries the processed mark,
    in every reachable world and whatever the other invocations do
    meanwhile: the block fails the checks of any scan, the invocation that
    is called now does not render it, and no two suspended invocations
    render the same block.  The block is an element
    [code.language-mermaid] of the container, and its parent is the [pre]
    the suspended invocation will insert the output after. *)
Theorem block_in_flight_is_marked content tr w p f :
  run tr (initial content) = Some w →
  pending w p f →
  hasAttribute (codeBlock f) PROCESSED (document w) = true
  ∧ checks (codeBlock f) (document w) = None
  ∧ codeBlock f ∈ querySelectorAll 0 (document w)
  ∧ (∃ pre, parentElement (codeBlock f) (document w) = Some pre
            ∧ ref pre = preElement f ∧ tagName pre = "PRE")
  ∧ (∀ q g, pending w q g → codeBlock g = codeBlock f → q = p)
  ∧ (∀ g, pending (processMermaidBlocks w) (length (passes w)) g →
          codeBlock g ≠ codeBlock f).
Proof.
  intros Hrun Hf.
  destruct (held_reachable _ _ _ Hrun) as [Hs Hh].
  pose proof (held_mark _ Hh _ _ Hf) as Hmark.
  split_and!.
  - done.
  - unfold checks. by rewrite Hmark.
  - pose proof (held_block _ Hh _ _ Hf) as Hall.
    by apply Forall_cons in Hall as [? _].
  - by eapply held_pre.
  - intros q g Hg Heq. by eapply (held_unique _ Hh q p g f).
  - intros g Hg Heq.
    assert (held (processMermaidBlocks w)) as Hh'.
    { by apply (held_step Invoke w). }
    pose proof (step_summary Invoke w _ eq_refl)
      as (k0 & bl & evs & fr & (_ & _ & Hps & _) & _).
    assert (pending (processMermaidBlocks w) p f) as Hf'.
    { unfold pending in *. rewrite Hps. by apply lookup_app_l_Some. }
    pose proof (held_unique _ Hh' _ _ _ _ Hg Hf' Heq) as <-.
    unfold pending in Hf. apply lookup_lt_Some in Hf. lia.
Qed.

Lemma block_in_flight_is_marked_witness :
  run [Invoke] (initial pair) = Some (processMermaidBlocks (initial pair))
  ∧ pending (processMermaidBlocks (initial pair)) 0
      (mkFrame [4] 2 1 "graph TD; A-->B" "mermaid-diagram-1")
  ∧ checks 2 (document (processMermaidBlocks (initial pair))) = None.
Proof.
  split; [vm_compute; reflexivity|].
  split; [vm_compute; reflexivity|].
  apply (block_in_flight_is_marked pair [Invoke]
           (processMermaidBlocks (initial pair)) 0
           (mkFrame [4] 2 1 "graph TD; A-->B" "mermaid-diagram-1")).
  - vm_compute; reflexivity.
  - vm_compute; reflexivity.
Defined.





(** ** The first scan renders the blocks that pass the checks *)











(** * The effect that schedules the scans *)

#[global] Arguments mutationsOf : simpl never.

Lemma mutationsOf_Invoke w w' :
  mutationsOf Invoke w w' = marking (length (passes w)) w'.
Proof. done. Qed.

Lemma world_enqueue ms s : world (enqueue ms s) = world s.
Proof. unfold enqueue. by destruct (observerRef s). Qed.

Lemma timers_enqueue ms s : timers (enqueue ms s) = timers s.
Proof. unfold enqueue. by destruct (observerRef s). Qed.

Lemma nextHandle_enqueue ms s : nextHandle (enqueue ms s) = nextHandle s.
Proof. unfold enqueue. by destruct (observerRef s). Qed.

Lemma cleanup_enqueue ms s : cleanup (enqueue ms s) = cleanup s.
Proof. unfold enqueue. by destruct (observerRef s). Qed.

Lemma world_observerEffect s : world (observerEffect s) = world s.
Proof. unfold observerEffect. by destruct (containerRef (world s)). Qed.

Lemma world_observerCleanup t s : world (observerCleanup t s) = world s.
Proof. unfold observerCleanup. simpl. by destruct (observerRef s). Qed.

Lemma world_observerCallback ms s : world (observerCallback ms s) = world s.
Proof. unfold observerCallback. by destruct (hasNewNodes ms). Qed.

(** An action changes the world by a step of [processMermaidBlocks], or it
    resets the reference to the container, or it leaves the world alone. *)
Lemma act_world a s s' :
  act a s = Some s' →
  match labelOf a with
  | Some l => step l (world s) = Some (world s')
  | None => world s' = world s ∨ (a = Detach ∧ world s' = detach (world s))
  end.
Proof.
  destruct a as [| | |h|p o|]; simpl.
  - destruct (cleanup s); [done|]. intros [= <-]. left.
    apply world_observerEffect.
  - destruct (cleanup s) as [t|]; [|done]. intros [= <-]. left.
    apply world_observerCleanup.
  - intros [= <-]. by right.
  - case_bool_decide; [|done]. intros [= <-]. by rewrite world_enqueue.
  - destruct (passes (world s) !! p) as [[f|]|]; try done.
    intros [= <-]. by rewrite world_enqueue.
  - destruct (observerRef s) as [ob|]; [|done].
    destruct (queue ob); [done|]. intros [= <-]. left.
    by rewrite world_observerCallback.
Qed.

Lemma acts_cons a tr s : acts (a :: tr) s = act a s ≫= acts tr.
Proof. done. Qed.

Lemma acts_app tr1 tr2 s : acts (tr1 ++ tr2) s = acts tr1 s ≫= acts tr2.
Proof.
  revert s. induction tr1 as [|a tr1 IH]; intros s; simpl; [done|].
  destruct (act a s); simpl; [apply IH|done].
Qed.

Lemma acts_invariant (Q : Action → Prop) (P : Page → Prop) :
  (∀ a s s', Q a → P s → act a s = Some s' → P s') →
  ∀ tr s s', Forall Q tr → P s → acts tr s = Some s' → P s'.
Proof.
  intros Hact tr. induction tr as [|a tr IH]; intros s s' Htr Hs; simpl.
  { by intros [= <-]. }
  apply Forall_cons in Htr as [Ha Htr].
  destruct (act a s) as [s1|] eqn:H1; [|done]. simpl.
  apply IH; [done|]. by eapply Hact.
Qed.


Lemma rooted_step l w w' : sound w → rooted w → step l w = Some w' → rooted w'.
Proof.
  intros Hw (h & Hh & Hr) Hstep.
  destruct (step_shape _ _ _ Hw Hstep)
    as (k & d0 & fr & evs & _ & _ & Hdoc & _ & _ & Hl).
  assert (∃ h0, headOf d0 = Some h0 ∧ ref h0 = 0) as (h0 & Hh0 & Hr0).
  { destruct l as [|p o].
    - destruct Hl as (_ & -> & _). eauto.
    - destruct Hl as (_ & f & d & _ & Hd & -> & _).
      apply insertAfter_head in Hd. rewrite Hh in Hd.
      destruct o; simpl.
      + unfold classList_add. rewrite headOf_update, Hd by done. simpl.
        eexists. split; [done|]. unfold onElement.
        by destruct (bool_decide _).
      + unfold removeAttribute. rewrite headOf_update, Hd by done. simpl.
        eexists. split; [done|]. unfold onElement.
        by destruct (bool_decide _). }
  unfold rooted. rewrite Hdoc. destruct fr as [g|]; simpl; [|eauto].
  unfold setAttribute. rewrite headOf_update, Hh0 by done. simpl.
  eexists. split; [done|]. unfold onElement. by destruct (bool_decide _).
Qed.

Lemma sound_detach w : sound w → sound (detach w).
Proof. intros [? ? ?]. by split. Qed.

Lemma held_detach w : held w → held (detach w).
Proof. intros [? ? ? ? ? ? ?]. by split. Qed.




(** The observer is the one the effect made. *)
Lemma observer_eta ob :
  mkObserver (observed ob) (options ob) (queue ob) = ob.
Proof. by destruct ob. Qed.

Lemma connected_enqueue ms s : connected s → connected (enqueue ms s).
Proof.
  unfold connected, enqueue. intros Hs ob'.
  destruct (observerRef s) as [ob|] eqn:Hob; [|by rewrite Hob].
  simpl. intros [= <-]. simpl. by apply Hs.
Qed.

Lemma healthy_act a s s' : healthy s → act a s = Some s' → healthy s'.
Proof.
  intros (Hs & Hh & Hr & Hc) Hact.
  assert (sound (world s') ∧ held (world s') ∧ rooted (world s'))
    as (Hs' & Hh' & Hr').
  { pose proof (act_world _ _ _ Hact) as Hw.
    destruct (labelOf a) as [l|].
    - split_and!; [by eapply sound_step|by eapply held_step|
                   by eapply rooted_step].
    - destruct Hw as [->|[_ ->]]; [done|].
      split_and!; [by apply sound_detach|by apply held_detach|done]. }
  split_and!; try done.
  destruct a as [| | |h|p o|]; simpl in Hact.
  - destruct (cleanup s); [done|]. injection Hact as <-.
    unfold observerEffect.
    destruct (containerRef (world s)) as [c|] eqn:Hcont; [|done].
    intros ob. simpl. intros [= <-]. simpl.
    by rewrite (held_container _ Hh c Hcont).
  - destruct (cleanup s) as [t|]; [|done]. injection Hact as <-.
    intros ob. unfold observerCleanup. simpl.
    destruct (observerRef s) eqn:Hob; simpl; [done|]. by rewrite Hob.
  - by injection Hact as <-.
  - case_bool_decide; [|done]. injection Hact as <-.
    by apply connected_enqueue.
  - destruct (passes (world s) !! p) as [[f|]|]; try done.
    injection Hact as <-. by apply connected_enqueue.
  - destruct (observerRef s) as [ob|] eqn:Hob; [|done].
    destruct (queue ob); [done|]. injection Hact as <-.
    intros ob'. unfold observerCallback.
    destruct (hasNewNodes _); simpl; intros [= <-]; simpl; by apply Hc.
Qed.

Lemma healthy_page content : healthy (page content).
Proof.
  split_and!.
  - apply sound_initial.
  - apply held_initial.
  - by exists containerHead.
  - by intros ob.
Qed.

Lemma healthy_reachable content tr s :
  acts tr (page content) = Some s → healthy s.
Proof.
  intros Hacts.
  apply (acts_invariant (λ _, True) healthy
           ) with (tr:=tr) (s:=page content) (s':=s); try done.
  - intros a s1 s2 _. apply healthy_act.
  - by apply Forall_true.
  - apply healthy_page.
Qed.

(** The observer is not interested in the changes of attributes. *)
Lemma interested_attributes ob d t l :
  options ob = mkInit true true false →
  interested ob d (mkRecord "attributes" t l) = false.
Proof.
  intros Hopt. unfold interested. rewrite Hopt. simpl.
  by rewrite andb_false_r.
Qed.

Lemma interested_marking ob d p w' :
  options ob = mkInit true true false →
  filter (λ m, interested ob d m) (marking p w') = [].
Proof.
  intros Hopt. unfold marking.
  destruct (passes w' !! p) as [[g|]|]; try done.
  rewrite filter_cons_False; [done|].
  rewrite interested_attributes by done. by apply Is_true_false.
Qed.

Lemma enqueue_marking p w' s :
  connected s → enqueue (marking p w') s = s.
Proof.
  intros Hc. unfold enqueue.
  destruct (observerRef s) as [ob|] eqn:Hob; [|done].
  destruct (Hc ob Hob) as [_ Hopt].
  rewrite interested_marking, app_nil_r, observer_eta by done.
  destruct s; simpl in *. by rewrite Hob.
Qed.

(** ** Counting the scans *)

Lemma clearTimeout_length h ts :
  h ∈ handle <$> ts →
  length (filter (λ t, handle t ≠ h) ts) < length ts.
Proof.
  induction ts as [|t ts IH]; simpl; [by intros ?%elem_of_nil|].
  intros [Hh|Hin]%elem_of_cons.
  - rewrite filter_cons_False by (by intros ?).
    pose proof (length_filter (λ t, handle t ≠ h) ts). simpl. lia.
  - specialize (IH Hin). destruct (decide (handle t ≠ h)).
    + rewrite filter_cons_True by done. simpl. lia.
    + rewrite filter_cons_False by done. simpl. lia.
Qed.

Lemma step_settled_count l w w' :
  step l w = Some w' →
  settled (history w')
  = settled (history w) + match l with Settle _ _ => 1 | Invoke => 0 end.
Proof.
  intros (k & bl & evs & fr & Hl & -> & _)%step_summary.
  rewrite !settled_app.
  assert (settled
            match fr with
            | Some g =>
                [RenderCalled k (codeBlock g) (diagramId g) (mermaidSource g)]
            | None => []
            end = 0) as -> by (by destruct fr).
  destruct l as [|pass o].
  - by destruct Hl as (_ & -> & _).
  - by destruct Hl as (_ & f & _ & -> & _).
Qed.

Lemma step_passes_length l w w' :
  step l w = Some w' →
  length (passes w')
  = length (passes w) + match l with Invoke => 1 | Settle _ _ => 0 end.
Proof.
  intros (k & bl & evs & fr & Hl & _)%step_summary.
  destruct l as [|pass o].
  - destruct Hl as (_ & _ & -> & _). by rewrite length_app.
  - destruct Hl as (_ & f & _ & _ & -> & _).
    rewrite length_insert. lia.
Qed.

Lemma batch_enqueue ms s : batch (enqueue ms s) ≤ S (batch s).
Proof.
  unfold batch, enqueue. destruct (observerRef s) as [ob|] eqn:Hob; simpl.
  - destruct (queue ob ++ _), (queue ob); lia.
  - rewrite Hob. lia.
Qed.

(** A scan is paid for by a run of the effect or by a render that
    settled. *)
Lemma scans_act a s s' :
  connected s →
  act a s = Some s' →
  scans s' + settled (history (world s))
  ≤ scans s + (if decide (a = Effect) then 1 else 0)
    + settled (history (world s')).
Proof.
  intros Hc Hact. unfold scans.
  destruct a as [| | |h|p o|]; cbn [act] in Hact.
  - destruct (cleanup s); [done|]. injection Hact as <-.
    unfold observerEffect, batch.
    destruct (containerRef (world s)) as [c|]; simpl.
    + rewrite length_app. simpl. lia.
    + destruct (observerRef s) as [ob|]; [destruct (queue ob)|]; lia.
  - destruct (cleanup s) as [t|]; [|done]. injection Hact as <-.
    rewrite world_observerCleanup.
    assert (length (timers (observerCleanup t s)) ≤ length (timers s)) as Ht.
    { unfold observerCleanup. simpl.
      destruct (observerRef s); simpl; apply length_filter. }
    assert (batch (observerCleanup t s) = 0) as ->.
    { unfold observerCleanup, batch. simpl.
      destruct (observerRef s) eqn:Hob; simpl; [done|]. by rewrite Hob. }
    lia.
  - injection Hact as <-. unfold batch. simpl. lia.
  - case_bool_decide as Hh; [|done]. injection Hact as <-.
    rewrite mutationsOf_Invoke, enqueue_marking by done. simpl.
    pose proof (step_passes_length Invoke (world s) _ eq_refl) as ->.
    pose proof (step_settled_count Invoke (world s) _ eq_refl) as ->.
    pose proof (clearTimeout_length _ _ Hh).
    change (batch (setWorld _ (clearTimeout h s))) with (batch s).
    simpl. lia.
  - destruct (step (Settle p o) (world s)) as [w'|] eqn:Hstep; [|done].
    injection Hact as <-.
    generalize (mutationsOf (Settle p o) (world s) w'). intros ms.
    rewrite world_enqueue, timers_enqueue. simpl.
    rewrite (step_passes_length _ _ _ Hstep).
    rewrite (step_settled_count _ _ _ Hstep).
    pose proof (batch_enqueue ms (setWorld w' s)) as Hb.
    change (batch (setWorld w' s)) with (batch s) in Hb. simpl. lia.
  - destruct (observerRef s) as [ob|] eqn:Hob; [|done].
    destruct (queue ob) as [|m ms] eqn:Hq; [done|]. injection Hact as <-.
    rewrite world_observerCallback. simpl.
    assert (batch s = 1) as -> by (unfold batch; by rewrite Hob, Hq).
    unfold observerCallback. destruct (hasNewNodes _); unfold batch; simpl.
    + rewrite length_app. simpl. lia.
    + lia.
Qed.

Lemma effects_cons a tr :
  effects (a :: tr) = (if decide (a = Effect) then 1 else 0) + effects tr.
Proof.
  unfold effects. destruct (decide (a = Effect)).
  - by rewrite filter_cons_True by done.
  - by rewrite filter_cons_False by done.
Qed.

Lemma scans_acts tr s s' :
  healthy s →
  acts tr s = Some s' →
  scans s' + settled (history (world s))
  ≤ scans s + effects tr + settled (history (world s')).
Proof.
  revert s. induction tr as [|a tr IH]; intros s Hs; simpl.
  { intros [= <-]. unfold effects. simpl. lia. }
  destruct (act a s) as [s1|] eqn:H1; [|done]. simpl. intros Hacts.
  pose proof (healthy_act _ _ _ Hs H1) as Hs1.
  specialize (IH s1 Hs1 Hacts).
  destruct Hs as (_ & _ & _ & Hc).
  pose proof (scans_act _ _ _ Hc H1). rewrite effects_cons. lia.
Qed.

(** ** The records of an output *)

Lemma find_root r n h : headOf n = Some h → ref h = r → find r n = Some n.
Proof.
  destruct n as [| |h' kids]; try done. simpl. intros [= ->] <-.
  by rewrite bool_decide_eq_true_2.
Qed.

Lemma descendants_mark next d : descendants (mark next d) = descendants d.
Proof.
  destruct next as [g|]; [|done]. simpl. unfold setAttribute.
  by apply descendants_update.
Qed.

Lemma descendants_finish o f d : descendants (finish o f d) = descendants d.
Proof.
  destruct o; simpl; unfold classList_add, removeAttribute;
    by apply descendants_update.
Qed.

Lemma step_descendants l w w' r :
  sound w →
  step l w = Some w' →
  r ∈ descendants (document w) → r ∈ descendants (document w').
Proof.
  intros Hw Hstep Hr.
  destruct (step_shape _ _ _ Hw Hstep)
    as (k & d0 & fr & evs & _ & _ & -> & _ & _ & Hl).
  rewrite descendants_mark. destruct l as [|p o].
  - by destruct Hl as (_ & -> & _).
  - destruct Hl as (_ & f & d & _ & Hd & -> & _).
    rewrite descendants_finish.
    apply (descendants_insertAfter _ _ _ _ _ Hd). by left.
Qed.

Lemma interested_childList ob d t l :
  observed ob = 0 →
  options ob = mkInit true true false →
  (∃ h, headOf d = Some h ∧ ref h = 0) →
  t = 0 ∨ t ∈ descendants d →
  interested ob d (mkRecord "childList" t l) = true.
Proof.
  intros Hobs Hopt (h & Hh & Hr) Ht. unfold interested.
  rewrite Hobs, Hopt, (find_root 0 d h) by done. simpl.
  rewrite andb_true_r. apply orb_true_iff.
  destruct Ht as [->|Ht]; [left|right]; by apply bool_decide_eq_true_2.
Qed.

(** When a render settles while the observer is connected, one record is
    queued: that of the insertion of the output. *)
Lemma settled_queue s ob p f o :
  healthy s →
  observerRef s = Some ob →
  pending (world s) p f →
  ∃ parent s1,
    parentElement (preElement f) (document (world s)) = Some parent
    ∧ act (Settled p o) s = Some s1
    ∧ step (Settle p o) (world s) = Some (world s1)
    ∧ observerRef s1
      = Some (mkObserver 0 (mkInit true true false)
                (queue ob
                 ++ [mkRecord "childList" (ref parent) [nextRef (world s)]]))
    ∧ timers s1 = timers s
    ∧ nextHandle s1 = nextHandle s
    ∧ cleanup s1 = cleanup s.
Proof.
  intros (Hs & Hh & Hr & Hc) Hob Hf.
  destruct (Hc ob Hob) as [Hobs Hopt].
  destruct (sound_frames _ Hs p f Hf) as (Hpre & _).
  pose proof Hpre as [parent Hparent]%parentElement_is_Some.
  assert (step (Settle p o) (world s) = Some (resume p f o (world s)))
    as Hstep.
  { simpl. unfold pending in Hf. by rewrite Hf. }
  exists parent, (enqueue (mutationsOf (Settle p o) (world s)
                             (resume p f o (world s)))
                    (setWorld (resume p f o (world s)) s)).
  split; [done|]. split; [by cbn [act]; rewrite Hstep|].
  rewrite world_enqueue, timers_enqueue, nextHandle_enqueue, cleanup_enqueue.
  split; [done|]. split; [|done].
  unfold enqueue. simpl. rewrite Hob. simpl. rewrite Hobs, Hopt.
  do 3 f_equal. unfold mutationsOf. unfold pending in Hf. rewrite Hf, Hparent.
  simpl. rewrite filter_cons_True.
  2:{ rewrite interested_childList; try done.
      - by apply (rooted_step _ _ _ Hs Hr Hstep).
      - apply parentElement_in in Hparent as [Hroot|Hin].
        + left. destruct Hr as (h & Hh' & Hr). congruence.
        + right. by eapply step_descendants. }
  f_equal. rewrite filter_app, interested_marking, app_nil_r by done.
  destruct o as [svg|error].
  - rewrite filter_cons_False; [done|].
    rewrite interested_attributes by done. by apply Is_true_false.
  - destruct (hasAttribute _ _ _); [|done].
    rewrite filter_cons_False; [done|].
    rewrite interested_attributes by done. by apply Is_true_false.
Qed.

Lemma hasNewNodes_snoc ms t r :
  hasNewNodes (ms ++ [mkRecord "childList" t [r]]) = true.
Proof.
  unfold hasNewNodes. rewrite existsb_app. apply orb_true_iff. by right.
Qed.

(** The callback then sets a timer for a scan, and clears none. *)
Lemma notify_queue s ob ms t r :
  observerRef s = Some ob →
  queue ob = ms ++ [mkRecord "childList" t [r]] →
  act Notify s
  = Some (mkPage (world s)
            (timers s ++ [mkTimer (nextHandle s) 100 DebouncedProcessing])
            (S (nextHandle s))
            (Some (mkObserver (observed ob) (options ob) []))
            (cleanup s)).
Proof.
  intros Hob Hq. simpl. rewrite Hob, Hq.
  destruct (ms ++ _) as [|m ms'] eqn:Hms.
  { by apply app_nil in Hms as [_ ?]. }
  rewrite <-Hms. unfold observerCallback. by rewrite hasNewNodes_snoc.
Qed.

(** ** Once the component is unmounted *)

Lemma enqueue_disconnected ms s : observerRef s = None → enqueue ms s = s.
Proof. unfold enqueue. by intros ->. Qed.

Lemma quiet_act s0 a s s' : quiet s0 s → act a s = Some s' → quiet s0 s'.
Proof.
  intros [Hc Hob Ht Hlen Hps Hh] Hact.
  destruct a as [| | |h|p o|]; cbn [act] in Hact.
  - destruct (cleanup s); [done|]. injection Hact as <-.
    unfold observerEffect. rewrite Hc. by split.
  - destruct (cleanup s) as [t|]; [|done]. injection Hact as <-.
    unfold observerCleanup. simpl. rewrite Hob. split; simpl; try done.
    etrans; [apply sublist_filter|done].
  - injection Hact as <-. by split.
  - case_bool_decide; [|done]. injection Hact as <-.
    rewrite enqueue_disconnected by done.
    pose proof (absent := step_inv Invoke (world s) _ eq_refl).
    destruct absent as [(_&_&Hw)|[(c&?&?&_&Hc'&_)|(?&?&?&?&?&[=]&_)]];
      [|congruence].
    simpl in Hw. split; simpl; rewrite ?Hw; simpl; try done.
    + etrans; [apply sublist_filter|done].
    + rewrite length_app. simpl. lia.
    + intros q Hq. rewrite length_app. simpl. intros Hlt.
      destruct (decide (q = length (passes (world s)))) as [->|Hne].
      * by rewrite lookup_app_r, Nat.sub_diag by done.
      * rewrite lookup_app_l by lia. apply Hps; [done|lia].
  - destruct (step (Settle p o) (world s)) as [w'|] eqn:Hstep; [|done].
    injection Hact as <-. rewrite enqueue_disconnected by done.
    pose proof (step_summary _ _ _ Hstep)
      as (k & bl & evs & fr & (-> & f & Hf & -> & Hpasses & ->) & Hhist & _
          & Hcont).
    pose proof (step_passes_length _ _ _ Hstep) as Hl. simpl in Hl.
    assert (p < length (passes (world s0))) as Hp.
    { destruct (decide (p < length (passes (world s0)))); [done|].
      unfold pending in Hf. rewrite Hps in Hf; [done|lia|].
      by eapply lookup_lt_Some. }
    split; simpl; try done.
    + congruence.
    + lia.
    + intros q Hq Hlt. rewrite Hpasses, list_lookup_insert_ne by lia.
      apply Hps; [done|lia].
    + intros q Hq. rewrite Hhist, filter_app, <-Hh by done.
      assert (Forall (ofPass p)
                ([RenderSettled p (codeBlock f) (diagramId f) o]
                 ++ match fr with
                    | Some g =>
                        [RenderCalled p (codeBlock g) (diagramId g)
                           (mermaidSource g)]
                    | None => []
                    end)) as Hall.
      { apply Forall_app. split; [by apply Forall_singleton|].
        destruct fr; [by apply Forall_singleton|done]. }
      rewrite (filter_ofPass_other q p _ Hall) by lia. apply app_nil_r.
  - by rewrite Hob in Hact.
Qed.

Lemma quiet_acts s0 tr s s' : quiet s0 s → acts tr s = Some s' → quiet s0 s'.
Proof.
  intros Hs Hacts.
  apply (acts_invariant (λ _, True) (quiet s0)
           ) with (tr:=tr) (s:=s) (s':=s'); try done.
  - intros a s1 s2 _. apply quiet_act.
  - by apply Forall_true.
Qed.

(** * The properties of the effect *)

(** X6.  Every output the component inserts makes it scan again.  In any
    state of the life of the component in which the observer is connected,
    when the render an invocation awaits settles, resolved or rejected, one
    record is queued for the observer, of type [childList], with the output
    as its added node (the changes of attributes and of classes queue
    none, nor does the mark an invocation sets); the callback that receives
    the batch then sets a timer of 100 ms for [processMermaidBlocks], and
    the timers that were set remain: scans are added, none is put off. *)
Theorem output_schedules_a_scan content tr s ob p f o :
  acts tr (page content) = Some s →
  observerRef s = Some ob →
  pending (world s) p f →
  ∃ parent s1 s2,
    parentElement (preElement f) (document (world s)) = Some parent
    ∧ act (Settled p o) s = Some s1
    ∧ observerRef s1
      = Some (mkObserver 0 (mkInit true true false)
                (queue ob
                 ++ [mkRecord "childList" (ref parent) [nextRef (world s)]]))
    ∧ timers s1 = timers s
    ∧ act Notify s1 = Some s2
    ∧ timers s2
      = timers s ++ [mkTimer (nextHandle s) 100 DebouncedProcessing]
    ∧ observerRef s2 = Some (mkObserver 0 (mkInit true true false) [])
    ∧ world s2 = world s1
    ∧ (∀ h s3, act (Timeout h) s = Some s3 → observerRef s3 = observerRef s).
Proof.
  intros Hacts Hob Hf.
  pose proof (healthy_reachable _ _ _ Hacts) as Hs.
  destruct (settled_queue s ob p f o Hs Hob Hf)
    as (parent & s1 & Hparent & Hact & _ & Hob1 & Ht1 & Hn1 & Hc1).
  pose proof (notify_queue s1 _ _ _ _ Hob1 eq_refl) as Hnotify.
  eexists parent, s1, _. split_and!; try done.
  - simpl. by rewrite Ht1, Hn1.
  - intros h s3 Hact3. cbn [act] in Hact3.
    case_bool_decide; [|done]. injection Hact3 as <-.
    destruct Hs as (_ & _ & _ & Hc).
    by rewrite mutationsOf_Invoke, enqueue_marking.
Qed.

Lemma output_schedules_a_scan_witness :
  acts [Effect; Timeout 1] (page pair) = Some firstScan
  ∧ observerRef firstScan = Some (mkObserver 0 (mkInit true true false) [])
  ∧ pending (world firstScan) 0
      (mkFrame [4] 2 1 "graph TD; A-->B" "mermaid-diagram-1")
  ∧ ∃ parent s1 s2,
      parentElement 1 (document (world firstScan)) = Some parent
      ∧ act (Settled 0 (Rejected OtherValue)) firstScan = Some s1
      ∧ observerRef s1
        = Some (mkObserver 0 (mkInit true true false)
                  ([] ++ [mkRecord "childList" (ref parent)
                            [nextRef (world firstScan)]]))
      ∧ timers s1 = timers firstScan
      ∧ act Notify s1 = Some s2
      ∧ timers s2
        = timers firstScan
          ++ [mkTimer (nextHandle firstScan) 100 DebouncedProcessing]
      ∧ observerRef s2 = Some (mkObserver 0 (mkInit true true false) [])
      ∧ world s2 = world s1
      ∧ (∀ h s3, act (Timeout h) firstScan = Some s3 →
                 observerRef s3 = observerRef firstScan).
Proof.
  split; [vm_compute; reflexivity|].
  split; [vm_compute; reflexivity|].
  split; [vm_compute; reflexivity|].
  apply (output_schedules_a_scan pair [Effect; Timeout 1] firstScan
           (mkObserver 0 (mkInit true true false) []) 0
           (mkFrame [4] 2 1 "graph TD; A-->B" "mermaid-diagram-1")
           (Rejected OtherValue)).
  - vm_compute; reflexivity.
  - vm_compute; reflexivity.
  - vm_compute; reflexivity.
Defined.

(** X7.  The component does not scan of its own accord: all along its
    life, the invocations of [processMermaidBlocks] so far, the timers that
    are set and the batch of records that waits for the callback, if any,
    are no more than the runs of the effect (one initial timer each) and
    the renders that have settled (one output each). *)
Theorem scans_are_paid_for content tr s :
  acts tr (page content) = Some s →
  length (passes (world s)) + length (timers s) + batch s
  ≤ effects tr + settled (history (world s)).
Proof.
  intros Hacts.
  pose proof (scans_acts _ _ _ (healthy_page content) Hacts) as Hle.
  change (scans (page content)) with 0 in Hle.
  change (settled (history (world (page content)))) with 0 in Hle.
  unfold scans in Hle. lia.
Qed.

Lemma scans_are_paid_for_witness :
  acts [Effect; Timeout 1] (page pair) = Some firstScan
  ∧ length (passes (world firstScan)) + length (timers firstScan)
    + batch firstScan
    ≤ effects [Effect; Timeout 1] + settled (history (world firstScan)).
Proof.
  split; [vm_compute; reflexivity|].
  apply (scans_are_paid_for pair [Effect; Timeout 1] firstScan).
  vm_compute; reflexivity.
Defined.



(** X9.  When React unmounts the component (it resets the reference to
    the container, then runs the cleanup function of the effect), whatever
    happens next: the observer is disconnected for good and the initial
    timer is cleared, no timer is set any more, and the timers of 100 ms
    that were pending, which the cleanup function does not clear, fire
    into invocations of [processMermaidBlocks] that return at once and call
    no render.  The invocations that were suspended are not cancelled. *)
Theorem unmounted_component_is_quiet s t tr s' :
  cleanup s = Some t →
  acts (Detach :: Cleanup :: tr) s = Some s' →
  containerRef (world s') = None
  ∧ observerRef s' = None
  ∧ (t ∉ handle <$> timers s')
  ∧ timers s' `sublist_of` filter (λ x, handle x ≠ t) (timers s)
  ∧ (∀ p, length (passes (world s)) ≤ p →
          p < length (passes (world s')) →
          passes (world s') !! p = Some None)
  ∧ (∀ p, length (passes (world s)) ≤ p →
          filter (ofPass p) (history (world s'))
          = filter (ofPass p) (history (world s)))
  ∧ (∀ p f o, pending (world s) p f →
              ∃ s2, acts [Detach; Cleanup; Settled p o] s = Some s2
                    ∧ settled (history (world s2))
                      = S (settled (history (world s)))).
Proof.
  intros Hcl Hacts. cbn [acts act] in Hacts. simpl in Hacts.
  rewrite Hcl in Hacts. simpl in Hacts.
  set (s1 := observerCleanup t (setWorld (detach (world s)) s)) in *.
  assert (quiet s1 s1) as Hq.
  { split; try done.
    - unfold s1. by rewrite world_observerCleanup.
    - unfold s1, observerCleanup. simpl.
      destruct (observerRef s) eqn:Hob; simpl; [done|]. by rewrite Hob.
    - intros p Hp Hlt. lia. }
  destruct (quiet_acts _ _ _ _ Hq Hacts) as [Hc Hob Ht Hlen Hps Hh].
  assert (timers s1 = filter (λ x, handle x ≠ t) (timers s)) as Ht1.
  { unfold s1, observerCleanup. simpl. by destruct (observerRef s). }
  assert (world s1 = detach (world s)) as Hw1.
  { unfold s1. by rewrite world_observerCleanup. }
  rewrite Ht1 in Ht. rewrite Hw1 in Hps, Hh. simpl in Hps, Hh.
  split_and!; try done.
  - intros (x & Hx & Hin)%list_elem_of_fmap.
    pose proof (elem_of_sublist _ _ _ Hin Ht) as Hin'.
    by apply list_elem_of_filter in Hin' as [? _].
  - intros p f o Hf.
    assert (step (Settle p o) (world s1)
            = Some (resume p f o (world s1))) as Hstep.
    { rewrite Hw1. simpl. unfold pending in Hf. by rewrite Hf. }
    eexists. split.
    + rewrite acts_cons. cbn [act mbind option_bind].
      rewrite acts_cons. cbn [act cleanup setWorld]. rewrite Hcl.
      cbn [mbind option_bind]. fold s1. rewrite acts_cons. cbn [act].
      rewrite Hstep. done.
    + rewrite world_enqueue. cbn [world setWorld].
      rewrite (step_settled_count _ _ _ Hstep), Hw1. simpl. lia.
Qed.

Lemma unmounted_component_is_quiet_witness :
  cleanup midway = Some 1
  ∧ acts (Detach :: Cleanup
          :: [Timeout 2; Settled 0 (Resolved "<svg>2</svg>")]) midway
    = Some unmounted
  ∧ observerRef unmounted = None
  ∧ (1 ∉ handle <$> timers unmounted).
Proof.
  split; [vm_compute; reflexivity|].
  split; [vm_compute; reflexivity|].
  destruct (unmounted_component_is_quiet midway 1
              [Timeout 2; Settled 0 (Resolved "<svg>2</svg>")] unmounted)
    as (_ & Hobserver & Htimer & _).
  - vm_compute; reflexivity.
  - vm_compute; reflexivity.
  - split; assumption.
Defined.

(** ** A block the renderer rejects *)

Lemma outputs_select outs : Forall isErrorOutput outs → outs ≫= select = [].
Proof.
  induction 1 as [|n outs (e & r & _ & ->) _ IH]; [done|].
  change (select (outputOf (Rejected e) r) ++ (outs ≫= select) = []).
  by rewrite select_outputOf.
Qed.

Lemma outputs_update c g outs :
  c < 3 → Forall isErrorOutput outs → update c g <$> outs = outs.
Proof.
  intros Hc. induction 1 as [|n outs (e & r & Hr & ->) _ IH]; [done|].
  rewrite fmap_cons, IH, update_outputOf by lia. done.
Qed.

Lemma outputs_count outs :
  Forall isErrorOutput outs →
  sum_list (countClass "mermaid-error" <$> outs) = length outs.
Proof.
  induction 1 as [|n outs (e & r & _ & ->) _ IH]; [done|].
  rewrite fmap_cons, countClass_outputOf. simpl. by rewrite IH.
Qed.

Lemma retry_checks src outs :
  trim src ≠ "" →
  checks 2 (Elem containerHead (mermaidBlock 1 2 src :: outs))
  = Some (mkHead 1 "PRE" [] ∅, trim src).
Proof.
  intros Hsrc. unfold checks, hasAttribute, getHead, textContent. simpl.
  rewrite lookup_empty, append_empty_r.
  rewrite (bool_decide_eq_false_2 (is_Some None)) by (by intros [? ?]).
  by rewrite bool_decide_eq_false_2.
Qed.

(** The scan of the page: the renderer is called for the block. *)
Lemma retry_scan src outs w :
  trim src ≠ "" →
  document w = Elem containerHead (mermaidBlock 1 2 src :: outs) →
  Forall isErrorOutput outs →
  containerRef w = Some 0 →
  renderingRef w = ∅ →
  processMermaidBlocks w
  = setPasses
      (passes w
       ++ [Some (mkFrame [] 2 1 (trim src)
                   (mermaidId (S (mermaidIdCounter w))))])
      (start (length (passes w)) 2 (trim src)
         (mermaidId (S (mermaidIdCounter w))) (advanceCounter 1 w)).
Proof.
  intros Hsrc Hdoc Houts Hc Hr. unfold processMermaidBlocks.
  rewrite Hc, Hdoc.
  assert (querySelectorAll 0 (Elem containerHead (mermaidBlock 1 2 src :: outs))
          = [2]) as ->.
  { unfold querySelectorAll. simpl. by rewrite outputs_select. }
  simpl. pose proof (examine_spec (length (passes w)) 2 w) as Hex.
  rewrite Hdoc, retry_checks, Hr in Hex by done.
  rewrite bool_decide_eq_false_2 in Hex by set_solver.
  by rewrite Hex.
Qed.

Lemma retry_marked src outs :
  Forall isErrorOutput outs →
  setAttribute 2 PROCESSED "true"
    (Elem containerHead (mermaidBlock 1 2 src :: outs))
  = Elem containerHead
      (Elem (mkHead 1 "PRE" [] ∅)
         [Elem (mkHead 2 "CODE" ["language-mermaid"]
                  (<[PROCESSED := "true"]> ∅)) [Text src]]
       :: outs).
Proof.
  intros Houts. unfold setAttribute. simpl.
  by rewrite outputs_update by (lia || done).
Qed.

(** The rejection of the render: the error output is inserted after the
    [pre], the mark of the block is removed, and the invocation returns. *)
Lemma retry_rejected src outs w i e id :
  Forall isErrorOutput outs →
  3 ≤ nextRef w →
  document w
  = setAttribute 2 PROCESSED "true"
      (Elem containerHead (mermaidBlock 1 2 src :: outs)) →
  resume i (mkFrame [] 2 1 (trim src) id) (Rejected e) w
  = setPasses (<[i := None]> (passes w))
      (afterRender i (mkFrame [] 2 1 (trim src) id) (Rejected e) w)
  ∧ document (afterRender i (mkFrame [] 2 1 (trim src) id) (Rejected e) w)
    = Elem containerHead
        (mermaidBlock 1 2 src :: outputOf (Rejected e) (nextRef w) :: outs).
Proof.
  intros Houts Hnext Hdoc. split.
  - unfold resume. simpl. done.
  - rewrite (afterRender_document i _ (Rejected e) w
               (Elem containerHead
                  (Elem (mkHead 1 "PRE" [] ∅)
                     [Elem (mkHead 2 "CODE" ["language-mermaid"]
                              (<[PROCESSED := "true"]> ∅)) [Text src]]
                   :: outputOf (Rejected e) (nextRef w) :: outs))).
    + unfold removeAttribute. cbn [codeBlock].
      change (update 2 (removeAttributeH PROCESSED) (Elem ?h ?kids))
        with (Elem (onElement 2 (removeAttributeH PROCESSED) h)
                (update 2 (removeAttributeH PROCESSED) <$> kids)).
      rewrite !fmap_cons, outputs_update, update_outputOf by (lia || done).
      reflexivity.
    + by rewrite Hdoc, retry_marked.
Qed.

(** One round: the timer fires, the render is rejected, the observer is
    notified of the error output, and the page is as before, with one more
    error output and a timer for the next scan. *)
Lemma retry_round src i e s :
  trim src ≠ "" →
  healthy s →
  retrying src i s →
  ∃ s', acts [Timeout (S i); Settled i (Rejected e); Notify] s = Some s'
        ∧ healthy s' ∧ retrying src (S i) s'.
Proof.
  intros Hsrc Hs [(outs & Hdoc & Houts & Hlen) Hnext Hc Hr Hps Hcalls
                    (ms & cb & Htimers) Hh Hob].
  set (f := mkFrame [] 2 1 (trim src)
              (mermaidId (S (mermaidIdCounter (world s))))).
  set (w1 := processMermaidBlocks (world s)).
  assert (w1 = setPasses (passes (world s) ++ [Some f])
                 (start (length (passes (world s))) 2 (trim src)
                    (mermaidId (S (mermaidIdCounter (world s))))
                    (advanceCounter 1 (world s)))) as Hw1.
  { by apply (retry_scan src outs). }
  set (sa := mkPage w1 [] (S (S i))
               (Some (mkObserver 0 (mkInit true true false) []))
               (cleanup s)).
  assert (act (Timeout (S i)) s = Some sa) as Hact1.
  { cbn [act]. rewrite Htimers.
    rewrite bool_decide_eq_true_2 by (simpl; set_solver).
    rewrite mutationsOf_Invoke, enqueue_marking.
    - unfold sa, setWorld, clearTimeout. simpl. rewrite Htimers, Hh, Hob.
      rewrite filter_cons_False by (simpl; by intros ?). done.
    - intros ob. simpl. by destruct Hs as (_ & _ & _ & Hconn); apply Hconn. }
  pose proof (healthy_act _ _ _ Hs Hact1) as Hsa.
  assert (pending (world sa) i f) as Hf.
  { unfold pending. simpl. rewrite Hw1. simpl. rewrite Hps.
    by rewrite lookup_app_r, length_replicate, Nat.sub_diag
      by (by rewrite length_replicate). }
  destruct (settled_queue sa _ i f (Rejected e) Hsa eq_refl Hf)
    as (parent & s1 & _ & Hact2 & Hstep & Hob1 & Ht1 & Hh1 & Hcl1).
  pose proof (healthy_act _ _ _ Hsa Hact2) as Hs1.
  pose proof (notify_queue s1 _ _ _ _ Hob1 eq_refl) as Hact3.
  eexists. split.
  { rewrite acts_cons, Hact1. cbn [mbind option_bind].
    rewrite acts_cons, Hact2. cbn [mbind option_bind].
    rewrite acts_cons, Hact3. done. }
  split; [by eapply healthy_act|].
  assert (world s1 = resume i f (Rejected e) w1) as Hw.
  { simpl in Hstep. unfold pending in Hf. simpl in Hf. rewrite Hf in Hstep.
    by injection Hstep. }
  destruct (retry_rejected src outs w1 i e
              (mermaidId (S (mermaidIdCounter (world s)))))
    as [Hres Hdoc1]; [done|by rewrite Hw1|by rewrite Hw1; simpl; rewrite Hdoc|].
  fold f in Hres, Hdoc1. rewrite Hres in Hw. clear Hres.
  pose proof (afterRender_nextRef i f (Rejected e) w1) as Hn.
  pose proof (afterRender_containerRef i f (Rejected e) w1) as Hco.
  pose proof (afterRender_rendering i f (Rejected e) w1) as Hre.
  pose proof (afterRender_passes i f (Rejected e) w1) as Hpa.
  pose proof (afterRender_history i f (Rejected e) w1) as Hhi.
  revert Hw Hdoc1 Hn Hco Hre Hpa Hhi.
  generalize (afterRender i f (Rejected e) w1).
  intros w2 Hw Hdoc1 Hn Hco Hre Hpa Hhi.
  split; simpl; rewrite ?Hw; simpl.
  - exists (outputOf (Rejected e) (nextRef w1) :: outs).
    split; [done|]. split; [|simpl; lia].
    apply Forall_cons. split; [|done]. exists e, (nextRef w1).
    split; [|done]. rewrite Hw1. simpl. lia.
  - rewrite Hn, Hw1. simpl. lia.
  - by rewrite Hco, Hw1.
  - rewrite Hre, Hw1. simpl. rewrite Hr. set_solver.
  - rewrite Hw1. simpl. rewrite Hps.
    rewrite insert_app_r_alt by (by rewrite length_replicate).
    rewrite length_replicate, Nat.sub_diag. simpl.
    by rewrite replicate_cons_app.
  - rewrite Hhi, renderCalls_app, app_nil_r, Hw1. simpl.
    rewrite renderCalls_app, length_app. simpl. lia.
  - rewrite Ht1, Hh1. simpl. eauto.
  - by rewrite Hh1.
  - done.
Qed.

Lemma retry_rounds src errors :
  trim src ≠ "" →
  ∀ i s,
    healthy s → retrying src i s →
    ∃ s', acts (retries i errors) s = Some s'
          ∧ healthy s' ∧ retrying src (length errors + i) s'.
Proof.
  intros Hsrc. induction errors as [|e errors IH]; intros i s Hs Hr.
  { by exists s. }
  destruct (retry_round src i e s Hsrc Hs Hr) as (s1 & Hacts1 & Hs1 & Hr1).
  destruct (IH (S i) s1 Hs1 Hr1) as (s' & Hacts & Hs' & Hr').
  exists s'. split; [|split; [done|]].
  - change (retries i (e :: errors))
      with ([Timeout (S i); Settled i (Rejected e); Notify]
            ++ retries (S i) errors).
    by rewrite acts_app, Hacts1.
  - by replace (length (e :: errors) + i) with (length errors + S i)
      by (simpl; lia).
Qed.

Lemma retry_start src :
  retrying src 0 (observerEffect (page [mermaidBlock 1 2 src])).
Proof.
  split; simpl; try done.
  - by exists [].
  - eauto.
Qed.

Lemma suspended_replicate w n : passes w = replicate n None → suspended w = 0.
Proof.
  unfold suspended. intros ->. induction n as [|n IH]; [done|]. simpl.
  rewrite filter_cons_False; [done|]. by intros [? ?].
Qed.

(** X10.  A block the renderer rejects is rendered again and again, with
    no change of the page but those of the component itself.  On a page
    with one block of text [src] (not blank), let each render be rejected:
    the error output that the [catch] block inserts makes the observer set
    a timer, the scan of that timer finds the block unmarked and renders it
    again; after [n] rounds, for any [n], the renderer was called [n]
    times, [n] error outputs are in the document, no invocation is
    suspended, and the timer of the next scan is set. *)
Theorem rejected_block_is_retried_without_end src errors :
  trim src ≠ "" →
  ∃ s,
    acts (Effect :: retries 0 errors) (page [mermaidBlock 1 2 src]) = Some s
    ∧ length (renderCalls (history (world s))) = length errors
    ∧ countClass "mermaid-error" (document (world s)) = length errors
    ∧ suspended (world s) = 0
    ∧ ∃ ms cb, timers s = [mkTimer (S (length errors)) ms cb].
Proof.
  intros Hsrc.
  assert (healthy (observerEffect (page [mermaidBlock 1 2 src]))) as Hs.
  { apply (healthy_act Effect (page [mermaidBlock 1 2 src]));
      [apply healthy_page|done]. }
  destruct (retry_rounds src errors Hsrc 0 _ Hs (retry_start src))
    as (s & Hacts & _ & [(outs & Hdoc & Houts & Hlen) _ _ _ Hps Hcalls Ht _ _]).
  rewrite Nat.add_0_r in *.
  exists s. split_and!; try done.
  - rewrite Hdoc. simpl. by rewrite outputs_count.
  - by eapply suspended_replicate.
Qed.

Lemma rejected_block_is_retried_without_end_witness :
  trim "graph TD; A--" ≠ ""
  ∧ ∃ s,
      acts (Effect :: retries 0 [ErrorInstance "bad syntax"; OtherValue])
        (page [mermaidBlock 1 2 "graph TD; A--"]) = Some s
      ∧ length (renderCalls (history (world s)))
        = length [ErrorInstance "bad syntax"; OtherValue]
      ∧ countClass "mermaid-error" (document (world s))
        = length [ErrorInstance "bad syntax"; OtherValue]
      ∧ suspended (world s) = 0
      ∧ ∃ ms cb,
          timers s
          = [mkTimer (S (length [ErrorInstance "bad syntax"; OtherValue]))
               ms cb].
Proof.
  split; [vm_compute; discriminate|].
  apply (rejected_block_is_retried_without_end "graph TD; A--"
           [ErrorInstance "bad syntax"; OtherValue]).
  vm_compute; discriminate.
Defined.

(** ** The timers and the observer of the effect *)

Lemma observer_enqueue ms s :
  is_Some (observerRef (enqueue ms s)) ↔ is_Some (observerRef s).
Proof.
  unfold enqueue. destruct (observerRef s) as [ob|] eqn:Hob; simpl.
  - split; eauto.
  - by rewrite Hob.
Qed.

Lemma filter_sublist {A} (P : A → Prop) `{!∀ x, Decision (P x)}
  (l1 l2 : list A) :
  l1 `sublist_of` l2 → filter P l1 `sublist_of` filter P l2.
Proof.
  induction 1 as [|x l1 l2 _ IH|x l1 l2 _ IH]; [done|..].
  - destruct (decide (P x)).
    + rewrite !filter_cons_True by done. by constructor.
    + by rewrite !filter_cons_False by done.
  - destruct (decide (P x)).
    + rewrite filter_cons_True by done. by constructor.
    + by rewrite filter_cons_False by done.
Qed.

Lemma Forall_fewer {A} (P : A → Prop) (l1 l2 : list A) :
  Forall P l2 → l1 `sublist_of` l2 → Forall P l1.
Proof.
  intros Hall Hsub. apply Forall_forall. intros x Hx.
  eapply Forall_forall in Hall; [done|]. by eapply elem_of_sublist.
Qed.

Lemma initialTimers_sublist s s' :
  timers s' `sublist_of` timers s →
  initialTimers s' `sublist_of` initialTimers s.
Proof. intros Hsub. unfold initialTimers. by apply filter_sublist. Qed.

Lemma tidy_fewer s s' :
  tidy s →
  timers s' `sublist_of` timers s →
  nextHandle s' = nextHandle s →
  cleanup s' = cleanup s →
  (is_Some (observerRef s') ↔ is_Some (observerRef s)) →
  tidy s'.
Proof.
  intros [Hh Hnd Hi Ho] Hsub Hn Hc Hob. split.
  - rewrite Hn. by eapply Forall_fewer.
  - eapply sublist_NoDup; [done|]. by apply fmap_sublist.
  - rewrite Hc. eapply Forall_fewer; [done|].
    by apply initialTimers_sublist.
  - by rewrite Hob, Hc.
Qed.

Lemma tidy_setTimeout cb ms s c ob :
  tidy s →
  (cb = InitialProcessing → cleanup s = None ∧ c = Some (nextHandle s)) →
  (cb ≠ InitialProcessing → c = cleanup s) →
  (is_Some ob ↔ is_Some c) →
  tidy (mkPage (world s) (timers s ++ [mkTimer (nextHandle s) ms cb])
          (S (nextHandle s)) ob c).
Proof.
  intros [Hh Hnd Hi Ho] Hinit Hother Hob. split; simpl.
  - apply Forall_app. split.
    + eapply Forall_impl; [done|]. simpl. lia.
    + apply Forall_singleton. simpl. lia.
  - rewrite fmap_app. apply NoDup_app. split_and!; [done| |].
    + intros h (x & -> & Hx)%list_elem_of_fmap Hin. simpl in Hin.
      apply list_elem_of_singleton in Hin.
      eapply Forall_forall in Hh; [|done]. simpl in Hh. lia.
    + simpl. apply NoDup_singleton.
  - unfold initialTimers. simpl. rewrite filter_app. apply Forall_app.
    fold (initialTimers s). split.
    + destruct (decide (cb = InitialProcessing)) as [Hcb|Hcb].
      * destruct (Hinit Hcb) as [Hnone _].
        eapply Forall_impl; [done|]. simpl. intros x. by rewrite Hnone.
      * by rewrite (Hother Hcb).
    + destruct (decide (cb = InitialProcessing)) as [Hcb|Hcb].
      * rewrite filter_cons_True by done. apply Forall_singleton. simpl.
        by destruct (Hinit Hcb) as [_ ->].
      * by rewrite filter_cons_False by done.
  - done.
Qed.

Lemma tidy_act a s s' : tidy s → act a s = Some s' → tidy s'.
Proof.
  intros Hs Hact. destruct a as [| | |h|p o|]; cbn [act] in Hact.
  - destruct (cleanup s) eqn:Hcl; [done|]. injection Hact as <-.
    unfold observerEffect. destruct (containerRef (world s)); [|done].
    unfold setCleanup, setObserver. simpl.
    by apply (tidy_setTimeout InitialProcessing 500 s).
  - destruct (cleanup s) as [t|] eqn:Hcl; [|done]. injection Hact as <-.
    destruct Hs as [Hh Hnd Hi Ho].
    assert (timers (observerCleanup t s)
            = filter (λ x, handle x ≠ t) (timers s)) as Ht.
    { unfold observerCleanup. simpl. by destruct (observerRef s). }
    assert (observerRef (observerCleanup t s) = None) as Hob.
    { unfold observerCleanup. simpl.
      destruct (observerRef s) eqn:Hob; simpl; [done|]. by rewrite Hob. }
    assert (nextHandle (observerCleanup t s) = nextHandle s) as Hn.
    { unfold observerCleanup. simpl. by destruct (observerRef s). }
    assert (cleanup (observerCleanup t s) = None) as Hc by done.
    split.
    + rewrite Ht, Hn. eapply Forall_fewer; [done|apply sublist_filter].
    + rewrite Ht. eapply sublist_NoDup; [done|].
      apply fmap_sublist, sublist_filter.
    + unfold initialTimers. rewrite Ht, Hc.
      apply Forall_forall. intros x [Hx1 [Hx2 Hx]%list_elem_of_filter
                                     ]%list_elem_of_filter.
      assert (x ∈ initialTimers s) as Hin by (by apply list_elem_of_filter).
      eapply Forall_forall in Hi; [|done]. simpl in Hi. congruence.
    + rewrite Hob, Hc. split; by intros [? ?].
  - injection Hact as <-. by destruct Hs.
  - case_bool_decide; [|done]. injection Hact as <-.
    eapply tidy_fewer; [done|..].
    + rewrite timers_enqueue. simpl. apply sublist_filter.
    + by rewrite nextHandle_enqueue.
    + by rewrite cleanup_enqueue.
    + by rewrite observer_enqueue.
  - destruct (step (Settle p o) (world s)) as [w'|]; [|done].
    injection Hact as <-. eapply tidy_fewer; [done|..].
    + by rewrite timers_enqueue.
    + by rewrite nextHandle_enqueue.
    + by rewrite cleanup_enqueue.
    + by rewrite observer_enqueue.
  - destruct (observerRef s) as [ob|] eqn:Hob; [|done].
    destruct (queue ob) as [|m ms]; [done|]. injection Hact as <-.
    assert (is_Some (cleanup s)) as Hcl.
    { apply (tidy_observer _ Hs). rewrite Hob. eauto. }
    unfold observerCallback. destruct (hasNewNodes _); simpl.
    + by apply (tidy_setTimeout DebouncedProcessing 100 s).
    + eapply tidy_fewer; [done|done..|]. simpl. rewrite Hob. split; eauto.
Qed.

Lemma tidy_reachable content tr s : acts tr (page content) = Some s → tidy s.
Proof.
  intros Hacts.
  apply (acts_invariant (λ _, True) tidy
           ) with (tr:=tr) (s:=page content) (s':=s); try done.
  - intros a s1 s2 _. apply tidy_act.
  - by apply Forall_true.
  - split; simpl; try done; try apply NoDup_nil_2.
    all: split; by intros [? ?].
Qed.

Lemma NoDup_constant {A} (l : list A) (a : A) :
  NoDup l → Forall (λ x, x = a) l → length l ≤ 1.
Proof.
  destruct l as [|x [|y l]]; simpl; [lia|lia|].
  intros Hnd Hall. apply NoDup_cons in Hnd as [Hx _].
  apply Forall_cons in Hall as [-> Hall].
  apply Forall_cons in Hall as [-> _].
  exfalso. apply Hx, list_elem_of_here.
Qed.

(** X11.  However often React runs the effect and its cleanup function
    (it runs them twice in a row in strict mode), and whatever the timers
    and the renders do meanwhile: at most one timer of the initial scan is
    set, and it is the one the cleanup function to run will clear; the
    timers have distinct handles; the component has an observer exactly
    when it has a cleanup function to run, so that no observer is left
    connected when the effect is cleaned up. *)
Theorem one_initial_timer content tr s :
  acts tr (page content) = Some s →
  length (initialTimers s) ≤ 1
  ∧ Forall (λ x, cleanup s = Some (handle x)) (initialTimers s)
  ∧ NoDup (handle <$> timers s)
  ∧ (is_Some (observerRef s) ↔ is_Some (cleanup s))
  ∧ (∀ s', act Cleanup s = Some s' →
           initialTimers s' = [] ∧ observerRef s' = None ∧ cleanup s' = None).
Proof.
  intros Hacts. pose proof (tidy_reachable _ _ _ Hacts) as Hs.
  pose proof Hs as [Hh Hnd Hi Ho]. split_and!; try done.
  - destruct (cleanup s) as [t|] eqn:Hcl.
    + rewrite <-(length_fmap handle).
      apply (NoDup_constant _ t).
      * eapply sublist_NoDup; [done|]. apply fmap_sublist, sublist_filter.
      * apply Forall_fmap. eapply Forall_impl; [done|]. simpl.
        by intros x [= ->].
    + destruct (initialTimers s) as [|x l]; [simpl; lia|].
      by apply Forall_cons in Hi as [? _].
  - intros s' Hact. pose proof (tidy_act _ _ _ Hs Hact) as [_ _ Hi' Ho'].
    cbn [act] in Hact. destruct (cleanup s) as [t|]; [|done].
    injection Hact as <-.
    assert (cleanup (observerCleanup t s) = None) as Hc by done.
    rewrite Hc in Hi', Ho'. split_and!; [|  |done].
    + by destruct Hi' as [|x l Hx _].
    + destruct (observerRef (observerCleanup t s)) as [ob|]; [|done].
      destruct Ho' as [Ho' _]. by destruct Ho'.
Qed.

Lemma one_initial_timer_witness :
  acts [Effect; Cleanup; Effect] (page pair) = Some remounted
  ∧ length (initialTimers remounted) ≤ 1.
Proof.
  split; [vm_compute; reflexivity|].
  apply (one_initial_timer pair [Effect; Cleanup; Effect] remounted).
  vm_compute; reflexivity.
Defined.

(** ** The configuration of the renderer, use after use *)

Lemma use_supplied m u config :
  supplies (mermaidInitialized m) u = Some config →
  configuration (use m u) = Some (config ∪ defaultMermaidConfig)
  ∧ mermaidInitialized (use m u) = true.
Proof.
  destruct u as [c|i [c|]]; simpl.
  - by intros [= <-].
  - intros [= <-]. unfold activate.
    destruct (mermaidInitialized m) eqn:Hm; simpl; by rewrite ?Hm.
  - unfold activate. destruct (mermaidInitialized m); [done|].
    by intros [= <-].
Qed.

Lemma use_kept m u :
  mermaidInitialized m = true →
  supplies true u = None →
  use m u = m.
Proof.
  intros Hm. destruct u as [c|i [c|]]; simpl; try done.
  intros _. unfold activate. by rewrite Hm.
Qed.

(** X12.  The configurations of the callers do not add up: after any
    sequence of calls of [initializeMermaid] and of activations of
    instances of the component, the renderer holds the defaults overridden
    by the configuration of the last use that supplied one, and by nothing
    of the uses before it (a key that use did not give has its default
    value, whatever an earlier caller had set); activations without
    configuration that come later change nothing.  A call of
    [initializeMermaid] always counts as such a use, without argument too,
    and an activation without configuration counts only if the renderer
    was never initialized. *)
Theorem configuration_is_the_last_supplied m us1 u us2 config :
  supplies (mermaidInitialized (foldl use m us1)) u = Some config →
  Forall (λ u', supplies true u' = None) us2 →
  configuration (foldl use m (us1 ++ u :: us2))
  = Some (config ∪ defaultMermaidConfig)
  ∧ mermaidInitialized (foldl use m (us1 ++ u :: us2)) = true
  ∧ (∀ key, config !! key = None →
            configuration (foldl use m (us1 ++ u :: us2))
            ≫= (λ c, c !! key)
            = defaultMermaidConfig !! key).
Proof.
  intros Hu Hus2. rewrite foldl_app. simpl.
  destruct (use_supplied _ _ _ Hu) as [Hc Hi].
  revert Hc Hi. generalize (use (foldl use m us1) u). intros m1 Hc Hi.
  assert (foldl use m1 us2 = m1) as ->.
  { induction Hus2 as [|u' us2 Hu' _ IH]; [done|]. simpl.
    by rewrite use_kept. }
  split_and!; [done|done|].
  intros key Hkey. rewrite Hc. simpl.
  by rewrite lookup_union_r.
Qed.

Lemma configuration_is_the_last_supplied_witness :
  supplies
    (mermaidInitialized
       (foldl use (mkRenderer false None)
          [Initialize (Some {[ "theme" := VString "forest" ]})]))
    (Activation 1 (Some {[ "fontFamily" := VString "Fira Code" ]}))
  = Some {[ "fontFamily" := VString "Fira Code" ]}
  ∧ Forall (λ u', supplies true u' = None) [Activation 2 None]
  ∧ (configuration
       (foldl use (mkRenderer false None)
          ([Initialize (Some {[ "theme" := VString "forest" ]})]
           ++ Activation 1 (Some {[ "fontFamily" := VString "Fira Code" ]})
              :: [Activation 2 None]))
     ≫= λ c, c !! "theme") = Some (VString "default").
Proof.
  split; [reflexivity|]. split; [repeat constructor|].
  destruct (configuration_is_the_last_supplied (mkRenderer false None)
              [Initialize (Some {[ "theme" := VString "forest" ]})]
              (Activation 1 (Some {[ "fontFamily" := VString "Fira Code" ]}))
              [Activation 2 None]
              {[ "fontFamily" := VString "Fira Code" ]})
    as (_ & _ & Hkey).
  - reflexivity.
  - repeat constructor.
  - rewrite (Hkey "theme"); vm_compute; reflexivity.
Defined.

(** ** From mount to rest *)










